(** * CipherLending: the on-chain ledger of Cipher Trust Connect

    A shallow embedding of the Solidity contract [CipherLending]
    (borrower requests, lender offers, loans and the cache of encrypted
    comparison results) together with the properties of its external
    functions.

    Conventions.
    - [uint256], [uint32] and [address] values are natural numbers in [N],
      taken as the ABI decoder delivers them (a [uint32] argument is below
      [2^32]); the only narrowing conversion of the contract,
      [uint32(block.timestamp)], is written out as a reduction modulo
      [2^32].
    - [euint32] and [ebool] are handles (32-byte words) of the FHE library;
      the zero word is the uninitialised handle.
    - Dynamic storage arrays are lists, the nested mapping
      [comparisonResults] is a finite map read with default zero.
    - An external call either succeeds with a value and a new state, reverts
      with a reason string, panics with a code, or reverts inside the FHE
      library.  A failed call commits nothing. *)

From stdpp Require Import base numbers list strings gmap sorting.

Local Open Scope N_scope.

(** ** Data model *)

Module BorrowerRequest.
Record t := mk {
  borrower : N;
  encryptedScore : N;
  amount : N;
  term : N;
  isActive : bool
}.
End BorrowerRequest.

Module LenderOffer.
Record t := mk {
  lender : N;
  borrowerRequestId : N;
  amount : N;
  apr : N;
  term : N;
  isActive : bool
}.
End LenderOffer.

Module Loan.
Record t := mk {
  borrower : N;
  lender : N;
  amount : N;
  apr : N;
  term : N;
  startTime : N;
  isActive : bool;
  isRepaid : bool
}.
End Loan.

Inductive Event :=
| NewBorrowerRequest (requestId borrower amount : N)
| NewLenderOffer (offerId requestId lender amount : N)
| LoanCreated (loanId borrower lender amount : N)
| LoanRepaid (loanId amount : N).

(** The contract's storage, followed by the two pieces of chain state its
    calls write to: the access-control list of the FHE library (pairs of a
    handle and an account allowed to decrypt it) and the event log. *)
Record State := mkState {
  borrowerRequests : list BorrowerRequest.t;
  lenderOffers : list LenderOffer.t;
  loans : list Loan.t;
  nextLoanId : N;
  comparisonResults : gmap (N * N * N) N;
  acl : gset (N * N);
  logs : list Event
}.

(** The freshly deployed contract. *)
Definition init : State := mkState [] [] [] 0 ∅ ∅ [].

(** The transaction context of a call. *)
Record Env := mkEnv {
  this : N;
  msg_sender : N;
  msg_value : N;
  block_timestamp : N
}.

Definition set_borrowerRequests (v : list BorrowerRequest.t) (s : State) : State :=
  mkState v (lenderOffers s) (loans s) (nextLoanId s) (comparisonResults s) (acl s) (logs s).

Definition set_lenderOffers (v : list LenderOffer.t) (s : State) : State :=
  mkState (borrowerRequests s) v (loans s) (nextLoanId s) (comparisonResults s) (acl s) (logs s).

Definition set_loans (v : list Loan.t) (s : State) : State :=
  mkState (borrowerRequests s) (lenderOffers s) v (nextLoanId s) (comparisonResults s) (acl s) (logs s).

Definition set_comparisonResults (v : gmap (N * N * N) N) (s : State) : State :=
  mkState (borrowerRequests s) (lenderOffers s) (loans s) (nextLoanId s) v (acl s) (logs s).

Definition set_acl (v : gset (N * N)) (s : State) : State :=
  mkState (borrowerRequests s) (lenderOffers s) (loans s) (nextLoanId s) (comparisonResults s) v (logs s).

Definition set_logs (v : list Event) (s : State) : State :=
  mkState (borrowerRequests s) (lenderOffers s) (loans s) (nextLoanId s) (comparisonResults s) (acl s) v.

(** ** The execution monad *)

(** The outcome of running a call from a state.  A failure records the
    state execution had reached when it stopped, which the transaction then
    discards. *)
Inductive result (A : Type) :=
| Ok (a : A) (s : State)
| Revert (reason : string) (s : State)
| Panic (code : N) (s : State)
| FHERevert (s : State).
Arguments Ok {A} a s.
Arguments Revert {A} reason s.
Arguments Panic {A} code s.
Arguments FHERevert {A} s.

Definition M (A : Type) : Type := State → result A.

Global Instance M_ret : MRet M := λ A a s, Ok a s.

Global Instance M_bind : MBind M := λ A B k m s,
  match m s with
  | Ok a s' => k a s'
  | Revert r s' => Revert r s'
  | Panic c s' => Panic c s'
  | FHERevert s' => FHERevert s'
  end.

Definition get : M State := λ s, Ok s s.
Definition modify (f : State → State) : M unit := λ s, Ok tt (f s).
Definition revert {A} (reason : string) : M A := λ s, Revert reason s.
Definition panic {A} (code : N) : M A := λ s, Panic code s.

Definition require (cond : bool) (reason : string) : M unit :=
  if cond then mret tt else revert reason.

Definition emit (ev : Event) : M unit :=
  modify (λ s, set_logs (logs s ++ [ev]) s).

(** Checked subtraction: underflow is [Panic(0x11)]. *)
Definition checked_sub (a b : N) : M N :=
  if b <=? a then mret (a - b) else panic 17.

(** Indexing an array, in storage or in memory: out of range is
    [Panic(0x32)]. *)
Definition index {A} (l : list A) (i : N) : M A :=
  match l !! N.to_nat i with
  | Some x => mret x
  | None => panic 50
  end.

Definition mem_write {A} (l : list A) (i : N) (x : A) : M (list A) :=
  if i <? N.of_nat (length l) then mret (<[N.to_nat i := x]> l) else panic 50.

(** [for (uint256 i = 0; i < n; i++) body], threading the local variables
    the body assigns. *)
Fixpoint for_each {T} (ixs : list nat) (body : N → T → M T) (acc : T) : M T :=
  match ixs with
  | [] => mret acc
  | i :: rest => acc' ← body (N.of_nat i) acc; for_each rest body acc'
  end.

Definition for_range {T} (n : N) (body : N → T → M T) (acc : T) : M T :=
  for_each (seq 0 (N.to_nat n)) body acc.

(** The result of a call as a transaction: a failed call leaves the state
    it started from. *)
Definition commit {A} (m : M A) (s : State) : State :=
  match m s with
  | Ok _ s' => s'
  | _ => s
  end.

Definition to_uint32 (x : N) : N := x mod 2 ^ 32.

(** ** The FHE library, as the contract uses it

    [FHE.fromExternal], [FHE.asEuint32] and [FHE.ge] belong to the
    [@fhevm/solidity] dependency.  The handles they produce are left
    abstract: a proof verifier that may reject its input, and two
    functions computing the handle of a trivial encryption and of a
    comparison.  [FHE.allow] and [FHE.allowThis] record a permission in the
    access-control list. *)
Module FHE.

Class Library := {
  verify : N → N → N → list Byte.byte → option N;
  trivialEncrypt : N → N;
  fheGe : N → N → N
}.

Definition fromExternal {fhe : Library} (e : Env) (inputHandle : N)
    (inputProof : list Byte.byte) : M N :=
  match verify (this e) (msg_sender e) inputHandle inputProof with
  | Some handle => mret handle
  | None => λ s, FHERevert s
  end.

Definition asEuint32 {fhe : Library} (value : N) : M N := mret (trivialEncrypt value).

Definition ge {fhe : Library} (a b : N) : M N := mret (fheGe a b).

Definition allow (handle account : N) : M unit :=
  modify (λ s, set_acl ({[ (handle, account) ]} ∪ acl s) s).

Definition allowThis (e : Env) (handle : N) : M unit := allow handle (this e).

End FHE.

(** ** The contract *)

Section CipherLending.
Context {fhe : FHE.Library}.

Definition submitBorrowerRequest (e : Env) (encryptedScore amount term : N)
    (inputProof : list Byte.byte) : M unit :=
  require (0 <? amount) "Amount must be greater than 0";;
  require ((0 <? term) && (term <=? 120)) "Term must be between 1-120 months";;
  score ← FHE.fromExternal e encryptedScore inputProof;
  FHE.allowThis e score;;
  FHE.allow score (msg_sender e);;
  let request := BorrowerRequest.mk (msg_sender e) score amount term true in
  modify (λ s, set_borrowerRequests (borrowerRequests s ++ [request]) s);;
  s ← get;
  requestId ← checked_sub (N.of_nat (length (borrowerRequests s))) 1;
  emit (NewBorrowerRequest requestId (msg_sender e) amount).

Definition findMatches (e : Env) (_minScore : N) : M (list N) :=
  s ← get;
  let len := N.of_nat (length (borrowerRequests s)) in
  let tempMatches := replicate (N.to_nat len) 0 in
  let matchCount := 0 in
  '(tempMatches, matchCount) ←
    for_range len (λ i '(tempMatches, matchCount),
      request ← index (borrowerRequests s) i;
      if BorrowerRequest.isActive request then
        tempMatches ← mem_write tempMatches matchCount i;
        mret (tempMatches, matchCount + 1)
      else mret (tempMatches, matchCount)) (tempMatches, matchCount);
  let matchingRequestIds := replicate (N.to_nat matchCount) 0 in
  matchingRequestIds ←
    for_range matchCount (λ j matchingRequestIds,
      v ← index tempMatches j;
      mem_write matchingRequestIds j v) matchingRequestIds;
  mret matchingRequestIds.

Definition checkScoreMatch (e : Env) (requestId minScore : N) : M N :=
  s ← get;
  require (requestId <? N.of_nat (length (borrowerRequests s))) "Invalid request ID";;
  request ← index (borrowerRequests s) requestId;
  require (BorrowerRequest.isActive request) "Request is not active";;
  minScoreEncrypted ← FHE.asEuint32 minScore;
  comparisonResult ← FHE.ge (BorrowerRequest.encryptedScore request) minScoreEncrypted;
  modify (λ s, set_comparisonResults
    (<[(requestId, minScore, msg_sender e) := comparisonResult]> (comparisonResults s)) s);;
  FHE.allowThis e comparisonResult;;
  FHE.allow comparisonResult (msg_sender e);;
  mret comparisonResult.

Definition getComparisonResult (e : Env) (requestId minScore caller : N) : M N :=
  s ← get;
  mret (default 0 (comparisonResults s !! (requestId, minScore, caller))).

Definition getEncryptedScore (e : Env) (requestId : N) : M N :=
  s ← get;
  require (requestId <? N.of_nat (length (borrowerRequests s))) "Invalid request ID";;
  request ← index (borrowerRequests s) requestId;
  mret (BorrowerRequest.encryptedScore request).

Definition submitLenderOffer (e : Env) (borrowerRequestId amount apr term : N) : M unit :=
  s ← get;
  require (borrowerRequestId <? N.of_nat (length (borrowerRequests s))) "Invalid request ID";;
  request ← index (borrowerRequests s) borrowerRequestId;
  require (BorrowerRequest.isActive request) "Request is not active";;
  require (0 <? amount) "Amount must be greater than 0";;
  require ((0 <? apr) && (apr <=? 10000)) "APR must be between 1-10000 basis points";;
  require ((0 <? term) && (term <=? 120)) "Term must be between 1-120 months";;
  let offer := LenderOffer.mk (msg_sender e) borrowerRequestId amount apr term true in
  modify (λ s, set_lenderOffers (lenderOffers s ++ [offer]) s);;
  s ← get;
  offerId ← checked_sub (N.of_nat (length (lenderOffers s))) 1;
  emit (NewLenderOffer offerId borrowerRequestId (msg_sender e) amount).

(** [request.isActive = false] and [offer.isActive = false] through the
    storage pointers: the slot keeps its other fields. *)
Definition deactivate_request (r : BorrowerRequest.t) : BorrowerRequest.t :=
  BorrowerRequest.mk (BorrowerRequest.borrower r) (BorrowerRequest.encryptedScore r)
    (BorrowerRequest.amount r) (BorrowerRequest.term r) false.

Definition deactivate_offer (o : LenderOffer.t) : LenderOffer.t :=
  LenderOffer.mk (LenderOffer.lender o) (LenderOffer.borrowerRequestId o)
    (LenderOffer.amount o) (LenderOffer.apr o) (LenderOffer.term o) false.

Definition acceptLoanOffer (e : Env) (offerId : N) : M unit :=
  s ← get;
  require (offerId <? N.of_nat (length (lenderOffers s))) "Invalid offer ID";;
  offer ← index (lenderOffers s) offerId;
  require (LenderOffer.isActive offer) "Offer is not active";;
  let requestId := LenderOffer.borrowerRequestId offer in
  request ← index (borrowerRequests s) requestId;
  require (BorrowerRequest.isActive request) "Borrower request is not active";;
  require (BorrowerRequest.borrower request =? msg_sender e) "Only borrower can accept offer";;
  require (msg_value e =? 0) "Do not send ETH directly";;
  let loan := Loan.mk (BorrowerRequest.borrower request) (LenderOffer.lender offer)
                (LenderOffer.amount offer) (LenderOffer.apr offer) (LenderOffer.term offer)
                (to_uint32 (block_timestamp e)) true false in
  modify (λ s, set_loans (loans s ++ [loan]) s);;
  s ← get;
  loanId ← checked_sub (N.of_nat (length (loans s))) 1;
  modify (λ s, set_borrowerRequests
    (alter deactivate_request (N.to_nat requestId) (borrowerRequests s)) s);;
  modify (λ s, set_lenderOffers
    (alter deactivate_offer (N.to_nat offerId) (lenderOffers s)) s);;
  s ← get;
  request ← index (borrowerRequests s) requestId;
  offer ← index (lenderOffers s) offerId;
  emit (LoanCreated loanId (BorrowerRequest.borrower request) (LenderOffer.lender offer)
          (LenderOffer.amount offer)).

Definition getBorrowerRequestsCount (e : Env) : M N :=
  s ← get; mret (N.of_nat (length (borrowerRequests s))).

Definition getLenderOffersCount (e : Env) : M N :=
  s ← get; mret (N.of_nat (length (lenderOffers s))).

Definition getLoansCount (e : Env) : M N :=
  s ← get; mret (N.of_nat (length (loans s))).

Definition getBorrowerRequest (e : Env) (requestId : N) : M (N * N * N * bool) :=
  s ← get;
  require (requestId <? N.of_nat (length (borrowerRequests s))) "Invalid request ID";;
  request ← index (borrowerRequests s) requestId;
  mret (BorrowerRequest.borrower request, BorrowerRequest.amount request,
        BorrowerRequest.term request, BorrowerRequest.isActive request).

Definition getLenderOffer (e : Env) (offerId : N) : M (N * N * N * N * N * bool) :=
  s ← get;
  require (offerId <? N.of_nat (length (lenderOffers s))) "Invalid offer ID";;
  offer ← index (lenderOffers s) offerId;
  mret (LenderOffer.lender offer, LenderOffer.borrowerRequestId offer,
        LenderOffer.amount offer, LenderOffer.apr offer, LenderOffer.term offer,
        LenderOffer.isActive offer).

Definition getLoan (e : Env) (loanId : N) : M (N * N * N * N * N * N * bool * bool) :=
  s ← get;
  require (loanId <? N.of_nat (length (loans s))) "Invalid loan ID";;
  loan ← index (loans s) loanId;
  mret (Loan.borrower loan, Loan.lender loan, Loan.amount loan, Loan.apr loan,
        Loan.term loan, Loan.startTime loan, Loan.isActive loan, Loan.isRepaid loan).

End CipherLending.

(** ** Calls, transactions and traces

    The external functions of the contract.  The getters the compiler
    generates for the public state variables only read the storage the
    functions below read, and are left out. *)

Inductive Call :=
| SubmitBorrowerRequest (encryptedScore amount term : N) (inputProof : list Byte.byte)
| FindMatches (minScore : N)
| CheckScoreMatch (requestId minScore : N)
| GetComparisonResult (requestId minScore caller : N)
| GetEncryptedScore (requestId : N)
| SubmitLenderOffer (borrowerRequestId amount apr term : N)
| AcceptLoanOffer (offerId : N)
| GetBorrowerRequestsCount
| GetLenderOffersCount
| GetLoansCount
| GetBorrowerRequest (requestId : N)
| GetLenderOffer (offerId : N)
| GetLoan (loanId : N).

(** What a call hands back to its caller: nothing for a function declared
    without [returns], otherwise the returned word, array or tuple of
    words (a [bool] as 0 or 1). *)
Inductive ReturnData :=
| RetNone
| RetWord (w : N)
| RetArray (ws : list N)
| RetTuple (ws : list N).

Definition word_of_bool (b : bool) : N := if b then 1 else 0.

(** Every function but [acceptLoanOffer] is non-payable: the compiled
    contract rejects a call to it that carries value, with no reason. *)
Definition nonpayable (e : Env) : M unit :=
  if msg_value e =? 0 then mret tt else revert EmptyString.

Section Dispatch.
Context {fhe : FHE.Library}.

Definition call (e : Env) (c : Call) : M ReturnData :=
  match c with
  | SubmitBorrowerRequest encryptedScore amount term inputProof =>
      nonpayable e;;
      submitBorrowerRequest e encryptedScore amount term inputProof;;
      mret RetNone
  | FindMatches minScore =>
      nonpayable e;; ids ← findMatches e minScore; mret (RetArray ids)
  | CheckScoreMatch requestId minScore =>
      nonpayable e;; h ← checkScoreMatch e requestId minScore; mret (RetWord h)
  | GetComparisonResult requestId minScore caller =>
      nonpayable e;; h ← getComparisonResult e requestId minScore caller; mret (RetWord h)
  | GetEncryptedScore requestId =>
      nonpayable e;; h ← getEncryptedScore e requestId; mret (RetWord h)
  | SubmitLenderOffer borrowerRequestId amount apr term =>
      nonpayable e;;
      submitLenderOffer e borrowerRequestId amount apr term;;
      mret RetNone
  | AcceptLoanOffer offerId =>
      acceptLoanOffer e offerId;; mret RetNone
  | GetBorrowerRequestsCount =>
      nonpayable e;; n ← getBorrowerRequestsCount e; mret (RetWord n)
  | GetLenderOffersCount =>
      nonpayable e;; n ← getLenderOffersCount e; mret (RetWord n)
  | GetLoansCount =>
      nonpayable e;; n ← getLoansCount e; mret (RetWord n)
  | GetBorrowerRequest requestId =>
      nonpayable e;;
      '(borrower, amount, term, isActive) ← getBorrowerRequest e requestId;
      mret (RetTuple [borrower; amount; term; word_of_bool isActive])
  | GetLenderOffer offerId =>
      nonpayable e;;
      '(lender, borrowerRequestId, amount, apr, term, isActive) ← getLenderOffer e offerId;
      mret (RetTuple [lender; borrowerRequestId; amount; apr; term; word_of_bool isActive])
  | GetLoan loanId =>
      nonpayable e;;
      '(borrower, lender, amount, apr, term, startTime, isActive, isRepaid) ← getLoan e loanId;
      mret (RetTuple [borrower; lender; amount; apr; term; startTime;
                      word_of_bool isActive; word_of_bool isRepaid])
  end.

(** One transaction. *)
Definition step (e : Env) (c : Call) (s : State) : State := commit (call e c) s.

(** A sequence of transactions, oldest first. *)
Definition run (tr : list (Env * Call)) (s : State) : State :=
  foldl (λ s ec, step ec.1 ec.2 s) s tr.

End Dispatch.

(** ** Failure modes

    The contract reverts with reason strings; the ledger's error names
    stand for them as follows. *)
Inductive ErrorKind :=
| InvalidAmount
| InvalidTerm
| InvalidApr
| InvalidRequest
| InactiveRequest
| InvalidOffer
| InactiveOffer
| NotAuthorized.

Definition error_kind (reason : string) : option ErrorKind :=
  if String.eqb reason "Amount must be greater than 0" then Some InvalidAmount
  else if String.eqb reason "Term must be between 1-120 months" then Some InvalidTerm
  else if String.eqb reason "APR must be between 1-10000 basis points" then Some InvalidApr
  else if String.eqb reason "Invalid request ID" then Some InvalidRequest
  else if String.eqb reason "Request is not active" then Some InactiveRequest
  else if String.eqb reason "Borrower request is not active" then Some InactiveRequest
  else if String.eqb reason "Invalid offer ID" then Some InvalidOffer
  else if String.eqb reason "Offer is not active" then Some InactiveOffer
  else if String.eqb reason "Only borrower can accept offer" then Some NotAuthorized
  else None.

Definition fails_with {A} (r : result A) (k : ErrorKind) : Prop :=
  match r with
  | Revert reason _ => error_kind reason = Some k
  | _ => False
  end.

(** The state in which a failed call stopped. *)
Definition stopped_at {A} (r : result A) : option State :=
  match r with
  | Ok _ _ => None
  | Revert _ s | Panic _ s | FHERevert s => Some s
  end.

Definition succeeds {A} (r : result A) : Prop :=
  match r with
  | Ok _ _ => True
  | _ => False
  end.

(** ** A simulated FHE library

    Handles carry their plaintext, as in the local simulation mode of the
    test suite: an input is accepted when its proof is not empty, and the
    comparison yields the handle 2 for true and 1 for false. *)
Definition mockFHE : FHE.Library := {|
  FHE.verify := λ _ _ handle proof, match proof with [] => None | _ => Some handle end;
  FHE.trivialEncrypt := λ v, v;
  FHE.fheGe := λ a b, if b <=? a then 2 else 1
|}.

(** ** States after a successful call

    The state each state-changing function leaves when it succeeds,
    written out field by field. *)

Definition request_submitted (e : Env) (score amount term : N) (s : State) : State :=
  mkState
    (borrowerRequests s ++ [BorrowerRequest.mk (msg_sender e) score amount term true])
    (lenderOffers s) (loans s) (nextLoanId s) (comparisonResults s)
    ({[ (score, msg_sender e) ]} ∪ ({[ (score, this e) ]} ∪ acl s))
    (logs s ++ [NewBorrowerRequest (N.of_nat (length (borrowerRequests s)))
                  (msg_sender e) amount]).

Definition offer_submitted (e : Env) (borrowerRequestId amount apr term : N)
    (s : State) : State :=
  mkState (borrowerRequests s)
    (lenderOffers s ++ [LenderOffer.mk (msg_sender e) borrowerRequestId amount apr term true])
    (loans s) (nextLoanId s) (comparisonResults s) (acl s)
    (logs s ++ [NewLenderOffer (N.of_nat (length (lenderOffers s))) borrowerRequestId
                  (msg_sender e) amount]).

Definition loan_of (e : Env) (request : BorrowerRequest.t) (offer : LenderOffer.t) : Loan.t :=
  Loan.mk (BorrowerRequest.borrower request) (LenderOffer.lender offer)
    (LenderOffer.amount offer) (LenderOffer.apr offer) (LenderOffer.term offer)
    (block_timestamp e mod 2 ^ 32) true false.

Definition offer_accepted (e : Env) (offerId : N) (request : BorrowerRequest.t)
    (offer : LenderOffer.t) (s : State) : State :=
  mkState
    (<[N.to_nat (LenderOffer.borrowerRequestId offer) := deactivate_request request]>
       (borrowerRequests s))
    (<[N.to_nat offerId := deactivate_offer offer]> (lenderOffers s))
    (loans s ++ [loan_of e request offer])
    (nextLoanId s) (comparisonResults s) (acl s)
    (logs s ++ [LoanCreated (N.of_nat (length (loans s))) (BorrowerRequest.borrower request)
                  (LenderOffer.lender offer) (LenderOffer.amount offer)]).

Definition score_checked (e : Env) (requestId minScore handle : N) (s : State) : State :=
  mkState (borrowerRequests s) (lenderOffers s) (loans s) (nextLoanId s)
    (<[(requestId, minScore, msg_sender e) := handle]> (comparisonResults s))
    ({[ (handle, msg_sender e) ]} ∪ ({[ (handle, this e) ]} ∪ acl s))
    (logs s).

Section Outcome.
Context {fhe : FHE.Library}.

(** What a successful call returns and the state it leaves. *)
Definition call_outcome (e : Env) (c : Call) (s : State) (ret : ReturnData)
    (s' : State) : Prop :=
  match c with
  | SubmitBorrowerRequest encryptedScore amount term inputProof =>
      ret = RetNone ∧
      ∃ score, FHE.verify (this e) (msg_sender e) encryptedScore inputProof = Some score
               ∧ s' = request_submitted e score amount term s
  | CheckScoreMatch requestId minScore =>
      ∃ handle, ret = RetWord handle ∧ s' = score_checked e requestId minScore handle s
  | SubmitLenderOffer borrowerRequestId amount apr term =>
      ret = RetNone ∧ s' = offer_submitted e borrowerRequestId amount apr term s
  | AcceptLoanOffer offerId =>
      ret = RetNone ∧
      ∃ offer request,
        lenderOffers s !! N.to_nat offerId = Some offer
        ∧ borrowerRequests s !! N.to_nat (LenderOffer.borrowerRequestId offer) = Some request
        ∧ s' = offer_accepted e offerId request offer s
  | _ => s' = s
  end.

End Outcome.

(** ** The active requests

    [active_ids reqs k] lists, in increasing order, the indices below [k] of
    the requests of [reqs] whose [isActive] flag is set. *)
Definition active_at (reqs : list BorrowerRequest.t) (i : nat) : bool :=
  match reqs !! i with
  | Some r => BorrowerRequest.isActive r
  | None => false
  end.

Definition active_ids (reqs : list BorrowerRequest.t) (k : nat) : list N :=
  N.of_nat <$> filter (λ i, active_at reqs i = true) (seq 0 k).

(** ** Traces and the comparison cache *)

(** A transaction addresses the cache entry [k] when it is a call of
    [checkScoreMatch] whose request, threshold and caller are those of
    [k]. *)
Definition writes_key (k : N * N * N) (ec : Env * Call) : Prop :=
  match ec.2 with
  | CheckScoreMatch requestId minScore => k = (requestId, minScore, msg_sender ec.1)
  | _ => False
  end.

Section Written.
Context {fhe : FHE.Library}.

(** The entry [k] is written in the course of the trace [tr] run from [s]
    when one of its transactions addresses [k] and succeeds. *)
Fixpoint written (k : N * N * N) (tr : list (Env * Call)) (s : State) : Prop :=
  match tr with
  | [] => False
  | ec :: tr' =>
      (writes_key k ec ∧ succeeds (call ec.1 ec.2 s)) ∨ written k tr' (step ec.1 ec.2 s)
  end.

End Written.

(** ** The scenario of the test suite

    Alice asks for 5000 over 12 months with the score 750; Bob offers
    5000 at 5% over 12 months; Carol makes a second offer on the same
    request. *)
Definition ledger : N := 4096.
Definition alice : N := 161.
Definition bob : N := 178.
Definition carol : N := 195.

Definition tx (sender : N) : Env := mkEnv ledger sender 0 1700000000.

Definition proof750 : list Byte.byte := [Byte.x02; Byte.xee].

Definition with_request : State :=
  step (fhe := mockFHE) (tx alice) (SubmitBorrowerRequest 750 5000 12 proof750) init.

Definition with_offer : State :=
  step (fhe := mockFHE) (tx bob) (SubmitLenderOffer 0 5000 500 12) with_request.

Definition with_two_offers : State :=
  step (fhe := mockFHE) (tx carol) (SubmitLenderOffer 0 4000 300 24) with_offer.

Definition with_loan : State :=
  step (fhe := mockFHE) (tx alice) (AcceptLoanOffer 0) with_two_offers.

(** A ledger with three requests of which the middle one has been closed. *)
Definition three_requests : State :=
  run (fhe := mockFHE)
    [(tx alice, SubmitBorrowerRequest 750 5000 12 proof750);
     (tx bob, SubmitBorrowerRequest 640 900 6 proof750);
     (tx carol, SubmitBorrowerRequest 810 70000 120 proof750);
     (tx alice, SubmitLenderOffer 1 900 450 6);
     (tx bob, AcceptLoanOffer 0)]
    init.

(** ** What a successful call establishes

    [call_outcome] with the checks the call has passed. *)
Section Success.
Context {fhe : FHE.Library}.

Definition call_success (e : Env) (c : Call) (s : State) (s' : State) : Prop :=
  match c with
  | SubmitBorrowerRequest encryptedScore amount term inputProof =>
      0 < amount ∧ 1 ≤ term ≤ 120
      ∧ ∃ score, FHE.verify (this e) (msg_sender e) encryptedScore inputProof = Some score
                 ∧ s' = request_submitted e score amount term s
  | CheckScoreMatch requestId minScore =>
      ∃ r, borrowerRequests s !! N.to_nat requestId = Some r
           ∧ BorrowerRequest.isActive r = true
           ∧ s' = score_checked e requestId minScore
                    (FHE.fheGe (BorrowerRequest.encryptedScore r) (FHE.trivialEncrypt minScore))
                    s
  | SubmitLenderOffer borrowerRequestId amount apr term =>
      0 < amount ∧ 1 ≤ apr ≤ 10000 ∧ 1 ≤ term ≤ 120
      ∧ ∃ r, borrowerRequests s !! N.to_nat borrowerRequestId = Some r
             ∧ BorrowerRequest.isActive r = true
             ∧ s' = offer_submitted e borrowerRequestId amount apr term s
  | AcceptLoanOffer offerId =>
      ∃ offer request,
        lenderOffers s !! N.to_nat offerId = Some offer
        ∧ LenderOffer.isActive offer = true
        ∧ borrowerRequests s !! N.to_nat (LenderOffer.borrowerRequestId offer) = Some request
        ∧ BorrowerRequest.isActive request = true
        ∧ BorrowerRequest.borrower request = msg_sender e
        ∧ s' = offer_accepted e offerId request offer s
  | _ => s' = s
  end.

End Success.

(** ** Counting and reading the ledger *)

Definition closed_requests (s : State) : nat :=
  length (filter (λ r, BorrowerRequest.isActive r = false) (borrowerRequests s)).

Definition closed_offers (s : State) : nat :=
  length (filter (λ o, LenderOffer.isActive o = false) (lenderOffers s)).

(** The events of one kind, with their fields. *)
Definition request_event (ev : Event) : option (N * N * N) :=
  match ev with
  | NewBorrowerRequest requestId borrower amount => Some (requestId, borrower, amount)
  | _ => None
  end.

Definition offer_event (ev : Event) : option (N * N * N * N) :=
  match ev with
  | NewLenderOffer offerId requestId lender amount => Some (offerId, requestId, lender, amount)
  | _ => None
  end.

Definition loan_event (ev : Event) : option (N * N * N * N) :=
  match ev with
  | LoanCreated loanId borrower lender amount => Some (loanId, borrower, lender, amount)
  | _ => None
  end.

Definition is_LoanRepaid (ev : Event) : bool :=
  match ev with
  | LoanRepaid _ _ => true
  | _ => false
  end.

(** Every offer refers to a request of the ledger. *)
Definition offers_resolve (s : State) : Prop :=
  ∀ i o, lenderOffers s !! i = Some o →
    is_Some (borrowerRequests s !! N.to_nat (LenderOffer.borrowerRequestId o)).

(** A call that succeeds, or that reverts (in the contract or in the FHE
    library) in the state it started from. *)
Definition clean_outcome {A} (s : State) (r : result A) : Prop :=
  succeeds r ∨ (∃ reason, r = Revert reason s) ∨ r = FHERevert s.

(** The fields of a request and of an offer that no function assigns
    after creation. *)
Definition request_terms (r : BorrowerRequest.t) : N * N * N * N :=
  (BorrowerRequest.borrower r, BorrowerRequest.encryptedScore r,
   BorrowerRequest.amount r, BorrowerRequest.term r).

Definition offer_terms (o : LenderOffer.t) : N * N * N * N * N :=
  (LenderOffer.lender o, LenderOffer.borrowerRequestId o, LenderOffer.amount o,
   LenderOffer.apr o, LenderOffer.term o).

(** The values every check of the contract lets through. *)
Definition request_in_range (r : BorrowerRequest.t) : Prop :=
  0 < BorrowerRequest.amount r ∧ 1 ≤ BorrowerRequest.term r ≤ 120.

Definition offer_in_range (o : LenderOffer.t) : Prop :=
  0 < LenderOffer.amount o ∧ 1 ≤ LenderOffer.apr o ≤ 10000 ∧ 1 ≤ LenderOffer.term o ≤ 120.

Definition loan_in_range (l : Loan.t) : Prop :=
  0 < Loan.amount l ∧ 1 ≤ Loan.apr l ≤ 10000 ∧ 1 ≤ Loan.term l ≤ 120
  ∧ Loan.startTime l < 2 ^ 32.

(** The loan [l] agrees with the closed offer [o] and the closed request
    [r] that offer refers to. *)
Definition loan_from (l : Loan.t) (o : LenderOffer.t) (r : BorrowerRequest.t) : Prop :=
  LenderOffer.isActive o = false
  ∧ BorrowerRequest.isActive r = false
  ∧ Loan.borrower l = BorrowerRequest.borrower r
  ∧ Loan.lender l = LenderOffer.lender o
  ∧ Loan.amount l = LenderOffer.amount o
  ∧ Loan.apr l = LenderOffer.apr o
  ∧ Loan.term l = LenderOffer.term o.

(** The events a ledger with these records has logged, kind by kind. *)
Definition request_log (s : State) : list (N * N * N) :=
  imap (λ i r, (N.of_nat i, BorrowerRequest.borrower r, BorrowerRequest.amount r))
    (borrowerRequests s).

Definition offer_log (s : State) : list (N * N * N * N) :=
  imap (λ i o, (N.of_nat i, LenderOffer.borrowerRequestId o, LenderOffer.lender o,
                LenderOffer.amount o))
    (lenderOffers s).

Definition loan_log (s : State) : list (N * N * N * N) :=
  imap (λ i l, (N.of_nat i, Loan.borrower l, Loan.lender l, Loan.amount l)) (loans s).

(** ** The client's view of the offers on a request

    [getOffersForRequest] of the front end's contract hook.  It reads the
    ledger through [publicClient.readContract], modelled as a function from
    a call to the value returned, or nothing when the read throws.  Without
    a client or a contract address it returns the empty list; so it does
    when the count cannot be read; an offer that cannot be read is skipped
    with a warning. *)
Module Client.

Record Offer := mkOffer {
  offerId : N;
  lender : N;
  borrowerRequestId : N;
  amount : N;
  apr : N;
  term : N;
  isActive : bool
}.

Definition Provider : Type := Call → option ReturnData.

(** A JavaScript string or [null] used as a condition. *)
Definition truthy (a : option string) : bool :=
  match a with
  | Some EmptyString | None => false
  | Some _ => true
  end.

(** One turn of the loop over the offer ids. *)
Definition collect (readContract : Provider) (requestId : N) (offers : list Offer)
    (i : N) : list Offer :=
  match readContract (GetLenderOffer i) with
  | Some (RetTuple [lender; borrowerRequestId; amount; apr; term; isActive]) =>
      if (borrowerRequestId =? requestId) && negb (isActive =? 0) then
        offers ++ [mkOffer i lender borrowerRequestId amount apr term (negb (isActive =? 0))]
      else offers
  | _ => offers
  end.

Definition getOffersForRequest (publicClient : option Provider)
    (contractAddress : option string) (requestId : N) : list Offer :=
  match publicClient with
  | Some readContract =>
      if truthy contractAddress then
        match readContract GetLenderOffersCount with
        | Some (RetWord totalOffers) =>
            foldl (collect readContract requestId) []
              (N.of_nat <$> seq 0 (N.to_nat totalOffers))
        | _ => []
        end
      else []
  | None => []
  end.

End Client.

Section Served.
Context {fhe : FHE.Library}.

(** A client whose reads are all answered by the contract in the state
    [s]: a call that reverts makes the read throw. *)
Definition served_by (e : Env) (s : State) : Client.Provider :=
  λ c, match call e c s with
       | Ok ret _ => Some ret
       | _ => None
       end.

End Served.

(** The offer [o] stored under the id [i], as the client holds it. *)
Definition offer_view (i : N) (o : LenderOffer.t) : Client.Offer :=
  Client.mkOffer i (LenderOffer.lender o) (LenderOffer.borrowerRequestId o)
    (LenderOffer.amount o) (LenderOffer.apr o) (LenderOffer.term o)
    (LenderOffer.isActive o).

(** The active offers on a request among the first [k] offers, by id. *)
Fixpoint active_offers_on (requestId : N) (offers : list LenderOffer.t) (k : nat)
    : list Client.Offer :=
  match k with
  | O => []
  | S k' =>
      active_offers_on requestId offers k' ++
      match offers !! k' with
      | Some o =>
          if (LenderOffer.borrowerRequestId o =? requestId) && LenderOffer.isActive o
          then [offer_view (N.of_nat k') o] else []
      | None => []
      end
  end.

(** ** Hexadecimal strings for the contract call

    The conversion [submitEncryptedBorrowerRequest] applies to the handle
    and to the input proof the encryption yields: a string gets the prefix
    [0x] unless it has it; a [Uint8Array] becomes [0x] followed by two
    lower-case hexadecimal digits for each byte; anything else is
    converted to a string first and then treated like one. *)
Module Hex.
Import Stdlib.Strings.Ascii.

Inductive Raw :=
| RawString (s : string)
| RawBytes (bytes : list Byte.byte)
| RawOther (shown : string).

Definition digit (d : N) : Ascii.ascii :=
  match d with
  | 0 => "0" | 1 => "1" | 2 => "2" | 3 => "3" | 4 => "4" | 5 => "5" | 6 => "6" | 7 => "7"
  | 8 => "8" | 9 => "9" | 10 => "a" | 11 => "b" | 12 => "c" | 13 => "d" | 14 => "e"
  | _ => "f"
  end%char.

(** [b.toString(16)] for a byte. *)
Definition toString16 (b : N) : string :=
  if b <? 16 then String (digit b) EmptyString
  else String (digit (b / 16)) (String (digit (b mod 16)) EmptyString).

(** [s.padStart(2, '0')]. *)
Definition padStart2 (s : string) : string :=
  match s with
  | EmptyString => "00"
  | String c EmptyString => String "0" (String c EmptyString)
  | _ => s
  end.

Definition byteHex (b : Byte.byte) : string :=
  padStart2 (toString16 (Stdlib.Strings.Byte.to_N b)).

(** [strings.join('')]. *)
Definition join (parts : list string) : string :=
  foldr String.append EmptyString parts.

Definition startsWith0x (s : string) : bool :=
  match s with
  | String "0" (String "x" _) => true
  | _ => false
  end.

Definition withPrefix (s : string) : string :=
  if startsWith0x s then s else String "0" (String "x" s).

Definition toHex (raw : Raw) : string :=
  match raw with
  | RawString s => withPrefix s
  | RawBytes bytes => String "0" (String "x" (join (byteHex <$> bytes)))
  | RawOther shown => withPrefix shown
  end.

(** Every byte, to search an encoding for its source. *)
Definition all_bytes : list Byte.byte :=
  omap Stdlib.Strings.Byte.of_N (N.of_nat <$> seq 0 256).

Definition unhex (s : string) : option Byte.byte :=
  find (λ b, String.eqb (byteHex b) s) all_bytes.

End Hex.

(** ** Proof support *)

Lemma ltb_length_lookup_None {A} (l : list A) (i : N) :
  (i <? N.of_nat (length l)) = false ↔ l !! N.to_nat i = None.
Proof. rewrite N.ltb_ge, lookup_ge_None. lia. Qed.

Lemma ltb_length_of_lookup {A} (l : list A) (i : N) (x : A) :
  l !! N.to_nat i = Some x → (i <? N.of_nat (length l)) = true.
Proof. intros Hx. apply lookup_lt_Some in Hx. apply N.ltb_lt. lia. Qed.

Lemma term_check_true (term : N) :
  ((0 <? term) && (term <=? 120)) = true ↔ 1 ≤ term ≤ 120.
Proof. rewrite andb_true_iff, N.ltb_lt, N.leb_le. lia. Qed.

Lemma apr_check_true (apr : N) :
  ((0 <? apr) && (apr <=? 10000)) = true ↔ 1 ≤ apr ≤ 10000.
Proof. rewrite andb_true_iff, N.ltb_lt, N.leb_le. lia. Qed.

Lemma length_snoc_sub1 {A} (l : list A) (x : A) :
  N.of_nat (length (l ++ [x])) - 1 = N.of_nat (length l).
Proof. rewrite length_app. simpl. lia. Qed.

Lemma one_leb_length_snoc {A} (l : list A) (x : A) :
  (1 <=? N.of_nat (length (l ++ [x]))) = true.
Proof. apply N.leb_le. rewrite length_app. simpl. lia. Qed.

Lemma lookup_snoc_new {A} (l : list A) (x : A) :
  (l ++ [x]) !! N.to_nat (N.of_nat (length l)) = Some x.
Proof. rewrite Nat2N.id. apply list_lookup_middle. reflexivity. Qed.

Lemma alter_lookup_insert {A} (f : A → A) (l : list A) (i : nat) (x : A) :
  l !! i = Some x → alter f i l = <[i := f x]> l.
Proof.
  revert i. induction l as [|y l IH]; intros [|i] Hx; simplify_eq/=; [done|].
  f_equal. by apply IH.
Qed.

Lemma mbind_Ok {A B} (m : M A) (k : A → M B) (s s' : State) (a : A) :
  m s = Ok a s' → (m ≫= k) s = k a s'.
Proof. intros Hm. unfold mbind, M_bind. by rewrite Hm. Qed.

Ltac sol_unfold :=
  unfold require, revert, panic, emit, checked_sub, index, mem_write, nonpayable,
    FHE.fromExternal, FHE.asEuint32, FHE.ge, FHE.allowThis, FHE.allow in *;
  unfold get, modify, mbind, M_bind, mret, M_ret in *.

(** Rewrite with the outcome of the test the call is stuck on, then run on. *)
Tactic Notation "sol_run" constr(H1) := rewrite H1; cbn.
Tactic Notation "sol_run" constr(H1) constr(H2) := sol_run H1; sol_run H2.
Tactic Notation "sol_run" constr(H1) constr(H2) constr(H3) := sol_run H1 H2; sol_run H3.
Tactic Notation "sol_run" constr(H1) constr(H2) constr(H3) constr(H4) :=
  sol_run H1 H2 H3; sol_run H4.
Tactic Notation "sol_run" constr(H1) constr(H2) constr(H3) constr(H4) constr(H5) :=
  sol_run H1 H2 H3 H4; sol_run H5.
Tactic Notation "sol_run" constr(H1) constr(H2) constr(H3) constr(H4) constr(H5) constr(H6) :=
  sol_run H1 H2 H3 H4 H5; sol_run H6.
Tactic Notation "sol_run" constr(H1) constr(H2) constr(H3) constr(H4) constr(H5) constr(H6)
    constr(H7) :=
  sol_run H1 H2 H3 H4 H5 H6; sol_run H7.

(** Case analysis on the next test a call makes. *)
Ltac sol_case :=
  match goal with
  | |- context [match ?l !! ?i with _ => _ end] => destruct (l !! i) eqn:?
  | |- context [if ?b then _ else _] => destruct b eqn:?
  | H : context [match ?l !! ?i with _ => _ end] |- _ => destruct (l !! i) eqn:?
  | H : context [if ?b then _ else _] |- _ => destruct b eqn:?
  end.

(** *** submitBorrowerRequest and getBorrowerRequest *)

Section SubmitBorrowerRequest.
Context {fhe : FHE.Library}.

Lemma submitBorrowerRequest_ok e s encryptedScore amount term inputProof score :
  0 < amount → 1 ≤ term ≤ 120 →
  FHE.verify (this e) (msg_sender e) encryptedScore inputProof = Some score →
  submitBorrowerRequest e encryptedScore amount term inputProof s =
    Ok tt (request_submitted e score amount term s).
Proof.
  intros Hamount Hterm Hverify.
  unfold submitBorrowerRequest, request_submitted. sol_unfold.
  apply N.ltb_lt in Hamount. apply term_check_true in Hterm.
  sol_run Hamount Hterm Hverify.
  rewrite one_leb_length_snoc. cbn. rewrite length_snoc_sub1. reflexivity.
Qed.

Lemma submitBorrowerRequest_zero_amount e s encryptedScore term inputProof :
  submitBorrowerRequest e encryptedScore 0 term inputProof s =
    Revert "Amount must be greater than 0" s.
Proof. reflexivity. Qed.

Lemma submitBorrowerRequest_bad_term e s encryptedScore amount term inputProof :
  0 < amount → ¬ (1 ≤ term ≤ 120) →
  submitBorrowerRequest e encryptedScore amount term inputProof s =
    Revert "Term must be between 1-120 months" s.
Proof.
  intros Hamount Hterm.
  unfold submitBorrowerRequest. sol_unfold.
  apply N.ltb_lt in Hamount. rewrite Hamount.
  destruct ((0 <? term) && (term <=? 120)) eqn:Hb; [|reflexivity].
  apply term_check_true in Hb. contradiction.
Qed.

Lemma submitBorrowerRequest_inv e s encryptedScore amount term inputProof v s' :
  submitBorrowerRequest e encryptedScore amount term inputProof s = Ok v s' →
  ∃ score, 0 < amount ∧ 1 ≤ term ≤ 120
    ∧ FHE.verify (this e) (msg_sender e) encryptedScore inputProof = Some score
    ∧ s' = request_submitted e score amount term s.
Proof.
  intros Hrun.
  destruct (N.eq_dec amount 0) as [->|Hamount]; [discriminate|].
  assert (0 < amount) as Hpos by lia.
  destruct (decide (1 ≤ term ≤ 120)) as [Hterm|Hterm];
    [|rewrite submitBorrowerRequest_bad_term in Hrun by done; discriminate].
  destruct (FHE.verify (this e) (msg_sender e) encryptedScore inputProof) as [score|] eqn:Hv.
  - rewrite (submitBorrowerRequest_ok _ _ _ _ _ _ score) in Hrun by done.
    exists score. by simplify_eq.
  - exfalso. revert Hrun. unfold submitBorrowerRequest. sol_unfold.
    apply N.ltb_lt in Hpos. apply term_check_true in Hterm.
    rewrite Hpos, Hterm, Hv. discriminate.
Qed.

End SubmitBorrowerRequest.

Lemma getBorrowerRequest_Some e s requestId r :
  borrowerRequests s !! N.to_nat requestId = Some r →
  getBorrowerRequest e requestId s =
    Ok (BorrowerRequest.borrower r, BorrowerRequest.amount r, BorrowerRequest.term r,
        BorrowerRequest.isActive r) s.
Proof.
  intros Hr. unfold getBorrowerRequest. sol_unfold.
  sol_run (ltb_length_of_lookup _ _ _ Hr) Hr. reflexivity.
Qed.

Lemma getBorrowerRequest_None e s requestId :
  borrowerRequests s !! N.to_nat requestId = None →
  getBorrowerRequest e requestId s = Revert "Invalid request ID" s.
Proof.
  intros Hr. unfold getBorrowerRequest. sol_unfold.
  apply ltb_length_lookup_None in Hr. rewrite Hr. reflexivity.
Qed.

(** *** submitLenderOffer *)

Lemma submitLenderOffer_ok e s borrowerRequestId amount apr term r :
  borrowerRequests s !! N.to_nat borrowerRequestId = Some r →
  BorrowerRequest.isActive r = true →
  0 < amount → 1 ≤ apr ≤ 10000 → 1 ≤ term ≤ 120 →
  submitLenderOffer e borrowerRequestId amount apr term s =
    Ok tt (offer_submitted e borrowerRequestId amount apr term s).
Proof.
  intros Hr Hactive Hamount Hapr Hterm.
  unfold submitLenderOffer, offer_submitted. sol_unfold.
  apply N.ltb_lt in Hamount. apply apr_check_true in Hapr. apply term_check_true in Hterm.
  sol_run (ltb_length_of_lookup _ _ _ Hr) Hr Hactive Hamount Hapr Hterm.
  rewrite one_leb_length_snoc. cbn. rewrite length_snoc_sub1. reflexivity.
Qed.

Lemma submitLenderOffer_invalid_request e s borrowerRequestId amount apr term :
  borrowerRequests s !! N.to_nat borrowerRequestId = None →
  submitLenderOffer e borrowerRequestId amount apr term s = Revert "Invalid request ID" s.
Proof.
  intros Hr. unfold submitLenderOffer. sol_unfold.
  apply ltb_length_lookup_None in Hr. rewrite Hr. reflexivity.
Qed.

Lemma submitLenderOffer_inactive_request e s borrowerRequestId amount apr term r :
  borrowerRequests s !! N.to_nat borrowerRequestId = Some r →
  BorrowerRequest.isActive r = false →
  submitLenderOffer e borrowerRequestId amount apr term s = Revert "Request is not active" s.
Proof.
  intros Hr Hactive. unfold submitLenderOffer. sol_unfold.
  sol_run (ltb_length_of_lookup _ _ _ Hr) Hr Hactive.
  reflexivity.
Qed.

Lemma submitLenderOffer_zero_amount e s borrowerRequestId apr term r :
  borrowerRequests s !! N.to_nat borrowerRequestId = Some r →
  BorrowerRequest.isActive r = true →
  submitLenderOffer e borrowerRequestId 0 apr term s = Revert "Amount must be greater than 0" s.
Proof.
  intros Hr Hactive. unfold submitLenderOffer. sol_unfold.
  sol_run (ltb_length_of_lookup _ _ _ Hr) Hr Hactive.
  reflexivity.
Qed.

Lemma submitLenderOffer_bad_apr e s borrowerRequestId amount apr term r :
  borrowerRequests s !! N.to_nat borrowerRequestId = Some r →
  BorrowerRequest.isActive r = true →
  0 < amount → ¬ (1 ≤ apr ≤ 10000) →
  submitLenderOffer e borrowerRequestId amount apr term s =
    Revert "APR must be between 1-10000 basis points" s.
Proof.
  intros Hr Hactive Hamount Hapr. unfold submitLenderOffer. sol_unfold.
  apply N.ltb_lt in Hamount.
  sol_run (ltb_length_of_lookup _ _ _ Hr) Hr Hactive Hamount.
  destruct ((0 <? apr) && (apr <=? 10000)) eqn:Hb; [|reflexivity].
  apply apr_check_true in Hb. contradiction.
Qed.

Lemma submitLenderOffer_bad_term e s borrowerRequestId amount apr term r :
  borrowerRequests s !! N.to_nat borrowerRequestId = Some r →
  BorrowerRequest.isActive r = true →
  0 < amount → 1 ≤ apr ≤ 10000 → ¬ (1 ≤ term ≤ 120) →
  submitLenderOffer e borrowerRequestId amount apr term s =
    Revert "Term must be between 1-120 months" s.
Proof.
  intros Hr Hactive Hamount Hapr Hterm. unfold submitLenderOffer. sol_unfold.
  apply N.ltb_lt in Hamount. apply apr_check_true in Hapr.
  sol_run (ltb_length_of_lookup _ _ _ Hr) Hr Hactive Hamount Hapr.
  destruct ((0 <? term) && (term <=? 120)) eqn:Hb; [|reflexivity].
  apply term_check_true in Hb. contradiction.
Qed.

Lemma submitLenderOffer_inv e s borrowerRequestId amount apr term v s' :
  submitLenderOffer e borrowerRequestId amount apr term s = Ok v s' →
  ∃ r, borrowerRequests s !! N.to_nat borrowerRequestId = Some r
    ∧ BorrowerRequest.isActive r = true
    ∧ 0 < amount ∧ 1 ≤ apr ≤ 10000 ∧ 1 ≤ term ≤ 120
    ∧ s' = offer_submitted e borrowerRequestId amount apr term s.
Proof.
  intros Hrun.
  destruct (borrowerRequests s !! N.to_nat borrowerRequestId) as [r|] eqn:Hr;
    [|rewrite submitLenderOffer_invalid_request in Hrun by done; discriminate].
  destruct (BorrowerRequest.isActive r) eqn:Hactive;
    [|rewrite (submitLenderOffer_inactive_request _ _ _ _ _ _ r) in Hrun by done;
      discriminate].
  destruct (N.eq_dec amount 0) as [->|Hamount];
    [rewrite (submitLenderOffer_zero_amount _ _ _ _ _ r) in Hrun by done; discriminate|].
  assert (0 < amount) as Hpos by lia.
  destruct (decide (1 ≤ apr ≤ 10000)) as [Hapr|Hapr];
    [|rewrite (submitLenderOffer_bad_apr _ _ _ _ _ _ r) in Hrun by done; discriminate].
  destruct (decide (1 ≤ term ≤ 120)) as [Hterm|Hterm];
    [|rewrite (submitLenderOffer_bad_term _ _ _ _ _ _ r) in Hrun by done; discriminate].
  rewrite (submitLenderOffer_ok _ _ _ _ _ _ r) in Hrun by done.
  exists r. by simplify_eq.
Qed.

(** Whatever makes [submitLenderOffer] fail, it fails before writing. *)
Lemma submitLenderOffer_fails_clean e s borrowerRequestId amount apr term :
  ¬ succeeds (submitLenderOffer e borrowerRequestId amount apr term s) →
  stopped_at (submitLenderOffer e borrowerRequestId amount apr term s) = Some s.
Proof.
  intros Hfail.
  destruct (borrowerRequests s !! N.to_nat borrowerRequestId) as [r|] eqn:Hr;
    [|by rewrite submitLenderOffer_invalid_request].
  destruct (BorrowerRequest.isActive r) eqn:Hactive;
    [|by rewrite (submitLenderOffer_inactive_request _ _ _ _ _ _ r)].
  destruct (N.eq_dec amount 0) as [->|Hamount];
    [by rewrite (submitLenderOffer_zero_amount _ _ _ _ _ r)|].
  assert (0 < amount) as Hpos by lia.
  destruct (decide (1 ≤ apr ≤ 10000)) as [Hapr|Hapr];
    [|by rewrite (submitLenderOffer_bad_apr _ _ _ _ _ _ r)].
  destruct (decide (1 ≤ term ≤ 120)) as [Hterm|Hterm];
    [|by rewrite (submitLenderOffer_bad_term _ _ _ _ _ _ r)].
  exfalso. apply Hfail.
  by rewrite (submitLenderOffer_ok _ _ _ _ _ _ r).
Qed.

(** *** acceptLoanOffer *)

Lemma acceptLoanOffer_invalid_offer e s offerId :
  lenderOffers s !! N.to_nat offerId = None →
  acceptLoanOffer e offerId s = Revert "Invalid offer ID" s.
Proof.
  intros Ho. unfold acceptLoanOffer. sol_unfold.
  apply ltb_length_lookup_None in Ho. rewrite Ho. reflexivity.
Qed.

Lemma acceptLoanOffer_inactive_offer e s offerId offer :
  lenderOffers s !! N.to_nat offerId = Some offer →
  LenderOffer.isActive offer = false →
  acceptLoanOffer e offerId s = Revert "Offer is not active" s.
Proof.
  intros Ho Hactive. unfold acceptLoanOffer. sol_unfold.
  sol_run (ltb_length_of_lookup _ _ _ Ho) Ho Hactive.
  reflexivity.
Qed.

Lemma acceptLoanOffer_dangling_request e s offerId offer :
  lenderOffers s !! N.to_nat offerId = Some offer →
  LenderOffer.isActive offer = true →
  borrowerRequests s !! N.to_nat (LenderOffer.borrowerRequestId offer) = None →
  acceptLoanOffer e offerId s = Panic 50 s.
Proof.
  intros Ho Hactive Hr. unfold acceptLoanOffer. sol_unfold.
  sol_run (ltb_length_of_lookup _ _ _ Ho) Ho Hactive.
  sol_run Hr. reflexivity.
Qed.

Lemma acceptLoanOffer_inactive_request e s offerId offer request :
  lenderOffers s !! N.to_nat offerId = Some offer →
  LenderOffer.isActive offer = true →
  borrowerRequests s !! N.to_nat (LenderOffer.borrowerRequestId offer) = Some request →
  BorrowerRequest.isActive request = false →
  acceptLoanOffer e offerId s = Revert "Borrower request is not active" s.
Proof.
  intros Ho Hactive Hr Hractive. unfold acceptLoanOffer. sol_unfold.
  sol_run (ltb_length_of_lookup _ _ _ Ho) Ho Hactive Hr Hractive.
  reflexivity.
Qed.

Lemma acceptLoanOffer_not_borrower e s offerId offer request :
  lenderOffers s !! N.to_nat offerId = Some offer →
  LenderOffer.isActive offer = true →
  borrowerRequests s !! N.to_nat (LenderOffer.borrowerRequestId offer) = Some request →
  BorrowerRequest.isActive request = true →
  BorrowerRequest.borrower request ≠ msg_sender e →
  acceptLoanOffer e offerId s = Revert "Only borrower can accept offer" s.
Proof.
  intros Ho Hactive Hr Hractive Hsender. unfold acceptLoanOffer. sol_unfold.
  apply N.eqb_neq in Hsender.
  sol_run (ltb_length_of_lookup _ _ _ Ho) Ho Hactive Hr Hractive Hsender.
  reflexivity.
Qed.

Lemma acceptLoanOffer_value_attached e s offerId offer request :
  lenderOffers s !! N.to_nat offerId = Some offer →
  LenderOffer.isActive offer = true →
  borrowerRequests s !! N.to_nat (LenderOffer.borrowerRequestId offer) = Some request →
  BorrowerRequest.isActive request = true →
  BorrowerRequest.borrower request = msg_sender e →
  msg_value e ≠ 0 →
  acceptLoanOffer e offerId s = Revert "Do not send ETH directly" s.
Proof.
  intros Ho Hactive Hr Hractive Hsender Hvalue. unfold acceptLoanOffer. sol_unfold.
  apply N.eqb_eq in Hsender. apply N.eqb_neq in Hvalue.
  sol_run (ltb_length_of_lookup _ _ _ Ho) Ho Hactive Hr Hractive Hsender Hvalue.
  reflexivity.
Qed.

Lemma acceptLoanOffer_ok e s offerId offer request :
  lenderOffers s !! N.to_nat offerId = Some offer →
  LenderOffer.isActive offer = true →
  borrowerRequests s !! N.to_nat (LenderOffer.borrowerRequestId offer) = Some request →
  BorrowerRequest.isActive request = true →
  BorrowerRequest.borrower request = msg_sender e →
  msg_value e = 0 →
  acceptLoanOffer e offerId s = Ok tt (offer_accepted e offerId request offer s).
Proof.
  intros Ho Hactive Hr Hractive Hsender Hvalue.
  unfold acceptLoanOffer, offer_accepted, loan_of, to_uint32. sol_unfold.
  apply N.eqb_eq in Hsender. apply N.eqb_eq in Hvalue.
  sol_run (ltb_length_of_lookup _ _ _ Ho) Ho Hactive Hr Hractive Hsender Hvalue.
  rewrite one_leb_length_snoc. cbn. rewrite length_snoc_sub1.
  rewrite !list_lookup_alter_eq, Hr, Ho. cbn.
  rewrite (alter_lookup_insert _ _ _ _ Hr), (alter_lookup_insert _ _ _ _ Ho).
  reflexivity.
Qed.

Lemma acceptLoanOffer_inv e s offerId v s' :
  acceptLoanOffer e offerId s = Ok v s' →
  ∃ offer request,
    lenderOffers s !! N.to_nat offerId = Some offer
    ∧ LenderOffer.isActive offer = true
    ∧ borrowerRequests s !! N.to_nat (LenderOffer.borrowerRequestId offer) = Some request
    ∧ BorrowerRequest.isActive request = true
    ∧ BorrowerRequest.borrower request = msg_sender e
    ∧ msg_value e = 0
    ∧ s' = offer_accepted e offerId request offer s.
Proof.
  intros Hrun.
  destruct (lenderOffers s !! N.to_nat offerId) as [offer|] eqn:Ho;
    [|rewrite acceptLoanOffer_invalid_offer in Hrun by done; discriminate].
  destruct (LenderOffer.isActive offer) eqn:Hactive;
    [|rewrite (acceptLoanOffer_inactive_offer _ _ _ offer) in Hrun by done; discriminate].
  destruct (borrowerRequests s !! N.to_nat (LenderOffer.borrowerRequestId offer))
    as [request|] eqn:Hr;
    [|rewrite (acceptLoanOffer_dangling_request _ _ _ offer) in Hrun by done; discriminate].
  destruct (BorrowerRequest.isActive request) eqn:Hractive;
    [|rewrite (acceptLoanOffer_inactive_request _ _ _ offer request) in Hrun by done;
      discriminate].
  destruct (decide (BorrowerRequest.borrower request = msg_sender e)) as [Hsender|Hsender];
    [|rewrite (acceptLoanOffer_not_borrower _ _ _ offer request) in Hrun by done;
      discriminate].
  destruct (decide (msg_value e = 0)) as [Hvalue|Hvalue];
    [|rewrite (acceptLoanOffer_value_attached _ _ _ offer request) in Hrun by done;
      discriminate].
  rewrite (acceptLoanOffer_ok _ _ _ offer request) in Hrun by done.
  exists offer, request. by simplify_eq.
Qed.

(** Whatever makes [acceptLoanOffer] fail, it fails before writing. *)
Lemma acceptLoanOffer_fails_clean e s offerId :
  ¬ succeeds (acceptLoanOffer e offerId s) →
  stopped_at (acceptLoanOffer e offerId s) = Some s.
Proof.
  intros Hfail.
  destruct (lenderOffers s !! N.to_nat offerId) as [offer|] eqn:Ho;
    [|by rewrite acceptLoanOffer_invalid_offer].
  destruct (LenderOffer.isActive offer) eqn:Hactive;
    [|by rewrite (acceptLoanOffer_inactive_offer _ _ _ offer)].
  destruct (borrowerRequests s !! N.to_nat (LenderOffer.borrowerRequestId offer))
    as [request|] eqn:Hr;
    [|by rewrite (acceptLoanOffer_dangling_request _ _ _ offer)].
  destruct (BorrowerRequest.isActive request) eqn:Hractive;
    [|by rewrite (acceptLoanOffer_inactive_request _ _ _ offer request)].
  destruct (decide (BorrowerRequest.borrower request = msg_sender e)) as [Hsender|Hsender];
    [|by rewrite (acceptLoanOffer_not_borrower _ _ _ offer request)].
  destruct (decide (msg_value e = 0)) as [Hvalue|Hvalue];
    [|by rewrite (acceptLoanOffer_value_attached _ _ _ offer request)].
  exfalso. apply Hfail.
  by rewrite (acceptLoanOffer_ok _ _ _ offer request).
Qed.

Lemma commit_failed {A} (m : M A) (s : State) : ¬ succeeds (m s) → commit m s = s.
Proof. unfold commit, succeeds. destruct (m s); tauto. Qed.

(** *** checkScoreMatch and getComparisonResult *)

Section CheckScoreMatch.
Context {fhe : FHE.Library}.

Lemma checkScoreMatch_invalid_request e s requestId minScore :
  borrowerRequests s !! N.to_nat requestId = None →
  checkScoreMatch e requestId minScore s = Revert "Invalid request ID" s.
Proof.
  intros Hr. unfold checkScoreMatch. sol_unfold.
  apply ltb_length_lookup_None in Hr. rewrite Hr. reflexivity.
Qed.

Lemma checkScoreMatch_inactive_request e s requestId minScore r :
  borrowerRequests s !! N.to_nat requestId = Some r →
  BorrowerRequest.isActive r = false →
  checkScoreMatch e requestId minScore s = Revert "Request is not active" s.
Proof.
  intros Hr Hactive. unfold checkScoreMatch. sol_unfold.
  sol_run (ltb_length_of_lookup _ _ _ Hr) Hr Hactive.
  reflexivity.
Qed.

Lemma checkScoreMatch_ok e s requestId minScore r :
  borrowerRequests s !! N.to_nat requestId = Some r →
  BorrowerRequest.isActive r = true →
  let handle := FHE.fheGe (BorrowerRequest.encryptedScore r) (FHE.trivialEncrypt minScore) in
  checkScoreMatch e requestId minScore s =
    Ok handle (score_checked e requestId minScore handle s).
Proof.
  intros Hr Hactive. unfold checkScoreMatch, score_checked. sol_unfold.
  sol_run (ltb_length_of_lookup _ _ _ Hr) Hr Hactive.
  reflexivity.
Qed.

Lemma checkScoreMatch_inv e s requestId minScore v s' :
  checkScoreMatch e requestId minScore s = Ok v s' →
  ∃ r, borrowerRequests s !! N.to_nat requestId = Some r
    ∧ BorrowerRequest.isActive r = true
    ∧ v = FHE.fheGe (BorrowerRequest.encryptedScore r) (FHE.trivialEncrypt minScore)
    ∧ s' = score_checked e requestId minScore v s.
Proof.
  intros Hrun.
  destruct (borrowerRequests s !! N.to_nat requestId) as [r|] eqn:Hr;
    [|rewrite checkScoreMatch_invalid_request in Hrun by done; discriminate].
  destruct (BorrowerRequest.isActive r) eqn:Hactive;
    [|rewrite (checkScoreMatch_inactive_request _ _ _ _ r) in Hrun by done; discriminate].
  rewrite (checkScoreMatch_ok _ _ _ _ r) in Hrun by done.
  exists r. by simplify_eq.
Qed.

End CheckScoreMatch.

Lemma getComparisonResult_eq e s requestId minScore caller :
  getComparisonResult e requestId minScore caller s =
    Ok (default 0 (comparisonResults s !! (requestId, minScore, caller))) s.
Proof. reflexivity. Qed.

(** *** Loops *)

(** The rule for a [for] loop whose body neither fails nor changes the
    state: an invariant that holds on entry and is carried over by each
    iteration holds on exit. *)
Lemma for_each_seq_invariant {T} (P : nat → T → Prop) (body : N → T → M T)
    (s : State) (a n : nat) (acc : T) :
  P a acc →
  (∀ i acc, (a ≤ i < a + n)%nat → P i acc →
     ∃ acc', body (N.of_nat i) acc s = Ok acc' s ∧ P (S i) acc') →
  ∃ acc', for_each (seq a n) body acc s = Ok acc' s ∧ P (a + n)%nat acc'.
Proof.
  revert a acc. induction n as [|n IH]; intros a acc Hentry Hbody.
  - exists acc. rewrite Nat.add_0_r. done.
  - destruct (Hbody a acc) as (acc1 & Hrun & Hnext); [lia|done|].
    destruct (IH (S a) acc1) as (acc2 & Hrest & Hexit); [done| |].
    + intros i acc' Hi. apply Hbody. lia.
    + exists acc2. split; [|by replace (a + S n)%nat with (S a + n)%nat by lia].
      cbn [seq for_each]. unfold mbind, M_bind. by rewrite Hrun.
Qed.

Lemma for_range_invariant {T} (P : nat → T → Prop) (body : N → T → M T)
    (s : State) (n : nat) (acc : T) :
  P 0%nat acc →
  (∀ i acc, (i < n)%nat → P i acc →
     ∃ acc', body (N.of_nat i) acc s = Ok acc' s ∧ P (S i) acc') →
  ∃ acc', for_range (N.of_nat n) body acc s = Ok acc' s ∧ P n acc'.
Proof.
  intros Hentry Hbody. unfold for_range. rewrite Nat2N.id.
  apply (for_each_seq_invariant P body s 0 n acc Hentry).
  intros i acc' Hi. apply Hbody. lia.
Qed.

(** *** findMatches *)

Lemma active_ids_S_active reqs k :
  active_at reqs k = true → active_ids reqs (S k) = active_ids reqs k ++ [N.of_nat k].
Proof.
  intros Hk. unfold active_ids.
  rewrite seq_S, filter_app, fmap_app. cbn [Nat.add].
  by rewrite filter_cons_True by done.
Qed.

Lemma active_ids_S_inactive reqs k :
  active_at reqs k = false → active_ids reqs (S k) = active_ids reqs k.
Proof.
  intros Hk. unfold active_ids.
  rewrite seq_S, filter_app, fmap_app. cbn [Nat.add].
  rewrite filter_cons_False by (rewrite Hk; done).
  by rewrite filter_nil, app_nil_r.
Qed.

Lemma length_active_ids reqs k : (length (active_ids reqs k) ≤ k)%nat.
Proof.
  unfold active_ids. rewrite length_fmap.
  etrans; [apply length_filter|]. by rewrite length_seq.
Qed.

Lemma elem_of_active_ids reqs k (i : N) :
  i ∈ active_ids reqs k ↔
    (N.to_nat i < k)%nat
    ∧ ∃ r, reqs !! N.to_nat i = Some r ∧ BorrowerRequest.isActive r = true.
Proof.
  unfold active_ids. rewrite list_elem_of_fmap. split.
  - intros (j & -> & Hj). apply list_elem_of_filter in Hj as [Hact Hj].
    apply elem_of_seq in Hj. rewrite Nat2N.id. split; [lia|].
    unfold active_at in Hact. destruct (reqs !! j) as [r|]; [eauto|done].
  - intros (Hlt & r & Hr & Hact). exists (N.to_nat i). split; [lia|].
    apply list_elem_of_filter. split; [|apply elem_of_seq; lia].
    unfold active_at. by rewrite Hr.
Qed.

Lemma active_ids_sorted reqs k : StronglySorted N.lt (active_ids reqs k).
Proof.
  induction k as [|k IH]; [constructor|].
  destruct (active_at reqs k) eqn:Hk.
  - rewrite active_ids_S_active by done.
    apply StronglySorted_app_2; [|done|repeat constructor].
    intros x y Hx Hy. apply list_elem_of_singleton in Hy as ->.
    apply elem_of_active_ids in Hx as [Hx _]. lia.
  - by rewrite active_ids_S_inactive.
Qed.

Lemma findMatches_eq e s _minScore :
  findMatches e _minScore s =
    Ok (active_ids (borrowerRequests s) (length (borrowerRequests s))) s.
Proof.
  set (reqs := borrowerRequests s). set (n := length reqs).
  unfold findMatches. unfold get, mbind at 1, M_bind at 1. fold reqs. fold n.
  rewrite Nat2N.id.
  (* first loop: collect the active indices at the front of tempMatches *)
  match goal with |- context [for_range _ ?body ?acc0] =>
    destruct (for_range_invariant
      (λ k (acc : list N * N),
         acc.1 = active_ids reqs k ++ replicate (n - length (active_ids reqs k)) 0
         ∧ acc.2 = N.of_nat (length (active_ids reqs k)))
      body s n acc0) as ([tempMatches matchCount] & Hscan & Htemp & Hcount)
  end.
  { cbn. rewrite Nat.sub_0_r. done. }
  { intros i [tm mc] Hi [Htm Hmc]. cbn in Htm, Hmc. subst tm mc.
    destruct (lookup_lt_is_Some_2 reqs i) as [r Hr]; [done|].
    pose proof (length_active_ids reqs i) as Hlen.
    sol_unfold. rewrite Nat2N.id, Hr.
    destruct (BorrowerRequest.isActive r) eqn:Hactive.
    - assert (active_at reqs i = true) as Hat by (unfold active_at; by rewrite Hr).
      rewrite length_app, length_replicate.
      replace (N.of_nat (length (active_ids reqs i)) <?
               N.of_nat (length (active_ids reqs i) + (n - length (active_ids reqs i))))
        with true by (symmetry; apply N.ltb_lt; lia).
      eexists. split; [reflexivity|]. cbn [fst snd].
      rewrite active_ids_S_active by done.
      rewrite length_app. cbn [length]. split; [|lia].
      rewrite Nat2N.id.
      replace (n - length (active_ids reqs i))%nat
        with (S (n - (length (active_ids reqs i) + 1)))%nat by lia.
      rewrite replicate_S.
      rewrite <-(Nat.add_0_r (length (active_ids reqs i))) at 1.
      rewrite insert_app_r. cbn. by rewrite <-app_assoc.
    - assert (active_at reqs i = false) as Hat by (unfold active_at; by rewrite Hr).
      eexists. split; [reflexivity|]. cbn [fst snd].
      by rewrite active_ids_S_inactive. }
  rewrite (mbind_Ok _ _ _ _ _ Hscan). cbn in Htemp, Hcount. subst tempMatches matchCount.
  set (ids := active_ids reqs n). set (tempMatches := ids ++ _).
  rewrite Nat2N.id.
  (* second loop: copy the collected prefix *)
  match goal with |- context [for_range _ ?body ?acc0] =>
    destruct (for_range_invariant
      (λ j (out : list N),
         out = take j tempMatches ++ replicate (length ids - j) 0)
      body s (length ids) acc0) as (out & Hcopy & Hout)
  end.
  { by rewrite Nat.sub_0_r. }
  { intros j out Hj ->.
    assert (j < length tempMatches)%nat as Hjt.
    { unfold tempMatches. rewrite length_app. lia. }
    destruct (lookup_lt_is_Some_2 tempMatches j) as [v Hv]; [done|].
    sol_unfold. rewrite Nat2N.id, Hv.
    rewrite length_app, length_take, length_replicate.
    replace (N.of_nat j <? N.of_nat (j `min` length tempMatches + (length ids - j)))
      with true by (symmetry; apply N.ltb_lt; lia).
    eexists. split; [reflexivity|].
    rewrite (take_S_r _ _ _ Hv).
    replace (length ids - j)%nat with (S (length ids - S j))%nat by lia.
    rewrite replicate_S.
    rewrite insert_app_r_alt by (rewrite length_take; lia).
    rewrite length_take. replace (j - j `min` length tempMatches)%nat with 0%nat by lia.
    cbn. by rewrite <-app_assoc. }
  rewrite (mbind_Ok _ _ _ _ _ Hcopy). subst out. unfold mret, M_ret. rewrite Nat.sub_diag. cbn [replicate].
  rewrite app_nil_r. unfold tempMatches. by rewrite take_app_length.
Qed.

(** *** Calls as transactions *)

Lemma mbind_inv {A B} (m : M A) (k : A → M B) (s s'' : State) (b : B) :
  (m ≫= k) s = Ok b s'' → ∃ a s', m s = Ok a s' ∧ k a s' = Ok b s''.
Proof.
  unfold mbind, M_bind. destruct (m s) as [a s'|? ?|? ?|?] eqn:Hm; [eauto|done..].
Qed.

Lemma nonpayable_inv e s v s' : nonpayable e s = Ok v s' → msg_value e = 0 ∧ s' = s.
Proof.
  unfold nonpayable. destruct (msg_value e =? 0) eqn:Hv; [|done].
  apply N.eqb_eq in Hv. unfold mret, M_ret. intros. by simplify_eq.
Qed.

(** The read-only functions return the state they were given. *)
Ltac view_function :=
  intros; sol_unfold;
  repeat (sol_case; try discriminate);
  repeat match goal with H : Ok _ _ = Ok _ _ |- _ => injection H as ?; subst end;
  try congruence.

Lemma getEncryptedScore_view e requestId s v s' :
  getEncryptedScore e requestId s = Ok v s' → s' = s.
Proof. unfold getEncryptedScore. view_function. Qed.

Lemma getBorrowerRequest_view e requestId s v s' :
  getBorrowerRequest e requestId s = Ok v s' → s' = s.
Proof. unfold getBorrowerRequest. view_function. Qed.

Lemma getLenderOffer_view e offerId s v s' :
  getLenderOffer e offerId s = Ok v s' → s' = s.
Proof. unfold getLenderOffer. view_function. Qed.

Lemma getLoan_view e loanId s v s' :
  getLoan e loanId s = Ok v s' → s' = s.
Proof. unfold getLoan. view_function. Qed.

Section Transactions.
Context {fhe : FHE.Library}.

Lemma call_inv e c s ret s' : call e c s = Ok ret s' → call_outcome e c s ret s'.
Proof.
  intros Hcall. destruct c; cbn [call call_outcome] in *;
    repeat match goal with
    | H : (_ ≫= _) _ = Ok _ _ |- _ =>
        apply mbind_inv in H as (? & ? & ? & ?)
    | H : nonpayable _ _ = Ok _ _ |- _ => apply nonpayable_inv in H as [? ->]
    | H : mret _ _ = Ok _ _ |- _ => unfold mret, M_ret in H; injection H as ? ?; subst
    end.
  - match goal with H : submitBorrowerRequest _ _ _ _ _ _ = _ |- _ =>
      apply submitBorrowerRequest_inv in H as (score & _ & _ & ? & ->) end.
    eauto.
  - match goal with H : findMatches _ _ _ = _ |- _ =>
      rewrite findMatches_eq in H; by injection H as ? ? end.
  - match goal with H : checkScoreMatch _ _ _ _ = _ |- _ =>
      apply checkScoreMatch_inv in H as (r & _ & _ & _ & ->) end.
    eauto.
  - match goal with H : getComparisonResult _ _ _ _ _ = _ |- _ =>
      rewrite getComparisonResult_eq in H; by injection H as ? ? end.
  - match goal with H : getEncryptedScore _ _ _ = _ |- _ =>
      by apply getEncryptedScore_view in H end.
  - match goal with H : submitLenderOffer _ _ _ _ _ _ = _ |- _ =>
      apply submitLenderOffer_inv in H as (r & _ & _ & _ & _ & _ & ->) end.
    done.
  - match goal with H : acceptLoanOffer _ _ _ = _ |- _ =>
      apply acceptLoanOffer_inv in H as (offer & request & ? & _ & ? & _ & _ & _ & ->) end.
    eauto 10.
  - match goal with H : getBorrowerRequestsCount _ _ = _ |- _ => by injection H as ? ? end.
  - match goal with H : getLenderOffersCount _ _ = _ |- _ => by injection H as ? ? end.
  - match goal with H : getLoansCount _ _ = _ |- _ => by injection H as ? ? end.
  - match goal with H : getBorrowerRequest _ _ _ = Ok ?v _ |- _ =>
      destruct v as [[[??]?]?]; apply getBorrowerRequest_view in H as -> end.
    by match goal with H : mret _ _ = _ |- _ => injection H as ? ? end.
  - match goal with H : getLenderOffer _ _ _ = Ok ?v _ |- _ =>
      destruct v as [[[[[??]?]?]?]?]; apply getLenderOffer_view in H as -> end.
    by match goal with H : mret _ _ = _ |- _ => injection H as ? ? end.
  - match goal with H : getLoan _ _ _ = Ok ?v _ |- _ =>
      destruct v as [[[[[[[??]?]?]?]?]?]?]; apply getLoan_view in H as -> end.
    by match goal with H : mret _ _ = _ |- _ => injection H as ? ? end.
Qed.

Lemma step_cases e c s :
  step e c s = s ∨ ∃ ret, call_outcome e c s ret (step e c s).
Proof.
  unfold step, commit. destruct (call e c s) as [ret s'|? ?|? ?|?] eqn:Hcall; auto.
  right. exists ret. by apply call_inv.
Qed.

End Transactions.

(** * Properties of the external functions *)

(** ** Submitting a borrower request *)

(** C5. [submitBorrowerRequest] fails with InvalidAmount unless the amount
    is positive and with InvalidTerm unless the term lies between 1 and
    120; with a positive amount, a term between 1 and 120 and an encrypted
    input the FHE library accepts, it succeeds.  Whenever it succeeds, the
    amount was positive and the term between 1 and 120, exactly one request
    was appended, with the caller as borrower, the given amount and term and
    [isActive = true], offers and loans are untouched, and
    [getBorrowerRequest] on the new id returns exactly that borrower,
    amount and term and [true]. *)
Theorem submitBorrowerRequest_spec {fhe : FHE.Library} (e : Env) (s : State)
    (encryptedScore amount term : N) (inputProof : list Byte.byte) :
  (amount = 0 →
     fails_with (submitBorrowerRequest e encryptedScore amount term inputProof s)
       InvalidAmount)
  ∧ (0 < amount → ¬ (1 ≤ term ≤ 120) →
     fails_with (submitBorrowerRequest e encryptedScore amount term inputProof s)
       InvalidTerm)
  ∧ (0 < amount → 1 ≤ term ≤ 120 →
     is_Some (FHE.verify (this e) (msg_sender e) encryptedScore inputProof) →
     succeeds (submitBorrowerRequest e encryptedScore amount term inputProof s))
  ∧ (∀ v s', submitBorrowerRequest e encryptedScore amount term inputProof s = Ok v s' →
       0 < amount ∧ 1 ≤ term ≤ 120
       ∧ ∃ score,
           FHE.verify (this e) (msg_sender e) encryptedScore inputProof = Some score
           ∧ borrowerRequests s' =
               borrowerRequests s ++
                 [BorrowerRequest.mk (msg_sender e) score amount term true]
           ∧ lenderOffers s' = lenderOffers s
           ∧ loans s' = loans s
           ∧ comparisonResults s' = comparisonResults s
           ∧ ∀ e', getBorrowerRequest e' (N.of_nat (length (borrowerRequests s))) s' =
                     Ok (msg_sender e, amount, term, true) s').
Proof.
  split; [|split; [|split]].
  - intros ->. by rewrite submitBorrowerRequest_zero_amount.
  - intros Hamount Hterm. by rewrite submitBorrowerRequest_bad_term.
  - intros Hamount Hterm [score Hverify].
    by rewrite (submitBorrowerRequest_ok _ _ _ _ _ _ score).
  - intros v s' Hrun.
    apply submitBorrowerRequest_inv in Hrun as (score & Hamount & Hterm & Hverify & ->).
    split; [done|]. split; [done|]. exists score. repeat split; [done|].
    intros e'.
    apply (getBorrowerRequest_Some e' _ _
             (BorrowerRequest.mk (msg_sender e) score amount term true)).
    cbn. apply lookup_snoc_new.
Qed.

Lemma submitBorrowerRequest_spec_witness :
  fails_with (submitBorrowerRequest (fhe := mockFHE) (tx alice) 750 0 12 proof750 init)
    InvalidAmount
  ∧ fails_with (submitBorrowerRequest (fhe := mockFHE) (tx alice) 750 5000 0 proof750 init)
      InvalidTerm
  ∧ fails_with (submitBorrowerRequest (fhe := mockFHE) (tx alice) 750 5000 121 proof750 init)
      InvalidTerm
  ∧ succeeds (submitBorrowerRequest (fhe := mockFHE) (tx alice) 750 5000 1 proof750 init)
  ∧ succeeds (submitBorrowerRequest (fhe := mockFHE) (tx alice) 750 5000 120 proof750 init)
  ∧ getBorrowerRequest (tx bob) 0 with_request = Ok (alice, 5000, 12, true) with_request.
Proof.
  split; [|split; [|split; [|split; [|split]]]].
  - apply (submitBorrowerRequest_spec (fhe := mockFHE)). reflexivity.
  - apply (submitBorrowerRequest_spec (fhe := mockFHE)); lia.
  - apply (submitBorrowerRequest_spec (fhe := mockFHE)); lia.
  - apply (submitBorrowerRequest_spec (fhe := mockFHE)); [lia|lia|by eexists].
  - apply (submitBorrowerRequest_spec (fhe := mockFHE)); [lia|lia|by eexists].
  - destruct (proj2 (proj2 (proj2
      (submitBorrowerRequest_spec (fhe := mockFHE) (tx alice) init 750 5000 12 proof750)))
      tt with_request) as (_ & _ & score & _ & _ & _ & _ & _ & Hget);
      [vm_compute; reflexivity|].
    exact (Hget (tx bob)).
Defined.

(** ** Submitting a lender offer *)

(** C6. [submitLenderOffer] fails with InvalidRequest when the id indexes no
    request, with InactiveRequest when that request is closed, with
    InvalidAmount unless the amount is positive, with InvalidApr unless the
    rate lies between 1 and 10000 and with InvalidTerm unless the term lies
    between 1 and 120; a call that does not succeed stops before it has
    written anything and leaves the whole state as it was; a call that
    passes every check appends exactly one active
    offer on that request, with the caller as lender and the given amount,
    rate and term, and touches nothing else of the ledger. *)
Theorem submitLenderOffer_spec (e : Env) (s : State)
    (borrowerRequestId amount apr term : N) :
  (borrowerRequests s !! N.to_nat borrowerRequestId = None →
     fails_with (submitLenderOffer e borrowerRequestId amount apr term s) InvalidRequest)
  ∧ (∀ r, borrowerRequests s !! N.to_nat borrowerRequestId = Some r →
       (BorrowerRequest.isActive r = false →
          fails_with (submitLenderOffer e borrowerRequestId amount apr term s)
            InactiveRequest)
       ∧ (BorrowerRequest.isActive r = true → amount = 0 →
          fails_with (submitLenderOffer e borrowerRequestId amount apr term s)
            InvalidAmount)
       ∧ (BorrowerRequest.isActive r = true → 0 < amount → ¬ (1 ≤ apr ≤ 10000) →
          fails_with (submitLenderOffer e borrowerRequestId amount apr term s)
            InvalidApr)
       ∧ (BorrowerRequest.isActive r = true → 0 < amount → 1 ≤ apr ≤ 10000 →
          ¬ (1 ≤ term ≤ 120) →
          fails_with (submitLenderOffer e borrowerRequestId amount apr term s)
            InvalidTerm)
       ∧ (BorrowerRequest.isActive r = true → 0 < amount → 1 ≤ apr ≤ 10000 →
          1 ≤ term ≤ 120 →
          ∃ s', submitLenderOffer e borrowerRequestId amount apr term s = Ok tt s'
            ∧ lenderOffers s' =
                lenderOffers s ++
                  [LenderOffer.mk (msg_sender e) borrowerRequestId amount apr term true]
            ∧ borrowerRequests s' = borrowerRequests s
            ∧ loans s' = loans s
            ∧ comparisonResults s' = comparisonResults s
            ∧ acl s' = acl s))
  ∧ (¬ succeeds (submitLenderOffer e borrowerRequestId amount apr term s) →
       stopped_at (submitLenderOffer e borrowerRequestId amount apr term s) = Some s
       ∧ commit (submitLenderOffer e borrowerRequestId amount apr term) s = s).
Proof.
  split; [|split].
  - intros Hr. by rewrite submitLenderOffer_invalid_request.
  - intros r Hr. repeat split.
    + intros Hactive. by rewrite (submitLenderOffer_inactive_request _ _ _ _ _ _ r).
    + intros Hactive ->. by rewrite (submitLenderOffer_zero_amount _ _ _ _ _ r).
    + intros Hactive Hamount Hapr. by rewrite (submitLenderOffer_bad_apr _ _ _ _ _ _ r).
    + intros Hactive Hamount Hapr Hterm.
      by rewrite (submitLenderOffer_bad_term _ _ _ _ _ _ r).
    + intros Hactive Hamount Hapr Hterm.
      exists (offer_submitted e borrowerRequestId amount apr term s).
      split; [by apply (submitLenderOffer_ok _ _ _ _ _ _ r)|]. done.
  - intros Hfail. split; [by apply submitLenderOffer_fails_clean|by apply commit_failed].
Qed.

Lemma submitLenderOffer_spec_witness :
  fails_with (submitLenderOffer (tx bob) 7 5000 500 12 with_request) InvalidRequest
  ∧ fails_with (submitLenderOffer (tx bob) 0 5000 500 12 with_loan) InactiveRequest
  ∧ fails_with (submitLenderOffer (tx bob) 0 0 500 12 with_request) InvalidAmount
  ∧ fails_with (submitLenderOffer (tx bob) 0 5000 0 12 with_request) InvalidApr
  ∧ fails_with (submitLenderOffer (tx bob) 0 5000 10001 12 with_request) InvalidApr
  ∧ fails_with (submitLenderOffer (tx bob) 0 5000 500 121 with_request) InvalidTerm
  ∧ (stopped_at (submitLenderOffer (tx bob) 0 5000 10001 12 with_request) = Some with_request
     ∧ commit (submitLenderOffer (tx bob) 0 5000 10001 12) with_request = with_request)
  ∧ (∃ s', submitLenderOffer (tx bob) 0 5000 1 12 with_request = Ok tt s'
       ∧ lenderOffers s' = [LenderOffer.mk bob 0 5000 1 12 true])
  ∧ (∃ s', submitLenderOffer (tx bob) 0 5000 10000 12 with_request = Ok tt s'
       ∧ lenderOffers s' = [LenderOffer.mk bob 0 5000 10000 12 true]).
Proof.
  pose (r := BorrowerRequest.mk alice 750 5000 12 true).
  assert (borrowerRequests with_request !! N.to_nat 0 = Some r) as Hr by reflexivity.
  split.
  { apply (submitLenderOffer_spec (tx bob) with_request 7 5000 500 12). reflexivity. }
  split.
  { apply (proj1 (proj2 (submitLenderOffer_spec (tx bob) with_loan 0 5000 500 12))
             (BorrowerRequest.mk alice 750 5000 12 false)); reflexivity. }
  split.
  { apply (proj1 (proj2 (submitLenderOffer_spec (tx bob) with_request 0 0 500 12)) r Hr);
      reflexivity. }
  split.
  { apply (proj1 (proj2 (submitLenderOffer_spec (tx bob) with_request 0 5000 0 12)) r Hr);
      [reflexivity|lia|lia]. }
  split.
  { apply (proj1 (proj2 (submitLenderOffer_spec (tx bob) with_request 0 5000 10001 12)) r Hr);
      [reflexivity|lia|lia]. }
  split.
  { apply (proj1 (proj2 (submitLenderOffer_spec (tx bob) with_request 0 5000 500 121)) r Hr);
      [reflexivity|lia|lia|lia]. }
  split.
  { apply (proj2 (proj2 (submitLenderOffer_spec (tx bob) with_request 0 5000 10001 12))).
    intros []. }
  split.
  { destruct (proj1 (proj2 (submitLenderOffer_spec (tx bob) with_request 0 5000 1 12)) r Hr)
      as (_ & _ & _ & _ & Hok).
    destruct Hok as (s' & Hrun & Hoffers & _); [reflexivity|lia|lia|lia|].
    exists s'. split; [exact Hrun|exact Hoffers]. }
  destruct (proj1 (proj2 (submitLenderOffer_spec (tx bob) with_request 0 5000 10000 12)) r Hr)
    as (_ & _ & _ & _ & Hok).
  destruct Hok as (s' & Hrun & Hoffers & _); [reflexivity|lia|lia|lia|].
  exists s'. split; [exact Hrun|exact Hoffers].
Defined.

(** ** Accepting an offer *)

(** C1, as the contract implements it.  [acceptLoanOffer] fails with
    InvalidOffer when the id indexes no offer, with InactiveOffer when the
    offer is closed, with InactiveRequest when the request it refers to is
    closed and with NotAuthorized when the caller is not that request's
    borrower.  When these checks pass and the call carries no value, it
    appends exactly one loan whose borrower is the request's, whose lender,
    amount, rate and term are the offer's, whose start time is the block
    timestamp reduced modulo 2^32, active and not repaid, and in the same
    step clears [isActive] of that request and of that offer, leaving every
    other request and offer as it was. *)
Theorem acceptLoanOffer_spec (e : Env) (s : State) (offerId : N) :
  (lenderOffers s !! N.to_nat offerId = None →
     fails_with (acceptLoanOffer e offerId s) InvalidOffer)
  ∧ (∀ offer, lenderOffers s !! N.to_nat offerId = Some offer →
       (LenderOffer.isActive offer = false →
          fails_with (acceptLoanOffer e offerId s) InactiveOffer)
       ∧ (∀ request,
            LenderOffer.isActive offer = true →
            borrowerRequests s !! N.to_nat (LenderOffer.borrowerRequestId offer)
              = Some request →
            (BorrowerRequest.isActive request = false →
               fails_with (acceptLoanOffer e offerId s) InactiveRequest)
            ∧ (BorrowerRequest.isActive request = true →
               BorrowerRequest.borrower request ≠ msg_sender e →
               fails_with (acceptLoanOffer e offerId s) NotAuthorized)
            ∧ (BorrowerRequest.isActive request = true →
               BorrowerRequest.borrower request = msg_sender e →
               msg_value e = 0 →
               ∃ s', acceptLoanOffer e offerId s = Ok tt s'
                 ∧ loans s' =
                     loans s ++
                       [Loan.mk (BorrowerRequest.borrower request)
                          (LenderOffer.lender offer) (LenderOffer.amount offer)
                          (LenderOffer.apr offer) (LenderOffer.term offer)
                          (block_timestamp e mod 2 ^ 32) true false]
                 ∧ borrowerRequests s' =
                     <[N.to_nat (LenderOffer.borrowerRequestId offer) :=
                         deactivate_request request]> (borrowerRequests s)
                 ∧ lenderOffers s' =
                     <[N.to_nat offerId := deactivate_offer offer]> (lenderOffers s)
                 ∧ BorrowerRequest.isActive <$>
                     borrowerRequests s' !! N.to_nat (LenderOffer.borrowerRequestId offer)
                   = Some false
                 ∧ LenderOffer.isActive <$> lenderOffers s' !! N.to_nat offerId = Some false
                 ∧ comparisonResults s' = comparisonResults s
                 ∧ acl s' = acl s))).
Proof.
  split.
  - intros Ho. by rewrite acceptLoanOffer_invalid_offer.
  - intros offer Ho. split.
    + intros Hactive. by rewrite (acceptLoanOffer_inactive_offer _ _ _ offer).
    + intros request Hactive Hr. repeat split.
      * intros Hractive.
        by rewrite (acceptLoanOffer_inactive_request _ _ _ offer request).
      * intros Hractive Hsender.
        by rewrite (acceptLoanOffer_not_borrower _ _ _ offer request).
      * intros Hractive Hsender Hvalue.
        exists (offer_accepted e offerId request offer s).
        split; [by apply acceptLoanOffer_ok|].
        split; [done|]. split; [done|]. split; [done|]. cbn.
        rewrite !list_lookup_insert_eq by (by eapply lookup_lt_Some).
        done.
Qed.

Lemma acceptLoanOffer_spec_witness :
  fails_with (acceptLoanOffer (tx alice) 9 with_offer) InvalidOffer
  ∧ fails_with (acceptLoanOffer (tx alice) 0 with_loan) InactiveOffer
  ∧ fails_with (acceptLoanOffer (tx alice) 1 with_loan) InactiveRequest
  ∧ fails_with (acceptLoanOffer (tx bob) 0 with_offer) NotAuthorized
  ∧ (∃ s', acceptLoanOffer (tx alice) 0 with_offer = Ok tt s'
       ∧ loans s' = [Loan.mk alice bob 5000 500 12 1700000000 true false]
       ∧ borrowerRequests s' = [BorrowerRequest.mk alice 750 5000 12 false]
       ∧ lenderOffers s' = [LenderOffer.mk bob 0 5000 500 12 false]).
Proof.
  pose (r := BorrowerRequest.mk alice 750 5000 12 true).
  pose (o := LenderOffer.mk bob 0 5000 500 12 true).
  repeat apply conj.
  - apply (acceptLoanOffer_spec (tx alice) with_offer 9). reflexivity.
  - apply (proj2 (acceptLoanOffer_spec (tx alice) with_loan 0)
             (LenderOffer.mk bob 0 5000 500 12 false)); reflexivity.
  - apply (proj2 (proj2 (acceptLoanOffer_spec (tx alice) with_loan 1)
                    (LenderOffer.mk carol 0 4000 300 24 true) eq_refl)
             (BorrowerRequest.mk alice 750 5000 12 false)); reflexivity.
  - apply (proj2 (proj2 (acceptLoanOffer_spec (tx bob) with_offer 0) o eq_refl) r);
      [reflexivity|reflexivity|reflexivity|discriminate].
  - destruct (proj2 (proj2 (acceptLoanOffer_spec (tx alice) with_offer 0) o eq_refl) r)
      as (_ & _ & Hok); [reflexivity|reflexivity|].
    destruct Hok as (s' & Hrun & Hloans & Hreqs & Hoffers & _);
      [reflexivity|reflexivity|reflexivity|].
    exists s'. split; [exact Hrun|]. split; [exact Hloans|].
    split; [exact Hreqs|exact Hoffers].
Defined.

(** C1 as stated does not hold of the contract.  With every stated
    precondition in place, a call that carries value creates no loan; and
    a loan created at a block timestamp of [2^32 + 5] starts at 5. *)
Lemma acceptLoanOffer_as_stated_counterexample :
  (lenderOffers with_offer !! N.to_nat 0 = Some (LenderOffer.mk bob 0 5000 500 12 true)
   ∧ borrowerRequests with_offer !! N.to_nat 0 =
       Some (BorrowerRequest.mk alice 750 5000 12 true)
   ∧ acceptLoanOffer (mkEnv ledger alice 1 1700000000) 0 with_offer =
       Revert "Do not send ETH directly" with_offer
   ∧ loans (commit (acceptLoanOffer (mkEnv ledger alice 1 1700000000) 0) with_offer) = [])
  ∧ (∃ s', acceptLoanOffer (mkEnv ledger alice 0 (2 ^ 32 + 5)) 0 with_offer = Ok tt s'
       ∧ Loan.startTime <$> loans s' = [5]
       ∧ 5 ≠ block_timestamp (mkEnv ledger alice 0 (2 ^ 32 + 5))).
Proof.
  split.
  - repeat split.
  - eexists. split; [vm_compute; reflexivity|]. split; [reflexivity|discriminate].
Qed.

(** C9. A call of [acceptLoanOffer] that carries value never succeeds; it
    stops before it has written anything and commits nothing, so that no
    loan is created and no flag is cleared; when the offer and its request
    are active and the caller is the request's borrower, the reason given
    is the one of the value check. *)
Theorem acceptLoanOffer_rejects_value (e : Env) (s : State) (offerId : N) :
  msg_value e ≠ 0 →
  ¬ succeeds (acceptLoanOffer e offerId s)
  ∧ stopped_at (acceptLoanOffer e offerId s) = Some s
  ∧ commit (acceptLoanOffer e offerId) s = s
  ∧ (∀ offer request,
       lenderOffers s !! N.to_nat offerId = Some offer →
       LenderOffer.isActive offer = true →
       borrowerRequests s !! N.to_nat (LenderOffer.borrowerRequestId offer) = Some request →
       BorrowerRequest.isActive request = true →
       BorrowerRequest.borrower request = msg_sender e →
       acceptLoanOffer e offerId s = Revert "Do not send ETH directly" s).
Proof.
  intros Hvalue.
  assert (¬ succeeds (acceptLoanOffer e offerId s)) as Hfail.
  { unfold succeeds. destruct (acceptLoanOffer e offerId s) as [v s'|? ?|? ?|?] eqn:Hrun; [|tauto..].
    apply acceptLoanOffer_inv in Hrun as (? & ? & _ & _ & _ & _ & _ & Hzero & _).
    contradiction. }
  split; [exact Hfail|].
  split; [by apply acceptLoanOffer_fails_clean|].
  split; [by apply commit_failed|].
  intros offer request Ho Hactive Hr Hractive Hsender.
  by apply (acceptLoanOffer_value_attached _ _ _ offer request).
Qed.

Lemma acceptLoanOffer_rejects_value_witness :
  ¬ succeeds (acceptLoanOffer (mkEnv ledger alice 1 1700000000) 0 with_offer)
  ∧ stopped_at (acceptLoanOffer (mkEnv ledger alice 1 1700000000) 0 with_offer)
      = Some with_offer
  ∧ commit (acceptLoanOffer (mkEnv ledger alice 1 1700000000) 0) with_offer = with_offer
  ∧ acceptLoanOffer (mkEnv ledger alice 1 1700000000) 0 with_offer =
      Revert "Do not send ETH directly" with_offer.
Proof.
  destruct (acceptLoanOffer_rejects_value (mkEnv ledger alice 1 1700000000) with_offer 0)
    as (Hfail & Hclean & Hsame & Hreason); [discriminate|].
  split; [exact Hfail|]. split; [exact Hclean|]. split; [exact Hsame|].
  apply (Hreason (LenderOffer.mk bob 0 5000 500 12 true)
           (BorrowerRequest.mk alice 750 5000 12 true)); reflexivity.
Defined.

(** C2. Let [A] and [B] be distinct offers on the same request, [B] active,
    and let [acceptLoanOffer A] succeed.  Then the request is closed;
    offer [B] is exactly what it was, active flag included; one loan was
    added; and any later [acceptLoanOffer B], by whatever caller, fails with
    InactiveRequest before it has written anything and commits nothing, so
    that no second loan exists and [B] still stands unchanged. *)
Theorem sibling_offer_stays_active (e : Env) (s s1 : State) (A B : N)
    (offerA offerB : LenderOffer.t) :
  A ≠ B →
  lenderOffers s !! N.to_nat A = Some offerA →
  lenderOffers s !! N.to_nat B = Some offerB →
  LenderOffer.isActive offerB = true →
  LenderOffer.borrowerRequestId offerA = LenderOffer.borrowerRequestId offerB →
  acceptLoanOffer e A s = Ok tt s1 →
  (∃ r1, borrowerRequests s1 !! N.to_nat (LenderOffer.borrowerRequestId offerA) = Some r1
         ∧ BorrowerRequest.isActive r1 = false)
  ∧ lenderOffers s1 !! N.to_nat B = Some offerB
  ∧ length (loans s1) = S (length (loans s))
  ∧ ∀ e', fails_with (acceptLoanOffer e' B s1) InactiveRequest
          ∧ stopped_at (acceptLoanOffer e' B s1) = Some s1
          ∧ commit (acceptLoanOffer e' B) s1 = s1
          ∧ loans (commit (acceptLoanOffer e' B) s1) = loans s1
          ∧ lenderOffers (commit (acceptLoanOffer e' B) s1) !! N.to_nat B = Some offerB.
Proof.
  intros Hne HA HB HBactive Hsame Hrun.
  apply acceptLoanOffer_inv in Hrun
    as (offer & request & Ho & _ & Hr & _ & _ & _ & ->).
  rewrite HA in Ho. injection Ho as <-.
  assert (borrowerRequests (offer_accepted e A request offerA s)
            !! N.to_nat (LenderOffer.borrowerRequestId offerA)
          = Some (deactivate_request request)) as Hclosed.
  { cbn. apply list_lookup_insert_eq. by apply lookup_lt_Some in Hr. }
  assert (lenderOffers (offer_accepted e A request offerA s) !! N.to_nat B = Some offerB)
    as Hsibling.
  { cbn. rewrite list_lookup_insert_ne by lia. exact HB. }
  split; [by exists (deactivate_request request)|].
  split; [exact Hsibling|].
  split; [cbn; rewrite length_app; cbn; lia|].
  intros e'.
  assert (acceptLoanOffer e' B (offer_accepted e A request offerA s)
          = Revert "Borrower request is not active" (offer_accepted e A request offerA s))
    as Hfail.
  { apply (acceptLoanOffer_inactive_request _ _ _ offerB (deactivate_request request));
      [done|done| |done].
    by rewrite <-Hsame. }
  unfold commit. rewrite Hfail. done.
Qed.

Lemma sibling_offer_stays_active_witness :
  (∃ r1, borrowerRequests with_loan !! N.to_nat 0 = Some r1
         ∧ BorrowerRequest.isActive r1 = false)
  ∧ lenderOffers with_loan !! N.to_nat 1 = Some (LenderOffer.mk carol 0 4000 300 24 true)
  ∧ length (loans with_loan) = S (length (loans with_two_offers))
  ∧ ∀ e', fails_with (acceptLoanOffer e' 1 with_loan) InactiveRequest
          ∧ stopped_at (acceptLoanOffer e' 1 with_loan) = Some with_loan
          ∧ commit (acceptLoanOffer e' 1) with_loan = with_loan
          ∧ loans (commit (acceptLoanOffer e' 1) with_loan) = loans with_loan
          ∧ lenderOffers (commit (acceptLoanOffer e' 1) with_loan) !! N.to_nat 1
              = Some (LenderOffer.mk carol 0 4000 300 24 true).
Proof.
  apply (sibling_offer_stays_active (tx alice) with_two_offers with_loan 0 1
           (LenderOffer.mk bob 0 5000 500 12 true)
           (LenderOffer.mk carol 0 4000 300 24 true));
    [discriminate|reflexivity|reflexivity|reflexivity|reflexivity|
     vm_compute; reflexivity].
Defined.

(** C10. An offer is checked against its request for existence and
    activity only: on an active request, any caller and any positive
    amount, rate between 1 and 10000 and term between 1 and 120 give an
    offer, whatever the request's amount and term and whoever its borrower
    is; the borrower accepting that offer gets a loan with the offer's
    amount, rate and term. *)
Theorem offer_terms_not_cross_checked (e : Env) (s : State)
    (borrowerRequestId amount apr term : N) (r : BorrowerRequest.t) :
  borrowerRequests s !! N.to_nat borrowerRequestId = Some r →
  BorrowerRequest.isActive r = true →
  0 < amount → 1 ≤ apr ≤ 10000 → 1 ≤ term ≤ 120 →
  ∃ s1, submitLenderOffer e borrowerRequestId amount apr term s = Ok tt s1
    ∧ lenderOffers s1 !! length (lenderOffers s) =
        Some (LenderOffer.mk (msg_sender e) borrowerRequestId amount apr term true)
    ∧ ∀ e', msg_sender e' = BorrowerRequest.borrower r → msg_value e' = 0 →
        ∃ s2, acceptLoanOffer e' (N.of_nat (length (lenderOffers s))) s1 = Ok tt s2
          ∧ loans s2 =
              loans s ++
                [Loan.mk (BorrowerRequest.borrower r) (msg_sender e) amount apr term
                   (block_timestamp e' mod 2 ^ 32) true false].
Proof.
  intros Hr Hactive Hamount Hapr Hterm.
  exists (offer_submitted e borrowerRequestId amount apr term s).
  split; [by apply (submitLenderOffer_ok _ _ _ _ _ _ r)|].
  assert (lenderOffers (offer_submitted e borrowerRequestId amount apr term s)
            !! length (lenderOffers s)
          = Some (LenderOffer.mk (msg_sender e) borrowerRequestId amount apr term true))
    as Hnew by (cbn; by apply list_lookup_middle).
  split; [exact Hnew|].
  intros e' Hsender Hvalue.
  eexists. split.
  - apply (acceptLoanOffer_ok e' _ _
             (LenderOffer.mk (msg_sender e) borrowerRequestId amount apr term true) r);
      [by rewrite Nat2N.id|done|done|done|done|done].
  - reflexivity.
Qed.

(** The borrower herself offers 1 over 120 months at 100% on her own
    request for 5000 over 12 months, and accepts. *)
Lemma offer_terms_not_cross_checked_witness :
  ∃ s1, submitLenderOffer (tx alice) 0 1 10000 120 with_request = Ok tt s1
    ∧ lenderOffers s1 !! length (lenderOffers with_request) =
        Some (LenderOffer.mk alice 0 1 10000 120 true)
    ∧ ∀ e', msg_sender e' = alice → msg_value e' = 0 →
        ∃ s2, acceptLoanOffer e' (N.of_nat (length (lenderOffers with_request))) s1 = Ok tt s2
          ∧ loans s2 =
              loans with_request ++
                [Loan.mk alice alice 1 10000 120 (block_timestamp e' mod 2 ^ 32) true false].
Proof.
  apply (offer_terms_not_cross_checked (tx alice) with_request 0 1 10000 120
           (BorrowerRequest.mk alice 750 5000 12 true));
    [reflexivity|reflexivity|lia|lia|lia].
Defined.

(** ** Matching *)

(** C4. [findMatches] always succeeds, returns the state it was given, and
    its result holds an id exactly when that id indexes a request whose
    [isActive] is true, in strictly increasing order; the result is the
    same for every threshold and every caller. *)
Theorem findMatches_spec (e : Env) (s : State) (threshold : N) :
  ∃ ids, findMatches e threshold s = Ok ids s
    ∧ (∀ i, i ∈ ids ↔
         ∃ r, borrowerRequests s !! N.to_nat i = Some r
              ∧ BorrowerRequest.isActive r = true)
    ∧ (∀ i r, i ∈ ids → borrowerRequests s !! N.to_nat i = Some r →
         BorrowerRequest.isActive r ≠ false)
    ∧ StronglySorted N.lt ids
    ∧ (∀ e' threshold', findMatches e' threshold' s = Ok ids s)
    ∧ commit (findMatches e threshold) s = s.
Proof.
  exists (active_ids (borrowerRequests s) (length (borrowerRequests s))).
  assert (∀ i, i ∈ active_ids (borrowerRequests s) (length (borrowerRequests s)) ↔
            ∃ r, borrowerRequests s !! N.to_nat i = Some r
                 ∧ BorrowerRequest.isActive r = true) as Helem.
  { intros i. rewrite elem_of_active_ids. split; [tauto|].
    intros (r & Hr & Hactive). split; [by apply lookup_lt_Some in Hr|eauto]. }
  split; [apply findMatches_eq|].
  split; [exact Helem|]. split.
  { intros i r Hi Hr. apply Helem in Hi as (r' & Hr' & Hactive).
    rewrite Hr in Hr'. injection Hr' as <-. by rewrite Hactive. }
  split; [apply active_ids_sorted|].
  split; [intros e' threshold'; apply findMatches_eq|].
  unfold commit. by rewrite findMatches_eq.
Qed.

Lemma findMatches_spec_witness :
  ∃ ids, findMatches (tx bob) 700 with_two_offers = Ok ids with_two_offers
    ∧ (∀ i, i ∈ ids ↔
         ∃ r, borrowerRequests with_two_offers !! N.to_nat i = Some r
              ∧ BorrowerRequest.isActive r = true)
    ∧ (∀ i r, i ∈ ids → borrowerRequests with_two_offers !! N.to_nat i = Some r →
         BorrowerRequest.isActive r ≠ false)
    ∧ StronglySorted N.lt ids
    ∧ (∀ e' threshold', findMatches e' threshold' with_two_offers = Ok ids with_two_offers)
    ∧ commit (findMatches (tx bob) 700) with_two_offers = with_two_offers.
Proof. exact (findMatches_spec (tx bob) with_two_offers 700). Defined.

Section Cache.
Context {fhe : FHE.Library}.

Lemma step_cache (e : Env) (c : Call) (s : State) (k : N * N * N) :
  ¬ (writes_key k (e, c) ∧ succeeds (call e c s)) →
  comparisonResults (step e c s) !! k = comparisonResults s !! k.
Proof.
  intros Hk. unfold step, commit.
  destruct (call e c s) as [ret s'|? ?|? ?|?] eqn:Hcall; try done.
  assert (¬ writes_key k (e, c)) as Hkey by (intros Hw; by apply Hk).
  apply call_inv in Hcall.
  destruct c; cbn [call_outcome] in Hcall; try (by rewrite Hcall).
  - destruct Hcall as (_ & score & _ & ->). done.
  - destruct Hcall as (handle & _ & ->). cbn.
    apply lookup_insert_ne. intros <-. by apply Hkey.
  - destruct Hcall as (_ & ->). done.
  - destruct Hcall as (_ & offer & request & _ & _ & ->). done.
Qed.

Lemma run_cons (e : Env) (c : Call) (tr : list (Env * Call)) (s : State) :
  run ((e, c) :: tr) s = run tr (step e c s).
Proof. reflexivity. Qed.

Lemma run_cache (tr : list (Env * Call)) (s : State) (k : N * N * N) :
  ¬ written k tr s →
  comparisonResults (run tr s) !! k = comparisonResults s !! k.
Proof.
  revert s. induction tr as [|[e c] tr IH]; intros s Hnever; [done|].
  cbn [written fst snd] in Hnever.
  rewrite run_cons, IH by tauto. apply step_cache. tauto.
Qed.

(** C3. [checkScoreMatch] fails with InvalidRequest when the id indexes no
    request and with InactiveRequest when the request is closed.  Otherwise
    it returns the handle the FHE library computes for "stored score >=
    threshold", writes it to the cache at the key made of the request id,
    the threshold and the caller, leaving every other key as it was, adds
    the caller and the ledger to those allowed to decrypt the handle, and
    leaves requests, offers and loans alone; [getComparisonResult] at that
    key then returns this handle.  [getComparisonResult] never fails, and on
    a ledger in whose history no successful [checkScoreMatch] wrote a key it
    returns the zero handle for that key. *)
Theorem checkScoreMatch_spec (e : Env) (s : State) (requestId minScore : N) :
  (borrowerRequests s !! N.to_nat requestId = None →
     fails_with (checkScoreMatch e requestId minScore s) InvalidRequest)
  ∧ (∀ r, borrowerRequests s !! N.to_nat requestId = Some r →
       (BorrowerRequest.isActive r = false →
          fails_with (checkScoreMatch e requestId minScore s) InactiveRequest)
       ∧ (BorrowerRequest.isActive r = true →
          let handle :=
            FHE.fheGe (BorrowerRequest.encryptedScore r) (FHE.trivialEncrypt minScore) in
          ∃ s', checkScoreMatch e requestId minScore s = Ok handle s'
            ∧ comparisonResults s' =
                <[(requestId, minScore, msg_sender e) := handle]> (comparisonResults s)
            ∧ (∀ k, k ≠ (requestId, minScore, msg_sender e) →
                 comparisonResults s' !! k = comparisonResults s !! k)
            ∧ (handle, msg_sender e) ∈ acl s'
            ∧ (handle, this e) ∈ acl s'
            ∧ acl s ⊆ acl s'
            ∧ borrowerRequests s' = borrowerRequests s
            ∧ lenderOffers s' = lenderOffers s
            ∧ loans s' = loans s
            ∧ ∀ e', getComparisonResult e' requestId minScore (msg_sender e) s' =
                      Ok handle s'))
  ∧ (∀ e' requestId' minScore' caller,
       getComparisonResult e' requestId' minScore' caller s =
         Ok (default 0 (comparisonResults s !! (requestId', minScore', caller))) s)
  ∧ (∀ tr e' requestId' minScore' caller,
       ¬ written (requestId', minScore', caller) tr init →
       getComparisonResult e' requestId' minScore' caller (run tr init) =
         Ok 0 (run tr init)).
Proof.
  split; [|split; [|split]].
  - intros Hr. by rewrite checkScoreMatch_invalid_request.
  - intros r Hr. split.
    + intros Hactive. by rewrite (checkScoreMatch_inactive_request _ _ _ _ r).
    + intros Hactive handle.
      exists (score_checked e requestId minScore handle s).
      split; [by apply checkScoreMatch_ok|].
      split; [done|]. split.
      { intros k Hk. cbn. by apply lookup_insert_ne. }
      split; [cbn; set_solver|]. split; [cbn; set_solver|].
      split; [cbn; set_solver|]. repeat split.
      intros e'. rewrite getComparisonResult_eq. cbn.
      by rewrite lookup_insert_eq.
  - intros. apply getComparisonResult_eq.
  - intros tr e' requestId' minScore' caller Hnever.
    rewrite getComparisonResult_eq, run_cache by done. done.
Qed.

End Cache.

(** The answer to "750 >= 700" is stored for Bob and read back.  On a
    ledger without requests Bob's and Carol's calls fail, so that the keys
    they address, like any other, still read as zero. *)
Lemma checkScoreMatch_spec_witness :
  fails_with (checkScoreMatch (fhe := mockFHE) (tx bob) 3 700 with_request) InvalidRequest
  ∧ fails_with (checkScoreMatch (fhe := mockFHE) (tx bob) 0 700 with_loan) InactiveRequest
  ∧ (∃ s', checkScoreMatch (fhe := mockFHE) (tx bob) 0 700 with_request = Ok 2 s'
       ∧ (2, bob) ∈ acl s' ∧ (2, ledger) ∈ acl s'
       ∧ getComparisonResult (tx carol) 0 700 bob s' = Ok 2 s')
  ∧ getComparisonResult (tx carol) 0 700 bob
      (run (fhe := mockFHE) [(tx bob, CheckScoreMatch 0 700); (tx carol, CheckScoreMatch 0 700)]
         init)
    = Ok 0 (run (fhe := mockFHE)
              [(tx bob, CheckScoreMatch 0 700); (tx carol, CheckScoreMatch 0 700)] init).
Proof.
  pose (r := BorrowerRequest.mk alice 750 5000 12 true).
  repeat apply conj.
  - apply (checkScoreMatch_spec (fhe := mockFHE) (tx bob) with_request 3 700). reflexivity.
  - apply (proj1 (proj2 (checkScoreMatch_spec (fhe := mockFHE) (tx bob) with_loan 0 700))
             (BorrowerRequest.mk alice 750 5000 12 false)); reflexivity.
  - destruct (proj1 (proj2 (checkScoreMatch_spec (fhe := mockFHE) (tx bob) with_request 0 700))
                r eq_refl) as (_ & Hok).
    destruct (Hok eq_refl) as (s' & Hrun & _ & _ & Hcaller & Hthis & _ & _ & _ & _ & Hget).
    exists s'. split; [exact Hrun|]. split; [exact Hcaller|]. split; [exact Hthis|].
    exact (Hget (tx carol)).
  - apply (proj2 (proj2 (proj2
      (checkScoreMatch_spec (fhe := mockFHE) (tx bob) init 0 0)))).
    cbn. intros [[_ []]|[[_ []]|[]]].
Defined.

(** ** The life cycle of requests and offers *)

Section LifeCycle.
Context {fhe : FHE.Library}.

Lemma step_request_kept (e : Env) (c : Call) (s : State) (i : nat) (r : BorrowerRequest.t) :
  borrowerRequests s !! i = Some r →
  ∃ r', borrowerRequests (step e c s) !! i = Some r'
        ∧ (BorrowerRequest.isActive r = false → BorrowerRequest.isActive r' = false).
Proof.
  intros Hr. destruct (step_cases e c s) as [->|[ret Hout]]; [eauto|].
  destruct c; cbn [call_outcome] in Hout; try (rewrite Hout; by eauto).
  - destruct Hout as (_ & score & _ & ->). cbn.
    exists r. split; [|done]. by apply lookup_app_l_Some.
  - destruct Hout as (handle & _ & ->). eauto.
  - destruct Hout as (_ & ->). eauto.
  - destruct Hout as (_ & offer & request & _ & Hreq & ->). cbn.
    destruct (decide (i = N.to_nat (LenderOffer.borrowerRequestId offer))) as [->|Hne].
    + exists (deactivate_request request). split; [|done].
      apply list_lookup_insert_eq. by apply lookup_lt_Some in Hreq.
    + exists r. split; [|done]. by rewrite list_lookup_insert_ne.
Qed.

Lemma step_offer_kept (e : Env) (c : Call) (s : State) (i : nat) (o : LenderOffer.t) :
  lenderOffers s !! i = Some o →
  ∃ o', lenderOffers (step e c s) !! i = Some o'
        ∧ (LenderOffer.isActive o = false → LenderOffer.isActive o' = false).
Proof.
  intros Ho. destruct (step_cases e c s) as [->|[ret Hout]]; [eauto|].
  destruct c; cbn [call_outcome] in Hout; try (rewrite Hout; by eauto).
  - destruct Hout as (_ & score & _ & ->). eauto.
  - destruct Hout as (handle & _ & ->). eauto.
  - destruct Hout as (_ & ->). cbn.
    exists o. split; [|done]. by apply lookup_app_l_Some.
  - destruct Hout as (_ & offer & request & Hoff & _ & ->). cbn.
    destruct (decide (i = N.to_nat offerId)) as [->|Hne].
    + exists (deactivate_offer offer). split; [|done].
      apply list_lookup_insert_eq. by apply lookup_lt_Some in Hoff.
    + exists o. split; [|done]. by rewrite list_lookup_insert_ne.
Qed.

Lemma step_request_created (e : Env) (c : Call) (s : State) (i : nat)
    (r' : BorrowerRequest.t) :
  borrowerRequests s !! i = None →
  borrowerRequests (step e c s) !! i = Some r' →
  BorrowerRequest.isActive r' = true.
Proof.
  intros Hnone Hsome. destruct (step_cases e c s) as [Hsame|[ret Hout]];
    [rewrite Hsame in Hsome; congruence|].
  destruct c; cbn [call_outcome] in Hout;
    try (rewrite Hout in Hsome; congruence).
  - destruct Hout as (_ & score & _ & Hs'). rewrite Hs' in Hsome. cbn in Hsome.
    apply lookup_app_Some in Hsome as [Hold|[_ Hnew]]; [congruence|].
    apply list_lookup_singleton_Some in Hnew as [_ <-]. done.
  - destruct Hout as (handle & _ & Hs'). rewrite Hs' in Hsome. cbn in Hsome. congruence.
  - destruct Hout as (_ & Hs'). rewrite Hs' in Hsome. cbn in Hsome. congruence.
  - destruct Hout as (_ & offer & request & _ & _ & Hs'). rewrite Hs' in Hsome.
    cbn in Hsome. apply lookup_lt_Some in Hsome. rewrite length_insert in Hsome.
    apply lookup_ge_None in Hnone. lia.
Qed.

Lemma step_offer_created (e : Env) (c : Call) (s : State) (i : nat) (o' : LenderOffer.t) :
  lenderOffers s !! i = None →
  lenderOffers (step e c s) !! i = Some o' →
  LenderOffer.isActive o' = true.
Proof.
  intros Hnone Hsome. destruct (step_cases e c s) as [Hsame|[ret Hout]];
    [rewrite Hsame in Hsome; congruence|].
  destruct c; cbn [call_outcome] in Hout;
    try (rewrite Hout in Hsome; congruence).
  - destruct Hout as (_ & score & _ & Hs'). rewrite Hs' in Hsome. cbn in Hsome. congruence.
  - destruct Hout as (handle & _ & Hs'). rewrite Hs' in Hsome. cbn in Hsome. congruence.
  - destruct Hout as (_ & Hs'). rewrite Hs' in Hsome. cbn in Hsome.
    apply lookup_app_Some in Hsome as [Hold|[_ Hnew]]; [congruence|].
    apply list_lookup_singleton_Some in Hnew as [_ <-]. done.
  - destruct Hout as (_ & offer & request & _ & _ & Hs'). rewrite Hs' in Hsome.
    cbn in Hsome. apply lookup_lt_Some in Hsome. rewrite length_insert in Hsome.
    apply lookup_ge_None in Hnone. lia.
Qed.

Lemma run_request_kept (tr : list (Env * Call)) (s : State) (i : nat)
    (r : BorrowerRequest.t) :
  borrowerRequests s !! i = Some r →
  ∃ r', borrowerRequests (run tr s) !! i = Some r'
        ∧ (BorrowerRequest.isActive r = false → BorrowerRequest.isActive r' = false).
Proof.
  revert s r. induction tr as [|[e c] tr IH]; intros s r Hr; [eauto|].
  rewrite run_cons.
  destruct (step_request_kept e c s i r Hr) as (r1 & Hr1 & Hclosed1).
  destruct (IH _ _ Hr1) as (r2 & Hr2 & Hclosed2).
  exists r2. split; [done|]. auto.
Qed.

Lemma run_offer_kept (tr : list (Env * Call)) (s : State) (i : nat) (o : LenderOffer.t) :
  lenderOffers s !! i = Some o →
  ∃ o', lenderOffers (run tr s) !! i = Some o'
        ∧ (LenderOffer.isActive o = false → LenderOffer.isActive o' = false).
Proof.
  revert s o. induction tr as [|[e c] tr IH]; intros s o Ho; [eauto|].
  rewrite run_cons.
  destruct (step_offer_kept e c s i o Ho) as (o1 & Ho1 & Hclosed1).
  destruct (IH _ _ Ho1) as (o2 & Ho2 & Hclosed2).
  exists o2. split; [done|]. auto.
Qed.

(** C7. A request or an offer that a transaction brings into being is
    active; and a request or an offer that is closed in some state is still
    there, and still closed, after any sequence of further transactions. *)
Theorem closed_is_terminal (s : State) :
  (∀ e c i r', borrowerRequests s !! i = None →
     borrowerRequests (step e c s) !! i = Some r' →
     BorrowerRequest.isActive r' = true)
  ∧ (∀ e c i o', lenderOffers s !! i = None →
       lenderOffers (step e c s) !! i = Some o' →
       LenderOffer.isActive o' = true)
  ∧ (∀ tr i r, borrowerRequests s !! i = Some r →
       BorrowerRequest.isActive r = false →
       ∃ r', borrowerRequests (run tr s) !! i = Some r'
             ∧ BorrowerRequest.isActive r' = false)
  ∧ (∀ tr i o, lenderOffers s !! i = Some o →
       LenderOffer.isActive o = false →
       ∃ o', lenderOffers (run tr s) !! i = Some o'
             ∧ LenderOffer.isActive o' = false).
Proof.
  split; [|split; [|split]].
  - intros e c i r'. apply step_request_created.
  - intros e c i o'. apply step_offer_created.
  - intros tr i r Hr Hclosed.
    destruct (run_request_kept tr s i r Hr) as (r' & Hr' & Hkeep). eauto.
  - intros tr i o Ho Hclosed.
    destruct (run_offer_kept tr s i o Ho) as (o' & Ho' & Hkeep). eauto.
Qed.

(** C8, as the contract implements it.  None of the three creating
    functions returns a value.  A successful call appends one record and
    logs one event whose first field is the id of that record, its index
    in the collection: [NewBorrowerRequest], [NewLenderOffer] or
    [LoanCreated]. *)
Theorem creation_logs_new_id (e : Env) (c : Call) (s s' : State) (ret : ReturnData) :
  call e c s = Ok ret s' →
  match c with
  | SubmitBorrowerRequest _ amount _ _ =>
      ret = RetNone
      ∧ ∃ r, borrowerRequests s' = borrowerRequests s ++ [r]
             ∧ borrowerRequests s' !! length (borrowerRequests s) = Some r
             ∧ logs s' = logs s ++
                 [NewBorrowerRequest (N.of_nat (length (borrowerRequests s)))
                    (msg_sender e) amount]
  | SubmitLenderOffer borrowerRequestId amount _ _ =>
      ret = RetNone
      ∧ ∃ o, lenderOffers s' = lenderOffers s ++ [o]
             ∧ lenderOffers s' !! length (lenderOffers s) = Some o
             ∧ logs s' = logs s ++
                 [NewLenderOffer (N.of_nat (length (lenderOffers s))) borrowerRequestId
                    (msg_sender e) amount]
  | AcceptLoanOffer _ =>
      ret = RetNone
      ∧ ∃ l, loans s' = loans s ++ [l]
             ∧ loans s' !! length (loans s) = Some l
             ∧ logs s' = logs s ++
                 [LoanCreated (N.of_nat (length (loans s))) (Loan.borrower l)
                    (Loan.lender l) (Loan.amount l)]
  | _ => True
  end.
Proof.
  intros Hcall. apply call_inv in Hcall.
  destruct c; cbn [call_outcome] in Hcall; try exact I.
  - destruct Hcall as (-> & score & _ & ->). split; [done|].
    eexists. split; [reflexivity|]. split; [|reflexivity].
    cbn. by apply list_lookup_middle.
  - destruct Hcall as (-> & ->). split; [done|].
    eexists. split; [reflexivity|]. split; [|reflexivity].
    cbn. by apply list_lookup_middle.
  - destruct Hcall as (-> & offer & request & _ & _ & ->). split; [done|].
    eexists. split; [reflexivity|]. split; [|reflexivity].
    cbn. by apply list_lookup_middle.
Qed.

End LifeCycle.

(** The request and Bob's offer, closed by Alice's acceptance, stay closed
    when Carol submits a further offer and Alice tries to accept Carol's
    first one; Carol's offer was active when it appeared. *)
Lemma closed_is_terminal_witness :
  (∃ r', borrowerRequests
           (run (fhe := mockFHE)
              [(tx carol, SubmitLenderOffer 0 1 1 1); (tx alice, AcceptLoanOffer 1)] with_loan)
           !! 0%nat = Some r'
         ∧ BorrowerRequest.isActive r' = false)
  ∧ (∃ o', lenderOffers
             (run (fhe := mockFHE)
                [(tx carol, SubmitLenderOffer 0 1 1 1); (tx alice, AcceptLoanOffer 1)]
                with_loan)
             !! 0%nat = Some o'
           ∧ LenderOffer.isActive o' = false)
  ∧ (∀ o', lenderOffers
              (step (fhe := mockFHE) (tx carol) (SubmitLenderOffer 0 4000 300 24) with_offer)
              !! 1%nat = Some o' →
            LenderOffer.isActive o' = true).
Proof.
  destruct (closed_is_terminal (fhe := mockFHE) with_loan) as (_ & _ & Hreq & Hoff).
  destruct (closed_is_terminal (fhe := mockFHE) with_offer) as (_ & Hnew & _ & _).
  split; [|split].
  - apply (Hreq _ 0%nat (BorrowerRequest.mk alice 750 5000 12 false)); reflexivity.
  - apply (Hoff _ 0%nat (LenderOffer.mk bob 0 5000 500 12 false)); reflexivity.
  - intros o'. apply (Hnew (tx carol) (SubmitLenderOffer 0 4000 300 24) 1%nat). reflexivity.
Defined.

Lemma creation_logs_new_id_witness :
  RetNone = RetNone
  ∧ ∃ r, borrowerRequests with_request = borrowerRequests init ++ [r]
         ∧ borrowerRequests with_request !! length (borrowerRequests init) = Some r
         ∧ logs with_request = logs init ++
             [NewBorrowerRequest (N.of_nat (length (borrowerRequests init)))
                (msg_sender (tx alice)) 5000].
Proof.
  apply (creation_logs_new_id (fhe := mockFHE) (tx alice)
           (SubmitBorrowerRequest 750 5000 12 proof750) init with_request RetNone).
  vm_compute. reflexivity.
Defined.

(** C8 as stated does not hold of the contract: the call that creates
    request 0 succeeds and returns nothing, not the word 0; so do the calls
    that create offer 0 and loan 0. *)
Lemma creation_returns_id_counterexample :
  (call (fhe := mockFHE) (tx alice) (SubmitBorrowerRequest 750 5000 12 proof750) init
     = Ok RetNone with_request
   ∧ borrowerRequests with_request !! 0%nat = Some (BorrowerRequest.mk alice 750 5000 12 true)
   ∧ RetNone ≠ RetWord 0)
  ∧ (call (fhe := mockFHE) (tx bob) (SubmitLenderOffer 0 5000 500 12) with_request
       = Ok RetNone with_offer
     ∧ lenderOffers with_offer !! 0%nat = Some (LenderOffer.mk bob 0 5000 500 12 true))
  ∧ (∃ s', call (fhe := mockFHE) (tx alice) (AcceptLoanOffer 0) with_offer = Ok RetNone s'
           ∧ loans s' !! 0%nat =
               Some (Loan.mk alice bob 5000 500 12 1700000000 true false)).
Proof.
  split; [|split].
  - split; [vm_compute; reflexivity|]. split; [reflexivity|discriminate].
  - split; [vm_compute; reflexivity|reflexivity].
  - eexists. split; [vm_compute; reflexivity|reflexivity].
Qed.

(** * Further properties of the contract *)

(** ** Successful calls and invariants *)

Section Invariants.
Context {fhe : FHE.Library}.

Lemma call_success_inv (e : Env) (c : Call) (s s' : State) (ret : ReturnData) :
  call e c s = Ok ret s' → call_success e c s s'.
Proof.
  intros Hcall.
  pose proof (call_inv e c s ret s' Hcall) as Hout.
  destruct c; cbn [call call_outcome call_success] in *; try exact Hout;
    repeat match goal with
    | H : (_ ≫= _) _ = Ok _ _ |- _ => apply mbind_inv in H as (? & ? & ? & ?)
    | H : nonpayable _ _ = Ok _ _ |- _ => apply nonpayable_inv in H as [? ->]
    | H : mret _ _ = Ok _ _ |- _ => unfold mret, M_ret in H; injection H as ? ?; subst
    end.
  - match goal with H : submitBorrowerRequest _ _ _ _ _ _ = _ |- _ =>
      apply submitBorrowerRequest_inv in H as (score & ? & ? & ? & ->) end.
    eauto.
  - match goal with H : checkScoreMatch _ _ _ _ = _ |- _ =>
      apply checkScoreMatch_inv in H as (r & ? & ? & -> & ->) end.
    eauto.
  - match goal with H : submitLenderOffer _ _ _ _ _ _ = _ |- _ =>
      apply submitLenderOffer_inv in H as (r & ? & ? & ? & ? & ? & ->) end.
    eauto 10.
  - match goal with H : acceptLoanOffer _ _ _ = _ |- _ =>
      apply acceptLoanOffer_inv in H as (offer & request & ? & ? & ? & ? & ? & ? & ->) end.
    eauto 10.
Qed.

Lemma step_success_cases (e : Env) (c : Call) (s : State) :
  step e c s = s ∨ call_success e c s (step e c s).
Proof.
  unfold step, commit. destruct (call e c s) as [ret s'|? ?|? ?|?] eqn:Hcall; auto.
  right. by apply (call_success_inv e c s s' ret).
Qed.

(** A property of the fresh ledger that every transaction preserves holds
    after every history. *)
Lemma run_invariant (P : State → Prop) :
  P init →
  (∀ e c s, P s → P (step e c s)) →
  ∀ tr, P (run tr init).
Proof.
  intros Hinit Hstep tr. generalize init Hinit.
  induction tr as [|[e c] tr IH]; intros s Hs; [done|].
  rewrite run_cons. apply IH. by apply Hstep.
Qed.

(** To preserve a property it is enough to preserve it through the four
    state changes. *)
Lemma step_preserves (P : State → Prop) (e : Env) (c : Call) (s : State) :
  P s →
  (∀ score amount term, 0 < amount → 1 ≤ term ≤ 120 →
     P (request_submitted e score amount term s)) →
  (∀ requestId minScore handle, P (score_checked e requestId minScore handle s)) →
  (∀ requestId amount apr term r,
     0 < amount → 1 ≤ apr ≤ 10000 → 1 ≤ term ≤ 120 →
     borrowerRequests s !! N.to_nat requestId = Some r →
     BorrowerRequest.isActive r = true →
     P (offer_submitted e requestId amount apr term s)) →
  (∀ offerId offer request,
     lenderOffers s !! N.to_nat offerId = Some offer →
     LenderOffer.isActive offer = true →
     borrowerRequests s !! N.to_nat (LenderOffer.borrowerRequestId offer) = Some request →
     BorrowerRequest.isActive request = true →
     BorrowerRequest.borrower request = msg_sender e →
     P (offer_accepted e offerId request offer s)) →
  P (step e c s).
Proof.
  intros Hs Hrequest Hcheck Hoffer Haccept.
  destruct (step_success_cases e c s) as [->|Hok]; [done|].
  destruct c; cbn [call_success] in Hok; try (by rewrite Hok).
  - destruct Hok as (? & ? & score & _ & ->). by apply Hrequest.
  - destruct Hok as (r & _ & _ & ->). apply Hcheck.
  - destruct Hok as (? & ? & ? & r & ? & ? & ->). by apply (Hoffer _ _ _ _ r).
  - destruct Hok as (offer & request & ? & ? & ? & ? & ? & ->). by apply Haccept.
Qed.

End Invariants.

(** ** The read-only accessors *)

Lemma getEncryptedScore_Some e s requestId r :
  borrowerRequests s !! N.to_nat requestId = Some r →
  getEncryptedScore e requestId s = Ok (BorrowerRequest.encryptedScore r) s.
Proof.
  intros Hr. unfold getEncryptedScore. sol_unfold.
  sol_run (ltb_length_of_lookup _ _ _ Hr) Hr. reflexivity.
Qed.

Lemma getEncryptedScore_None e s requestId :
  borrowerRequests s !! N.to_nat requestId = None →
  getEncryptedScore e requestId s = Revert "Invalid request ID" s.
Proof.
  intros Hr. unfold getEncryptedScore. sol_unfold.
  apply ltb_length_lookup_None in Hr. rewrite Hr. reflexivity.
Qed.

Lemma getLenderOffer_Some e s offerId o :
  lenderOffers s !! N.to_nat offerId = Some o →
  getLenderOffer e offerId s =
    Ok (LenderOffer.lender o, LenderOffer.borrowerRequestId o, LenderOffer.amount o,
        LenderOffer.apr o, LenderOffer.term o, LenderOffer.isActive o) s.
Proof.
  intros Ho. unfold getLenderOffer. sol_unfold.
  sol_run (ltb_length_of_lookup _ _ _ Ho) Ho. reflexivity.
Qed.

Lemma getLenderOffer_None e s offerId :
  lenderOffers s !! N.to_nat offerId = None →
  getLenderOffer e offerId s = Revert "Invalid offer ID" s.
Proof.
  intros Ho. unfold getLenderOffer. sol_unfold.
  apply ltb_length_lookup_None in Ho. rewrite Ho. reflexivity.
Qed.

Lemma getLoan_Some e s loanId l :
  loans s !! N.to_nat loanId = Some l →
  getLoan e loanId s =
    Ok (Loan.borrower l, Loan.lender l, Loan.amount l, Loan.apr l, Loan.term l,
        Loan.startTime l, Loan.isActive l, Loan.isRepaid l) s.
Proof.
  intros Hl. unfold getLoan. sol_unfold.
  sol_run (ltb_length_of_lookup _ _ _ Hl) Hl. reflexivity.
Qed.

Lemma getLoan_None e s loanId :
  loans s !! N.to_nat loanId = None →
  getLoan e loanId s = Revert "Invalid loan ID" s.
Proof.
  intros Hl. unfold getLoan. sol_unfold.
  apply ltb_length_lookup_None in Hl. rewrite Hl. reflexivity.
Qed.

Lemma lookup_below_count {A} (l : list A) (id : N) :
  id < N.of_nat (length l) → ∃ x, l !! N.to_nat id = Some x.
Proof. intros Hid. apply lookup_lt_is_Some. lia. Qed.

Lemma lookup_beyond_count {A} (l : list A) (id : N) :
  N.of_nat (length l) ≤ id → l !! N.to_nat id = None.
Proof. intros Hid. apply lookup_ge_None. lia. Qed.

(** X1. The ids of each collection are exactly the numbers below its
    count.  Below the count returned by [getBorrowerRequestsCount],
    [getBorrowerRequest] and [getEncryptedScore] return the fields of the
    stored request; from the count on, both revert with "Invalid request
    ID".  Likewise [getLenderOffer] against [getLenderOffersCount] ("Invalid
    offer ID") and [getLoan] against [getLoansCount] ("Invalid loan ID").
    None of them changes the state. *)
Theorem accessors_agree_with_counts (e : Env) (s : State) (id : N) :
  ∃ requests offers created,
    getBorrowerRequestsCount e s = Ok requests s
    ∧ getLenderOffersCount e s = Ok offers s
    ∧ getLoansCount e s = Ok created s
    ∧ (id < requests →
         ∃ r, borrowerRequests s !! N.to_nat id = Some r
              ∧ getBorrowerRequest e id s =
                  Ok (BorrowerRequest.borrower r, BorrowerRequest.amount r,
                      BorrowerRequest.term r, BorrowerRequest.isActive r) s
              ∧ getEncryptedScore e id s = Ok (BorrowerRequest.encryptedScore r) s)
    ∧ (requests ≤ id →
         getBorrowerRequest e id s = Revert "Invalid request ID" s
         ∧ getEncryptedScore e id s = Revert "Invalid request ID" s)
    ∧ (id < offers →
         ∃ o, lenderOffers s !! N.to_nat id = Some o
              ∧ getLenderOffer e id s =
                  Ok (LenderOffer.lender o, LenderOffer.borrowerRequestId o,
                      LenderOffer.amount o, LenderOffer.apr o, LenderOffer.term o,
                      LenderOffer.isActive o) s)
    ∧ (offers ≤ id → getLenderOffer e id s = Revert "Invalid offer ID" s)
    ∧ (id < created →
         ∃ l, loans s !! N.to_nat id = Some l
              ∧ getLoan e id s =
                  Ok (Loan.borrower l, Loan.lender l, Loan.amount l, Loan.apr l,
                      Loan.term l, Loan.startTime l, Loan.isActive l, Loan.isRepaid l) s)
    ∧ (created ≤ id → getLoan e id s = Revert "Invalid loan ID" s).
Proof.
  exists (N.of_nat (length (borrowerRequests s))), (N.of_nat (length (lenderOffers s))),
    (N.of_nat (length (loans s))).
  split; [reflexivity|]. split; [reflexivity|]. split; [reflexivity|].
  split.
  { intros Hid. destruct (lookup_below_count _ _ Hid) as [r Hr]. exists r.
    split; [done|]. split; [by apply getBorrowerRequest_Some|by apply getEncryptedScore_Some]. }
  split.
  { intros Hid. apply lookup_beyond_count in Hid.
    split; [by apply getBorrowerRequest_None|by apply getEncryptedScore_None]. }
  split.
  { intros Hid. destruct (lookup_below_count _ _ Hid) as [o Ho]. exists o.
    split; [done|]. by apply getLenderOffer_Some. }
  split.
  { intros Hid. apply lookup_beyond_count in Hid. by apply getLenderOffer_None. }
  split.
  { intros Hid. destruct (lookup_below_count _ _ Hid) as [l Hl]. exists l.
    split; [done|]. by apply getLoan_Some. }
  intros Hid. apply lookup_beyond_count in Hid. by apply getLoan_None.
Qed.

Lemma accessors_agree_with_counts_witness :
  ∃ requests offers created,
    getBorrowerRequestsCount (tx bob) with_loan = Ok requests with_loan
    ∧ getLenderOffersCount (tx bob) with_loan = Ok offers with_loan
    ∧ getLoansCount (tx bob) with_loan = Ok created with_loan
    ∧ (1 < requests →
         ∃ r, borrowerRequests with_loan !! N.to_nat 1 = Some r
              ∧ getBorrowerRequest (tx bob) 1 with_loan =
                  Ok (BorrowerRequest.borrower r, BorrowerRequest.amount r,
                      BorrowerRequest.term r, BorrowerRequest.isActive r) with_loan
              ∧ getEncryptedScore (tx bob) 1 with_loan =
                  Ok (BorrowerRequest.encryptedScore r) with_loan)
    ∧ (requests ≤ 1 →
         getBorrowerRequest (tx bob) 1 with_loan = Revert "Invalid request ID" with_loan
         ∧ getEncryptedScore (tx bob) 1 with_loan = Revert "Invalid request ID" with_loan)
    ∧ (1 < offers →
         ∃ o, lenderOffers with_loan !! N.to_nat 1 = Some o
              ∧ getLenderOffer (tx bob) 1 with_loan =
                  Ok (LenderOffer.lender o, LenderOffer.borrowerRequestId o,
                      LenderOffer.amount o, LenderOffer.apr o, LenderOffer.term o,
                      LenderOffer.isActive o) with_loan)
    ∧ (offers ≤ 1 → getLenderOffer (tx bob) 1 with_loan = Revert "Invalid offer ID" with_loan)
    ∧ (1 < created →
         ∃ l, loans with_loan !! N.to_nat 1 = Some l
              ∧ getLoan (tx bob) 1 with_loan =
                  Ok (Loan.borrower l, Loan.lender l, Loan.amount l, Loan.apr l,
                      Loan.term l, Loan.startTime l, Loan.isActive l, Loan.isRepaid l)
                    with_loan)
    ∧ (created ≤ 1 → getLoan (tx bob) 1 with_loan = Revert "Invalid loan ID" with_loan).
Proof. exact (accessors_agree_with_counts (tx bob) with_loan 1). Defined.

(** ** Offers and the requests they refer to *)

Section Integrity.
Context {fhe : FHE.Library}.

Lemma offers_resolve_step (e : Env) (c : Call) (s : State) :
  offers_resolve s → offers_resolve (step e c s).
Proof.
  intros Hs. apply step_preserves; [done|..]; unfold offers_resolve; cbn.
  - intros score amount term _ _ i o Ho.
    destruct (Hs i o Ho) as [r Hr]. exists r. by apply lookup_app_l_Some.
  - intros _ _ _. exact Hs.
  - intros requestId amount apr term r _ _ _ Hr _ i o Ho.
    apply lookup_app_Some in Ho as [Ho|[_ Ho]]; [by eapply Hs|].
    apply list_lookup_singleton_Some in Ho as [_ <-]. cbn. eauto.
  - intros offerId offer request Hoffer _ Hrequest _ _ i o Ho.
    assert (∃ o0, lenderOffers s !! i = Some o0
                  ∧ LenderOffer.borrowerRequestId o = LenderOffer.borrowerRequestId o0)
      as (o0 & Ho0 & ->).
    { destruct (decide (i = N.to_nat offerId)) as [->|Hne].
      - rewrite list_lookup_insert_eq in Ho by (by eapply lookup_lt_Some).
        injection Ho as <-. eauto.
      - rewrite list_lookup_insert_ne in Ho by done. eauto. }
    apply lookup_lt_is_Some. rewrite length_insert.
    apply lookup_lt_is_Some. by eapply Hs.
Qed.

Lemma offers_resolve_run (tr : list (Env * Call)) : offers_resolve (run tr init).
Proof.
  apply (run_invariant offers_resolve); [|intros e c s; apply offers_resolve_step].
  intros i o Ho. done.
Qed.

(** X2. After any history, the request an offer refers to exists: the
    index [offer.borrowerRequestId] that [acceptLoanOffer] dereferences
    without a check is always in range. *)
Theorem offers_refer_to_requests (tr : list (Env * Call)) (offerId : N)
    (o : LenderOffer.t) :
  lenderOffers (run tr init) !! N.to_nat offerId = Some o →
  ∃ r, borrowerRequests (run tr init) !! N.to_nat (LenderOffer.borrowerRequestId o) = Some r.
Proof. intros Ho. by apply (offers_resolve_run tr (N.to_nat offerId) o). Qed.

Lemma clean_Ok {A} (s s' : State) (a : A) : clean_outcome s (Ok a s').
Proof. by left. Qed.

Lemma clean_Revert {A} (s : State) (reason : string) :
  clean_outcome (A := A) s (Revert reason s).
Proof. right. left. eauto. Qed.

Lemma submitBorrowerRequest_clean e s encryptedScore amount term inputProof :
  clean_outcome s (submitBorrowerRequest e encryptedScore amount term inputProof s).
Proof.
  destruct (N.eq_dec amount 0) as [->|Hamount];
    [rewrite submitBorrowerRequest_zero_amount; apply clean_Revert|].
  assert (0 < amount) as Hpos by lia.
  destruct (decide (1 ≤ term ≤ 120)) as [Hterm|Hterm];
    [|rewrite submitBorrowerRequest_bad_term by done; apply clean_Revert].
  destruct (FHE.verify (this e) (msg_sender e) encryptedScore inputProof) as [score|] eqn:Hv.
  - rewrite (submitBorrowerRequest_ok _ _ _ _ _ _ score) by done. apply clean_Ok.
  - right. right. unfold submitBorrowerRequest. sol_unfold.
    apply N.ltb_lt in Hpos. apply term_check_true in Hterm.
    by rewrite Hpos, Hterm, Hv.
Qed.

Lemma checkScoreMatch_clean e s requestId minScore :
  clean_outcome s (checkScoreMatch e requestId minScore s).
Proof.
  destruct (borrowerRequests s !! N.to_nat requestId) as [r|] eqn:Hr;
    [|rewrite checkScoreMatch_invalid_request by done; apply clean_Revert].
  destruct (BorrowerRequest.isActive r) eqn:Hactive;
    [|rewrite (checkScoreMatch_inactive_request _ _ _ _ r) by done; apply clean_Revert].
  rewrite (checkScoreMatch_ok _ _ _ _ r) by done. apply clean_Ok.
Qed.

Lemma submitLenderOffer_clean e s borrowerRequestId amount apr term :
  clean_outcome s (submitLenderOffer e borrowerRequestId amount apr term s).
Proof.
  destruct (borrowerRequests s !! N.to_nat borrowerRequestId) as [r|] eqn:Hr;
    [|rewrite submitLenderOffer_invalid_request by done; apply clean_Revert].
  destruct (BorrowerRequest.isActive r) eqn:Hactive;
    [|rewrite (submitLenderOffer_inactive_request _ _ _ _ _ _ r) by done; apply clean_Revert].
  destruct (N.eq_dec amount 0) as [->|Hamount];
    [rewrite (submitLenderOffer_zero_amount _ _ _ _ _ r) by done; apply clean_Revert|].
  assert (0 < amount) as Hpos by lia.
  destruct (decide (1 ≤ apr ≤ 10000)) as [Hapr|Hapr];
    [|rewrite (submitLenderOffer_bad_apr _ _ _ _ _ _ r) by done; apply clean_Revert].
  destruct (decide (1 ≤ term ≤ 120)) as [Hterm|Hterm];
    [|rewrite (submitLenderOffer_bad_term _ _ _ _ _ _ r) by done; apply clean_Revert].
  rewrite (submitLenderOffer_ok _ _ _ _ _ _ r) by done. apply clean_Ok.
Qed.

Lemma acceptLoanOffer_clean e s offerId :
  offers_resolve s → clean_outcome s (acceptLoanOffer e offerId s).
Proof.
  intros Hs.
  destruct (lenderOffers s !! N.to_nat offerId) as [offer|] eqn:Ho;
    [|rewrite acceptLoanOffer_invalid_offer by done; apply clean_Revert].
  destruct (LenderOffer.isActive offer) eqn:Hactive;
    [|rewrite (acceptLoanOffer_inactive_offer _ _ _ offer) by done; apply clean_Revert].
  destruct (Hs _ _ Ho) as [request Hr].
  destruct (BorrowerRequest.isActive request) eqn:Hractive;
    [|rewrite (acceptLoanOffer_inactive_request _ _ _ offer request) by done;
      apply clean_Revert].
  destruct (decide (BorrowerRequest.borrower request = msg_sender e)) as [Hsender|Hsender];
    [|rewrite (acceptLoanOffer_not_borrower _ _ _ offer request) by done;
      apply clean_Revert].
  destruct (decide (msg_value e = 0)) as [Hvalue|Hvalue];
    [|rewrite (acceptLoanOffer_value_attached _ _ _ offer request) by done;
      apply clean_Revert].
  rewrite (acceptLoanOffer_ok _ _ _ offer request) by done. apply clean_Ok.
Qed.

Lemma accessor_clean {A} (l : list A) {B} (m : M B) (s : State) (id : N) (reason : string) :
  (∀ x, l !! N.to_nat id = Some x → succeeds (m s)) →
  (l !! N.to_nat id = None → m s = Revert reason s) →
  clean_outcome s (m s).
Proof.
  intros Hsome Hnone. destruct (l !! N.to_nat id) as [x|] eqn:Hx.
  - left. by apply (Hsome x).
  - rewrite Hnone by done. apply clean_Revert.
Qed.

(** A function wrapped by the dispatcher: the value check, the function,
    the encoding of its result. *)
Lemma dispatch_clean {A} (e : Env) (m : M A) (k : A → M ReturnData) (s : State) :
  clean_outcome s (m s) →
  (∀ a s', succeeds (k a s')) →
  clean_outcome s ((nonpayable e;; m ≫= k) s).
Proof.
  intros Hm Hk. unfold nonpayable.
  destruct (msg_value e =? 0); [|apply clean_Revert].
  unfold mbind, M_bind, mret, M_ret.
  destruct Hm as [Hok|[[reason ->]| ->]].
  - destruct (m s) as [a s'|? ?|? ?|?]; try done. left. apply Hk.
  - apply clean_Revert.
  - right. by right.
Qed.

Lemma call_clean (e : Env) (c : Call) (s : State) :
  offers_resolve s → clean_outcome s (call e c s).
Proof.
  intros Hs. destruct c; cbn [call].
  - apply dispatch_clean; [apply submitBorrowerRequest_clean|done].
  - apply dispatch_clean; [rewrite findMatches_eq; apply clean_Ok|done].
  - apply dispatch_clean; [apply checkScoreMatch_clean|done].
  - apply dispatch_clean; [apply clean_Ok|done].
  - apply dispatch_clean; [|done].
    apply (accessor_clean (borrowerRequests s) _ _ requestId "Invalid request ID").
    + intros r Hr. by rewrite (getEncryptedScore_Some _ _ _ r).
    + apply getEncryptedScore_None.
  - apply dispatch_clean; [apply submitLenderOffer_clean|done].
  - unfold mbind, M_bind, mret, M_ret.
    destruct (acceptLoanOffer_clean e s offerId Hs) as [Hok|[[reason Hrev]|Hrev]].
    + destruct (acceptLoanOffer e offerId s) as [a s'|? ?|? ?|?]; try done. apply clean_Ok.
    + rewrite Hrev. apply clean_Revert.
    + rewrite Hrev. right. by right.
  - apply dispatch_clean; [apply clean_Ok|done].
  - apply dispatch_clean; [apply clean_Ok|done].
  - apply dispatch_clean; [apply clean_Ok|done].
  - apply dispatch_clean; [|by intros [[[??]?]?] ?].
    apply (accessor_clean (borrowerRequests s) _ _ requestId "Invalid request ID").
    + intros r Hr. by rewrite (getBorrowerRequest_Some _ _ _ r).
    + apply getBorrowerRequest_None.
  - apply dispatch_clean; [|by intros [[[[[??]?]?]?]?] ?].
    apply (accessor_clean (lenderOffers s) _ _ offerId "Invalid offer ID").
    + intros o Ho. by rewrite (getLenderOffer_Some _ _ _ o).
    + apply getLenderOffer_None.
  - apply dispatch_clean; [|by intros [[[[[[[??]?]?]?]?]?]?] ?].
    apply (accessor_clean (loans s) _ _ loanId "Invalid loan ID").
    + intros l Hl. by rewrite (getLoan_Some _ _ _ l).
    + apply getLoan_None.
Qed.

(** X3. After any history, a call of any external function either
    succeeds or reverts, in the contract or in the FHE library, before it
    has written anything: no call ends in a panic, so no array access is
    out of range and no subtraction underflows. *)
Theorem calls_succeed_or_revert (tr : list (Env * Call)) (e : Env) (c : Call) :
  (∃ ret s', call e c (run tr init) = Ok ret s')
  ∨ (∃ reason, call e c (run tr init) = Revert reason (run tr init))
  ∨ call e c (run tr init) = FHERevert (run tr init).
Proof.
  destruct (call_clean e c (run tr init) (offers_resolve_run tr)) as [Hok|Hfail]; [|auto].
  left. destruct (call e c (run tr init)) as [ret s'|? ?|? ?|?]; try done. eauto.
Qed.

End Integrity.

Lemma offers_refer_to_requests_witness :
  ∃ r, borrowerRequests
         (run (fhe := mockFHE)
            [(tx alice, SubmitBorrowerRequest 750 5000 12 proof750);
             (tx bob, SubmitBorrowerRequest 640 900 6 proof750);
             (tx carol, SubmitLenderOffer 1 900 450 6)] init)
         !! N.to_nat (LenderOffer.borrowerRequestId (LenderOffer.mk carol 1 900 450 6 true))
       = Some r.
Proof.
  apply (offers_refer_to_requests (fhe := mockFHE) _ 0). reflexivity.
Defined.

(** ** One loan for each closed request and each closed offer *)

Lemma length_filter_insert_new {A} (P : A → Prop) `{∀ x, Decision (P x)}
    (l : list A) (i : nat) (x y : A) :
  l !! i = Some x → ¬ P x → P y →
  length (filter P (<[i := y]> l)) = S (length (filter P l)).
Proof.
  revert i. induction l as [|z l IH]; intros [|i] Hx Hnot Hy; simplify_eq/=.
  - rewrite filter_cons_True, filter_cons_False by done. done.
  - rewrite !filter_cons. destruct (decide (P z)); cbn; by rewrite (IH i).
Qed.

Section Counting.
Context {fhe : FHE.Library}.

Lemma loans_count_step (e : Env) (c : Call) (s : State) :
  length (loans s) = closed_requests s ∧ length (loans s) = closed_offers s →
  length (loans (step e c s)) = closed_requests (step e c s)
  ∧ length (loans (step e c s)) = closed_offers (step e c s).
Proof.
  intros [Hreq Hoff].
  apply (step_preserves (λ s, length (loans s) = closed_requests s
                              ∧ length (loans s) = closed_offers s));
    [done|..]; unfold closed_requests, closed_offers in *; cbn.
  - intros score amount term _ _.
    rewrite filter_app, length_app, filter_cons_False, filter_nil by done. cbn. lia.
  - done.
  - intros requestId amount apr term r _ _ _ _ _.
    rewrite filter_app, length_app, filter_cons_False, filter_nil by done. cbn. lia.
  - intros offerId offer request Hoffer Hactive Hrequest Hractive _.
    rewrite length_app. cbn.
    rewrite (length_filter_insert_new _ _ _ request) by (done || by rewrite Hractive).
    rewrite (length_filter_insert_new _ _ _ offer) by (done || by rewrite Hactive).
    lia.
Qed.

(** X4. After any history the number of loans equals the number of closed
    requests and the number of closed offers: every loan has closed one
    request and one offer, and nothing else closes them. *)
Theorem one_loan_per_closed_record (tr : list (Env * Call)) :
  length (loans (run tr init)) = closed_requests (run tr init)
  ∧ length (loans (run tr init)) = closed_offers (run tr init).
Proof.
  apply (run_invariant (λ s, length (loans s) = closed_requests s
                             ∧ length (loans s) = closed_offers s)); [done|].
  intros e c s. apply loans_count_step.
Qed.

(** ** What never changes *)

Lemma step_request_terms (e : Env) (c : Call) (s : State) (i : nat) (r : BorrowerRequest.t) :
  borrowerRequests s !! i = Some r →
  ∃ r', borrowerRequests (step e c s) !! i = Some r' ∧ request_terms r' = request_terms r.
Proof.
  intros Hr.
  apply (step_preserves (λ s', ∃ r', borrowerRequests s' !! i = Some r'
                                     ∧ request_terms r' = request_terms r)); cbn.
  - eauto.
  - intros. exists r. split; [by apply lookup_app_l_Some|done].
  - eauto.
  - eauto.
  - intros offerId offer request _ _ Hrequest _ _.
    destruct (decide (i = N.to_nat (LenderOffer.borrowerRequestId offer))) as [->|Hne].
    + exists (deactivate_request request).
      split; [apply list_lookup_insert_eq; by eapply lookup_lt_Some|].
      rewrite Hrequest in Hr. by injection Hr as ->.
    + exists r. by rewrite list_lookup_insert_ne.
Qed.

Lemma step_offer_terms (e : Env) (c : Call) (s : State) (i : nat) (o : LenderOffer.t) :
  lenderOffers s !! i = Some o →
  ∃ o', lenderOffers (step e c s) !! i = Some o' ∧ offer_terms o' = offer_terms o.
Proof.
  intros Ho.
  apply (step_preserves (λ s', ∃ o', lenderOffers s' !! i = Some o'
                                     ∧ offer_terms o' = offer_terms o)); cbn.
  - eauto.
  - eauto.
  - eauto.
  - intros. exists o. split; [by apply lookup_app_l_Some|done].
  - intros offerId offer request Hoffer _ _ _ _.
    destruct (decide (i = N.to_nat offerId)) as [->|Hne].
    + exists (deactivate_offer offer).
      split; [apply list_lookup_insert_eq; by eapply lookup_lt_Some|].
      rewrite Hoffer in Ho. by injection Ho as ->.
    + exists o. by rewrite list_lookup_insert_ne.
Qed.

Lemma step_loans_prefix (e : Env) (c : Call) (s : State) :
  loans s `prefix_of` loans (step e c s).
Proof.
  apply (step_preserves (λ s', loans s `prefix_of` loans s')); cbn;
    intros; try done; by apply prefix_app_r.
Qed.

Lemma run_request_terms (tr : list (Env * Call)) (s : State) (i : nat)
    (r : BorrowerRequest.t) :
  borrowerRequests s !! i = Some r →
  ∃ r', borrowerRequests (run tr s) !! i = Some r' ∧ request_terms r' = request_terms r.
Proof.
  revert s r. induction tr as [|[e c] tr IH]; intros s r Hr; [eauto|].
  rewrite run_cons.
  destruct (step_request_terms e c s i r Hr) as (r1 & Hr1 & Heq1).
  destruct (IH _ _ Hr1) as (r2 & Hr2 & Heq2).
  exists r2. split; [done|]. congruence.
Qed.

Lemma run_offer_terms (tr : list (Env * Call)) (s : State) (i : nat) (o : LenderOffer.t) :
  lenderOffers s !! i = Some o →
  ∃ o', lenderOffers (run tr s) !! i = Some o' ∧ offer_terms o' = offer_terms o.
Proof.
  revert s o. induction tr as [|[e c] tr IH]; intros s o Ho; [eauto|].
  rewrite run_cons.
  destruct (step_offer_terms e c s i o Ho) as (o1 & Ho1 & Heq1).
  destruct (IH _ _ Ho1) as (o2 & Ho2 & Heq2).
  exists o2. split; [done|]. congruence.
Qed.

(** X5. A request keeps its borrower, encrypted score, amount and term,
    and an offer keeps its lender, request, amount, rate and term, through
    every sequence of transactions; in particular [getEncryptedScore]
    returns the same handle for a request as long as the ledger lives. *)
Theorem terms_are_immutable (tr : list (Env * Call)) (s : State) :
  (∀ i r, borrowerRequests s !! i = Some r →
     ∃ r', borrowerRequests (run tr s) !! i = Some r'
           ∧ request_terms r' = request_terms r)
  ∧ (∀ i o, lenderOffers s !! i = Some o →
       ∃ o', lenderOffers (run tr s) !! i = Some o' ∧ offer_terms o' = offer_terms o)
  ∧ (∀ e e' requestId handle,
       getEncryptedScore e requestId s = Ok handle s →
       getEncryptedScore e' requestId (run tr s) = Ok handle (run tr s)).
Proof.
  split; [intros i r; apply run_request_terms|].
  split; [intros i o; apply run_offer_terms|].
  intros e e' requestId handle Hget.
  destruct (borrowerRequests s !! N.to_nat requestId) as [r|] eqn:Hr;
    [|by rewrite getEncryptedScore_None in Hget].
  rewrite (getEncryptedScore_Some _ _ _ r) in Hget by done. injection Hget as <-.
  destruct (run_request_terms tr _ _ _ Hr) as (r' & Hr' & Heq).
  rewrite (getEncryptedScore_Some _ _ _ r') by done.
  unfold request_terms in Heq. by injection Heq as _ -> _ _.
Qed.

(** X6. Loans are append-only: whatever transactions follow, the loans of
    a state are still there, at the same ids and with every field as it
    was. *)
Theorem loans_are_append_only (tr : list (Env * Call)) (s : State) :
  loans s `prefix_of` loans (run tr s)
  ∧ ∀ e e' loanId v, getLoan e loanId s = Ok v s →
      getLoan e' loanId (run tr s) = Ok v (run tr s).
Proof.
  assert (loans s `prefix_of` loans (run tr s)) as Hprefix.
  { revert s. induction tr as [|[e c] tr IH]; intros s; [done|].
    rewrite run_cons. etrans; [apply (step_loans_prefix e c)|apply IH]. }
  split; [exact Hprefix|].
  intros e e' loanId v Hget.
  destruct (loans s !! N.to_nat loanId) as [l|] eqn:Hl;
    [|by rewrite getLoan_None in Hget].
  rewrite (getLoan_Some _ _ _ l) in Hget by done. injection Hget as <-.
  apply getLoan_Some. by eapply prefix_lookup_Some.
Qed.

End Counting.

(** The history of [with_loan], continued by two further transactions. *)
Lemma terms_are_immutable_witness :
  (∃ r', borrowerRequests
           (run (fhe := mockFHE)
              [(tx alice, AcceptLoanOffer 0); (tx bob, SubmitBorrowerRequest 640 900 6 proof750)]
              with_two_offers) !! 0%nat = Some r'
         ∧ request_terms r' = (alice, 750, 5000, 12))
  ∧ (∃ o', lenderOffers
             (run (fhe := mockFHE)
                [(tx alice, AcceptLoanOffer 0);
                 (tx bob, SubmitBorrowerRequest 640 900 6 proof750)]
                with_two_offers) !! 0%nat = Some o'
           ∧ offer_terms o' = (bob, 0, 5000, 500, 12))
  ∧ getEncryptedScore (tx carol) 0
      (run (fhe := mockFHE)
         [(tx alice, AcceptLoanOffer 0); (tx bob, SubmitBorrowerRequest 640 900 6 proof750)]
         with_two_offers)
    = Ok 750
        (run (fhe := mockFHE)
           [(tx alice, AcceptLoanOffer 0); (tx bob, SubmitBorrowerRequest 640 900 6 proof750)]
           with_two_offers).
Proof.
  destruct (terms_are_immutable (fhe := mockFHE)
              [(tx alice, AcceptLoanOffer 0); (tx bob, SubmitBorrowerRequest 640 900 6 proof750)]
              with_two_offers) as (Hrequests & Hoffers & Hscore).
  split; [|split].
  - apply (Hrequests 0%nat (BorrowerRequest.mk alice 750 5000 12 true)). reflexivity.
  - apply (Hoffers 0%nat (LenderOffer.mk bob 0 5000 500 12 true)). reflexivity.
  - apply (Hscore (tx bob)). reflexivity.
Defined.

Lemma loans_are_append_only_witness :
  loans with_loan `prefix_of`
    loans (run (fhe := mockFHE) [(tx bob, SubmitBorrowerRequest 640 900 6 proof750)] with_loan)
  ∧ getLoan (tx carol) 0
      (run (fhe := mockFHE) [(tx bob, SubmitBorrowerRequest 640 900 6 proof750)] with_loan)
    = Ok (alice, bob, 5000, 500, 12, 1700000000, true, false)
        (run (fhe := mockFHE) [(tx bob, SubmitBorrowerRequest 640 900 6 proof750)] with_loan).
Proof.
  destruct (loans_are_append_only (fhe := mockFHE)
              [(tx bob, SubmitBorrowerRequest 640 900 6 proof750)] with_loan)
    as (Hprefix & Hget).
  split; [exact Hprefix|].
  apply (Hget (tx bob)). reflexivity.
Defined.

(** ** Loans, as the contract leaves them *)

Section Loans.
Context {fhe : FHE.Library}.

(** X7. No function repays or closes a loan, and none writes
    [nextLoanId]: after any history every loan is active and not repaid,
    [nextLoanId] is still 0 however many loans exist, and no [LoanRepaid]
    event has been logged. *)
Theorem loans_stay_open (tr : list (Env * Call)) :
  nextLoanId (run tr init) = 0
  ∧ (∀ i l, loans (run tr init) !! i = Some l →
       Loan.isActive l = true ∧ Loan.isRepaid l = false)
  ∧ (∀ ev, ev ∈ logs (run tr init) → is_LoanRepaid ev = false).
Proof.
  apply (run_invariant (λ s,
    nextLoanId s = 0
    ∧ (∀ i l, loans s !! i = Some l → Loan.isActive l = true ∧ Loan.isRepaid l = false)
    ∧ (∀ ev, ev ∈ logs s → is_LoanRepaid ev = false))).
  { split; [done|]. split; [done|]. intros ev Hev. by apply elem_of_nil in Hev. }
  intros e c s (Hnext & Hloans & Hlogs).
  apply step_preserves; [done|..]; cbn.
  - intros score amount term _ _. split; [done|]. split; [done|].
    intros ev [Hev| ->%list_elem_of_singleton]%elem_of_app; [by apply Hlogs|done].
  - done.
  - intros requestId amount apr term r _ _ _ _ _. split; [done|]. split; [done|].
    intros ev [Hev| ->%list_elem_of_singleton]%elem_of_app; [by apply Hlogs|done].
  - intros offerId offer request _ _ _ _ _. split; [done|]. split.
    + intros i l [Hl|[_ Hl]]%lookup_app_Some; [by eapply Hloans|].
      by apply list_lookup_singleton_Some in Hl as [_ <-].
    + intros ev [Hev| ->%list_elem_of_singleton]%elem_of_app; [by apply Hlogs|done].
Qed.

(** X8. After any history every stored record carries values that passed
    the checks: requests a positive amount and a term of 1 to 120 months,
    offers and loans moreover a rate of 1 to 10000 basis points, and loans
    a start time below 2^32. *)
Theorem records_are_in_range (tr : list (Env * Call)) :
  (∀ i r, borrowerRequests (run tr init) !! i = Some r → request_in_range r)
  ∧ (∀ i o, lenderOffers (run tr init) !! i = Some o → offer_in_range o)
  ∧ (∀ i l, loans (run tr init) !! i = Some l → loan_in_range l).
Proof.
  apply (run_invariant (λ s,
    (∀ i r, borrowerRequests s !! i = Some r → request_in_range r)
    ∧ (∀ i o, lenderOffers s !! i = Some o → offer_in_range o)
    ∧ (∀ i l, loans s !! i = Some l → loan_in_range l))).
  { done. }
  intros e c s (Hrequests & Hoffers & Hloans).
  apply step_preserves; [done|..]; cbn.
  - intros score amount term Hamount Hterm. split; [|done].
    intros i r [Hr|[_ Hr]]%lookup_app_Some; [by eapply Hrequests|].
    by apply list_lookup_singleton_Some in Hr as [_ <-].
  - done.
  - intros requestId amount apr term r Hamount Hapr Hterm _ _.
    split; [done|]. split; [|done].
    intros i o [Ho|[_ Ho]]%lookup_app_Some; [by eapply Hoffers|].
    by apply list_lookup_singleton_Some in Ho as [_ <-].
  - intros offerId offer request Hoffer _ Hrequest _ _.
    pose proof (Hoffers _ _ Hoffer) as (Hamount & Hapr & Hterm).
    split; [|split].
    + intros i r [(_ & <- & _)|[_ Hr]]%list_lookup_insert_Some; [|by eapply Hrequests].
      exact (Hrequests _ _ Hrequest).
    + intros i o [(_ & <- & _)|[_ Ho]]%list_lookup_insert_Some; [|by eapply Hoffers].
      done.
    + intros i l [Hl|[_ Hl]]%lookup_app_Some; [by eapply Hloans|].
      apply list_lookup_singleton_Some in Hl as [_ <-].
      repeat split; cbn; try tauto. by apply N.mod_lt.
Qed.

Lemma loan_provenance_step (e : Env) (c : Call) (s : State) :
  (∀ i l, loans s !! i = Some l →
     ∃ offerId o r, lenderOffers s !! offerId = Some o
       ∧ borrowerRequests s !! N.to_nat (LenderOffer.borrowerRequestId o) = Some r
       ∧ loan_from l o r) →
  ∀ i l, loans (step e c s) !! i = Some l →
    ∃ offerId o r, lenderOffers (step e c s) !! offerId = Some o
      ∧ borrowerRequests (step e c s) !! N.to_nat (LenderOffer.borrowerRequestId o) = Some r
      ∧ loan_from l o r.
Proof.
  intros Hs.
  apply (step_preserves (λ s', ∀ i l, loans s' !! i = Some l →
    ∃ offerId o r, lenderOffers s' !! offerId = Some o
      ∧ borrowerRequests s' !! N.to_nat (LenderOffer.borrowerRequestId o) = Some r
      ∧ loan_from l o r)); [done|..]; cbn.
  - intros score amount term _ _ i l Hl.
    destruct (Hs i l Hl) as (j & o & r & Ho & Hr & Hfrom).
    exists j, o, r. split; [done|]. split; [by apply lookup_app_l_Some|done].
  - intros _ _ _. exact Hs.
  - intros requestId amount apr term r0 _ _ _ _ _ i l Hl.
    destruct (Hs i l Hl) as (j & o & r & Ho & Hr & Hfrom).
    exists j, o, r. split; [by apply lookup_app_l_Some|done].
  - intros offerId offer request Hoffer Hactive Hrequest Hractive _ i l
      [Hl|[_ Hl]]%lookup_app_Some.
    + destruct (Hs i l Hl) as (j & o & r & Ho & Hr & Hfrom).
      pose proof Hfrom as (Hoclosed & Hrclosed & _).
      assert (j ≠ N.to_nat offerId) as Hj by (intros ->; congruence).
      assert (N.to_nat (LenderOffer.borrowerRequestId o)
              ≠ N.to_nat (LenderOffer.borrowerRequestId offer)) as Hrid
        by (intros Heq; rewrite Heq in Hr; congruence).
      exists j, o, r. by rewrite !list_lookup_insert_ne.
    + apply list_lookup_singleton_Some in Hl as [_ <-].
      exists (N.to_nat offerId), (deactivate_offer offer), (deactivate_request request).
      split; [apply list_lookup_insert_eq; by eapply lookup_lt_Some|].
      split; [apply list_lookup_insert_eq; by eapply lookup_lt_Some|].
      by repeat split.
Qed.

(** X9. After any history every loan comes from an offer of the ledger:
    there is a closed offer whose lender, amount, rate and term are the
    loan's, and the request that offer refers to is closed and has the
    loan's borrower. *)
Theorem loans_come_from_offers (tr : list (Env * Call)) (loanId : N) (l : Loan.t) :
  loans (run tr init) !! N.to_nat loanId = Some l →
  ∃ offerId o r,
    lenderOffers (run tr init) !! offerId = Some o
    ∧ borrowerRequests (run tr init) !! N.to_nat (LenderOffer.borrowerRequestId o) = Some r
    ∧ loan_from l o r.
Proof.
  revert loanId l.
  assert (∀ i l, loans (run tr init) !! i = Some l →
    ∃ offerId o r, lenderOffers (run tr init) !! offerId = Some o
      ∧ borrowerRequests (run tr init) !! N.to_nat (LenderOffer.borrowerRequestId o) = Some r
      ∧ loan_from l o r) as Hall; [|by intros loanId l; apply Hall].
  apply (run_invariant (λ s, ∀ i l, loans s !! i = Some l →
    ∃ offerId o r, lenderOffers s !! offerId = Some o
      ∧ borrowerRequests s !! N.to_nat (LenderOffer.borrowerRequestId o) = Some r
      ∧ loan_from l o r)); [done|].
  intros e c s. apply loan_provenance_step.
Qed.

End Loans.

Lemma loans_stay_open_witness :
  nextLoanId three_requests = 0
  ∧ (∀ i l, loans three_requests !! i = Some l →
       Loan.isActive l = true ∧ Loan.isRepaid l = false)
  ∧ (∀ ev, ev ∈ logs three_requests → is_LoanRepaid ev = false).
Proof.
  exact (loans_stay_open (fhe := mockFHE)
    [(tx alice, SubmitBorrowerRequest 750 5000 12 proof750);
     (tx bob, SubmitBorrowerRequest 640 900 6 proof750);
     (tx carol, SubmitBorrowerRequest 810 70000 120 proof750);
     (tx alice, SubmitLenderOffer 1 900 450 6);
     (tx bob, AcceptLoanOffer 0)]).
Defined.

Lemma records_are_in_range_witness :
  loan_in_range (Loan.mk bob alice 900 450 6 1700000000 true false).
Proof.
  apply (proj2 (proj2 (records_are_in_range (fhe := mockFHE)
    [(tx alice, SubmitBorrowerRequest 750 5000 12 proof750);
     (tx bob, SubmitBorrowerRequest 640 900 6 proof750);
     (tx carol, SubmitBorrowerRequest 810 70000 120 proof750);
     (tx alice, SubmitLenderOffer 1 900 450 6);
     (tx bob, AcceptLoanOffer 0)])) 0%nat).
  reflexivity.
Defined.

Lemma loans_come_from_offers_witness :
  ∃ offerId o r,
    lenderOffers three_requests !! offerId = Some o
    ∧ borrowerRequests three_requests !! N.to_nat (LenderOffer.borrowerRequestId o) = Some r
    ∧ loan_from (Loan.mk bob alice 900 450 6 1700000000 true false) o r.
Proof.
  apply (loans_come_from_offers (fhe := mockFHE)
    [(tx alice, SubmitBorrowerRequest 750 5000 12 proof750);
     (tx bob, SubmitBorrowerRequest 640 900 6 proof750);
     (tx carol, SubmitBorrowerRequest 810 70000 120 proof750);
     (tx alice, SubmitLenderOffer 1 900 450 6);
     (tx bob, AcceptLoanOffer 0)] 0).
  reflexivity.
Defined.

(** ** The event log *)

Lemma imap_snoc {A B} (f : nat → A → B) (l : list A) (x : A) :
  imap f (l ++ [x]) = imap f l ++ [f (length l) x].
Proof. rewrite imap_app. cbn. by rewrite Nat.add_0_r. Qed.

Lemma imap_insert_same {A B} (f : nat → A → B) (l : list A) (i : nat) (x y : A) :
  l !! i = Some x → f i y = f i x → imap f (<[i := y]> l) = imap f l.
Proof.
  intros Hx Hf. apply list_eq. intros j. rewrite !list_lookup_imap.
  destruct (decide (j = i)) as [->|Hne].
  - rewrite list_lookup_insert_eq by (by eapply lookup_lt_Some). rewrite Hx. cbn. by rewrite Hf.
  - by rewrite list_lookup_insert_ne.
Qed.

Section EventLog.
Context {fhe : FHE.Library}.

(** X10. The event log mirrors the ledger.  After any history the
    [NewBorrowerRequest] events, in the order logged, list the requests in
    id order, each with its id, borrower and amount; the [NewLenderOffer]
    events list the offers with id, request, lender and amount; the
    [LoanCreated] events list the loans with id, borrower, lender and
    amount.  So ids are dense from zero and an indexer that replays the
    log misses no record. *)
Theorem log_mirrors_ledger (tr : list (Env * Call)) :
  omap request_event (logs (run tr init)) = request_log (run tr init)
  ∧ omap offer_event (logs (run tr init)) = offer_log (run tr init)
  ∧ omap loan_event (logs (run tr init)) = loan_log (run tr init).
Proof.
  apply (run_invariant (λ s,
    omap request_event (logs s) = request_log s
    ∧ omap offer_event (logs s) = offer_log s
    ∧ omap loan_event (logs s) = loan_log s)); [done|].
  intros e c s (Hrequests & Hoffers & Hloans).
  apply step_preserves; [done|..]; unfold request_log, offer_log, loan_log in *; cbn.
  - intros score amount term _ _.
    rewrite !omap_app, imap_snoc, Hrequests, Hoffers, Hloans. cbn.
    by rewrite !app_nil_r.
  - done.
  - intros requestId amount apr term r _ _ _ _ _.
    rewrite !omap_app, imap_snoc, Hrequests, Hoffers, Hloans. cbn.
    by rewrite !app_nil_r.
  - intros offerId offer request Hoffer _ Hrequest _ _.
    rewrite !omap_app, imap_snoc, Hrequests, Hoffers, Hloans. cbn.
    rewrite !app_nil_r.
    rewrite (imap_insert_same _ _ _ request) by done.
    by rewrite (imap_insert_same _ _ _ offer) by done.
Qed.

(** ** Decryption permissions *)

Lemma step_acl (e : Env) (c : Call) (s : State) :
  acl s ⊆ acl (step e c s)
  ∧ ∀ handle account, (handle, account) ∈ acl (step e c s) →
      (handle, account) ∈ acl s ∨ account = msg_sender e ∨ account = this e.
Proof.
  apply (step_preserves (λ s', acl s ⊆ acl s'
    ∧ ∀ handle account, (handle, account) ∈ acl s' →
        (handle, account) ∈ acl s ∨ account = msg_sender e ∨ account = this e)); cbn.
  - split; [done|auto].
  - intros score amount term _ _. split; [set_solver|].
    intros handle account
      [[= -> ->]%elem_of_singleton|[[= -> ->]%elem_of_singleton|Hold]%elem_of_union]
      %elem_of_union; auto.
  - intros requestId minScore h. split; [set_solver|].
    intros handle account
      [[= -> ->]%elem_of_singleton|[[= -> ->]%elem_of_singleton|Hold]%elem_of_union]
      %elem_of_union; auto.
  - intros. split; [done|auto].
  - intros. split; [done|auto].
Qed.

Lemma run_acl (tr : list (Env * Call)) (s : State) : acl s ⊆ acl (run tr s).
Proof.
  revert s. induction tr as [|[e c] tr IH]; intros s; [done|].
  rewrite run_cons. etrans; [apply (step_acl e c s)|apply IH].
Qed.

(** X11. Transactions never withdraw a decryption permission, and the
    only accounts they grant one to are their own callers and the contract
    itself: a permission found after a sequence of transactions was there
    before, or belongs to the caller or to the contract address of one of
    them.  Nobody obtains a permission by someone else's call. *)
Theorem permissions_go_to_callers (tr : list (Env * Call)) (s : State) :
  acl s ⊆ acl (run tr s)
  ∧ ∀ handle account, (handle, account) ∈ acl (run tr s) →
      (handle, account) ∈ acl s
      ∨ ∃ ec, ec ∈ tr ∧ (account = msg_sender ec.1 ∨ account = this ec.1).
Proof.
  split; [apply run_acl|].
  revert s. induction tr as [|[e c] tr IH]; intros s handle account Hin; [by left|].
  rewrite run_cons in Hin.
  destruct (IH _ _ _ Hin) as [Hstep|(ec & Hec & Hwho)].
  - destruct (proj2 (step_acl e c s) _ _ Hstep) as [Hold|Hwho]; [by left|].
    right. exists (e, c). split; [left|done].
  - right. exists ec. split; [by right|done].
Qed.

(** X12. After any history the borrower of every request is allowed to
    decrypt that request's score, and whoever a cached comparison result is
    stored for is allowed to decrypt it. *)
Theorem permissions_are_kept (tr : list (Env * Call)) :
  (∀ i r, borrowerRequests (run tr init) !! i = Some r →
     (BorrowerRequest.encryptedScore r, BorrowerRequest.borrower r) ∈ acl (run tr init))
  ∧ (∀ requestId minScore caller handle,
       comparisonResults (run tr init) !! (requestId, minScore, caller) = Some handle →
       (handle, caller) ∈ acl (run tr init)).
Proof.
  apply (run_invariant (λ s,
    (∀ i r, borrowerRequests s !! i = Some r →
       (BorrowerRequest.encryptedScore r, BorrowerRequest.borrower r) ∈ acl s)
    ∧ (∀ requestId minScore caller handle,
         comparisonResults s !! (requestId, minScore, caller) = Some handle →
         (handle, caller) ∈ acl s))); [done|].
  intros e c s (Hscores & Hcache).
  apply step_preserves; [done|..]; cbn.
  - intros score amount term _ _. split.
    + intros i r [Hr|[_ Hr]]%lookup_app_Some.
      * specialize (Hscores _ _ Hr). set_solver.
      * apply list_lookup_singleton_Some in Hr as [_ <-]. cbn. set_solver.
    + intros requestId minScore caller handle Hh.
      specialize (Hcache _ _ _ _ Hh). set_solver.
  - intros requestId minScore handle. split.
    + intros i r Hr. specialize (Hscores _ _ Hr). set_solver.
    + intros requestId' minScore' caller handle' Hh.
      apply lookup_insert_Some in Hh as [[Hkey <-]|[_ Hh]].
      * injection Hkey as _ _ <-. set_solver.
      * specialize (Hcache _ _ _ _ Hh). set_solver.
  - done.
  - intros offerId offer request _ _ Hrequest _ _. split; [|done].
    intros i r [(_ & <- & _)|[_ Hr]]%list_lookup_insert_Some; [|by eapply Hscores].
    exact (Hscores _ _ Hrequest).
Qed.

End EventLog.

(** Bob's query after Alice's request: the permissions found afterwards
    are Alice's, Bob's and the ledger's. *)
Lemma permissions_go_to_callers_witness :
  acl init ⊆
    acl (run (fhe := mockFHE)
           [(tx alice, SubmitBorrowerRequest 750 5000 12 proof750);
            (tx bob, CheckScoreMatch 0 700)] init)
  ∧ ∀ handle account,
      (handle, account)
        ∈ acl (run (fhe := mockFHE)
                 [(tx alice, SubmitBorrowerRequest 750 5000 12 proof750);
                  (tx bob, CheckScoreMatch 0 700)] init) →
      (handle, account) ∈ acl init
      ∨ ∃ ec, ec ∈ [(tx alice, SubmitBorrowerRequest 750 5000 12 proof750);
                    (tx bob, CheckScoreMatch 0 700)]
              ∧ (account = msg_sender ec.1 ∨ account = this ec.1).
Proof.
  exact (permissions_go_to_callers (fhe := mockFHE)
           [(tx alice, SubmitBorrowerRequest 750 5000 12 proof750);
            (tx bob, CheckScoreMatch 0 700)] init).
Defined.

Lemma permissions_are_kept_witness :
  (750, alice)
    ∈ acl (run (fhe := mockFHE)
             [(tx alice, SubmitBorrowerRequest 750 5000 12 proof750);
              (tx bob, CheckScoreMatch 0 700)] init)
  ∧ (2, bob)
      ∈ acl (run (fhe := mockFHE)
               [(tx alice, SubmitBorrowerRequest 750 5000 12 proof750);
                (tx bob, CheckScoreMatch 0 700)] init).
Proof.
  destruct (permissions_are_kept (fhe := mockFHE)
              [(tx alice, SubmitBorrowerRequest 750 5000 12 proof750);
               (tx bob, CheckScoreMatch 0 700)]) as (Hscores & Hcache).
  split.
  - apply (Hscores 0%nat (BorrowerRequest.mk alice 750 5000 12 true)). reflexivity.
  - apply (Hcache 0 700 bob 2). vm_compute. reflexivity.
Defined.

(** ** How the functions compose *)

Lemma active_ids_ext (reqs reqs' : list BorrowerRequest.t) (k : nat) :
  (∀ i, (i < k)%nat → active_at reqs i = active_at reqs' i) →
  active_ids reqs k = active_ids reqs' k.
Proof.
  induction k as [|k IH]; intros Hsame; [done|].
  assert (active_ids reqs k = active_ids reqs' k) as Hk by (apply IH; intros; apply Hsame; lia).
  destruct (active_at reqs k) eqn:Hat.
  - rewrite !active_ids_S_active by (done || by rewrite <-Hsame by lia). by rewrite Hk.
  - by rewrite !active_ids_S_inactive by (done || by rewrite <-Hsame by lia).
Qed.

Lemma active_ids_snoc (reqs : list BorrowerRequest.t) (r : BorrowerRequest.t) :
  BorrowerRequest.isActive r = true →
  active_ids (reqs ++ [r]) (length (reqs ++ [r])) =
    active_ids reqs (length reqs) ++ [N.of_nat (length reqs)].
Proof.
  intros Hactive. rewrite length_app. cbn [length]. rewrite Nat.add_1_r.
  rewrite active_ids_S_active.
  - f_equal. apply active_ids_ext. intros i Hi. unfold active_at.
    by rewrite lookup_app_l.
  - unfold active_at. by rewrite list_lookup_middle.
Qed.

Lemma active_ids_deactivate (reqs : list BorrowerRequest.t) (j k : nat)
    (r : BorrowerRequest.t) :
  reqs !! j = Some r →
  active_ids (<[j := deactivate_request r]> reqs) k =
    filter (λ i, i ≠ N.of_nat j) (active_ids reqs k).
Proof.
  intros Hr. induction k as [|k IH]; [done|].
  destruct (decide (k = j)) as [->|Hne].
  - rewrite active_ids_S_inactive, IH.
    + destruct (active_at reqs j) eqn:Hat.
      * rewrite (active_ids_S_active reqs) by done.
        by rewrite filter_app, filter_cons_False, filter_nil, app_nil_r by (intros Hj; by apply Hj).
      * by rewrite (active_ids_S_inactive reqs).
    + unfold active_at. by rewrite list_lookup_insert_eq by (by eapply lookup_lt_Some).
  - assert (active_at (<[j := deactivate_request r]> reqs) k = active_at reqs k) as Hsame
      by (unfold active_at; by rewrite list_lookup_insert_ne).
    destruct (active_at reqs k) eqn:Hat.
    + rewrite !active_ids_S_active, IH by done.
      by rewrite filter_app, filter_cons_True, filter_nil by lia.
    + by rewrite !active_ids_S_inactive, IH.
Qed.

Section Composition.
Context {fhe : FHE.Library}.

(** X13. A request that has just been submitted is a match: if
    [submitBorrowerRequest] succeeds, [findMatches] afterwards returns what
    it returned before, followed by the id of the new request. *)
Theorem findMatches_after_submitBorrowerRequest (e : Env) (s s' : State)
    (encryptedScore amount term : N) (inputProof : list Byte.byte) (ids : list N)
    (e1 e2 : Env) (threshold1 threshold2 : N) :
  submitBorrowerRequest e encryptedScore amount term inputProof s = Ok tt s' →
  findMatches e1 threshold1 s = Ok ids s →
  findMatches e2 threshold2 s' = Ok (ids ++ [N.of_nat (length (borrowerRequests s))]) s'.
Proof.
  intros Hsubmit Hbefore.
  apply submitBorrowerRequest_inv in Hsubmit as (score & _ & _ & _ & ->).
  rewrite findMatches_eq in Hbefore. injection Hbefore as <-.
  rewrite findMatches_eq. cbn [borrowerRequests request_submitted].
  by rewrite active_ids_snoc.
Qed.

(** X14. A request whose offer has just been accepted is no longer a
    match: if [acceptLoanOffer] succeeds on an offer, [findMatches]
    afterwards returns what it returned before without the id of that
    offer's request, and nothing else is lost. *)
Theorem findMatches_after_acceptLoanOffer (e : Env) (s s' : State) (offerId : N)
    (o : LenderOffer.t) (ids : list N) (e1 e2 : Env) (threshold1 threshold2 : N) :
  acceptLoanOffer e offerId s = Ok tt s' →
  lenderOffers s !! N.to_nat offerId = Some o →
  findMatches e1 threshold1 s = Ok ids s →
  findMatches e2 threshold2 s' =
    Ok (filter (λ i, i ≠ LenderOffer.borrowerRequestId o) ids) s'.
Proof.
  intros Haccept Ho Hbefore.
  apply acceptLoanOffer_inv in Haccept as (offer & request & Ho' & _ & Hr & _ & _ & _ & ->).
  rewrite Ho in Ho'. injection Ho' as <-.
  rewrite findMatches_eq in Hbefore. injection Hbefore as <-.
  rewrite findMatches_eq. cbn [borrowerRequests offer_accepted].
  rewrite length_insert, (active_ids_deactivate _ _ _ request) by done.
  by rewrite N2Nat.id.
Qed.

(** X15. An accepted offer is spent for good.  After [acceptLoanOffer] has
    succeeded on an offer, and whatever transactions follow, accepting that
    offer again fails with InactiveOffer, and on its request
    [submitLenderOffer] and [checkScoreMatch] fail with InactiveRequest:
    no second loan, no further offer and no further score check. *)
Theorem accepted_offer_is_spent (e : Env) (s s1 : State) (offerId : N)
    (o : LenderOffer.t) (tr : list (Env * Call)) (e' : Env) :
  acceptLoanOffer e offerId s = Ok tt s1 →
  lenderOffers s !! N.to_nat offerId = Some o →
  fails_with (acceptLoanOffer e' offerId (run tr s1)) InactiveOffer
  ∧ (∀ amount apr term,
       fails_with
         (submitLenderOffer e' (LenderOffer.borrowerRequestId o) amount apr term (run tr s1))
         InactiveRequest)
  ∧ (∀ minScore,
       fails_with (checkScoreMatch e' (LenderOffer.borrowerRequestId o) minScore (run tr s1))
         InactiveRequest).
Proof.
  intros Haccept Ho.
  apply acceptLoanOffer_inv in Haccept as (offer & request & Ho' & _ & Hr & _ & _ & _ & ->).
  rewrite Ho in Ho'. injection Ho' as <-.
  destruct (run_offer_kept tr (offer_accepted e offerId request o s) (N.to_nat offerId)
              (deactivate_offer o)) as (o' & Ho' & Hoclosed).
  { cbn. apply list_lookup_insert_eq. by eapply lookup_lt_Some. }
  destruct (run_request_kept tr (offer_accepted e offerId request o s)
              (N.to_nat (LenderOffer.borrowerRequestId o)) (deactivate_request request))
    as (r' & Hr' & Hrclosed).
  { cbn. apply list_lookup_insert_eq. by eapply lookup_lt_Some. }
  split; [|split].
  - rewrite (acceptLoanOffer_inactive_offer _ _ _ o') by auto. done.
  - intros amount apr term.
    rewrite (submitLenderOffer_inactive_request _ _ _ _ _ _ r') by auto. done.
  - intros minScore.
    rewrite (checkScoreMatch_inactive_request _ _ _ _ r') by auto. done.
Qed.

(** X16. Asking again changes nothing: when [checkScoreMatch] has
    succeeded, the same call by the same caller on the resulting state
    returns the same handle and leaves that state exactly as it is. *)
Theorem checkScoreMatch_again (e : Env) (s s1 : State) (requestId minScore handle : N) :
  checkScoreMatch e requestId minScore s = Ok handle s1 →
  checkScoreMatch e requestId minScore s1 = Ok handle s1.
Proof.
  intros Hfirst.
  apply checkScoreMatch_inv in Hfirst as (r & Hr & Hactive & -> & ->).
  rewrite (checkScoreMatch_ok _ _ _ _ r) by done. cbn zeta. f_equal.
  unfold score_checked. cbn. f_equal.
  - apply insert_insert_eq.
  - apply set_eq. intros x. rewrite !elem_of_union. tauto.
Qed.

End Composition.

Lemma findMatches_after_submitBorrowerRequest_witness :
  findMatches (tx carol) 800
    (commit (submitBorrowerRequest (fhe := mockFHE) (tx bob) 640 900 6 proof750) with_request)
  = Ok ([0] ++ [N.of_nat (length (borrowerRequests with_request))])
      (commit (submitBorrowerRequest (fhe := mockFHE) (tx bob) 640 900 6 proof750)
         with_request).
Proof.
  apply (findMatches_after_submitBorrowerRequest (fhe := mockFHE) (tx bob) with_request _
           640 900 6 proof750 [0] (tx carol) (tx carol) 700 800).
  - vm_compute. reflexivity.
  - vm_compute. reflexivity.
Defined.

Lemma findMatches_after_acceptLoanOffer_witness :
  findMatches (tx carol) 800 with_loan
  = Ok (filter (λ i, i ≠ LenderOffer.borrowerRequestId (LenderOffer.mk bob 0 5000 500 12 true))
          [0])
      with_loan.
Proof.
  apply (findMatches_after_acceptLoanOffer (tx alice) with_two_offers with_loan 0
           (LenderOffer.mk bob 0 5000 500 12 true) [0] (tx carol) (tx carol) 700 800).
  - vm_compute. reflexivity.
  - reflexivity.
  - vm_compute. reflexivity.
Defined.

Lemma accepted_offer_is_spent_witness :
  fails_with
    (acceptLoanOffer (tx alice) 0
       (run (fhe := mockFHE) [(tx bob, SubmitBorrowerRequest 640 900 6 proof750)] with_loan))
    InactiveOffer
  ∧ (∀ amount apr term,
       fails_with
         (submitLenderOffer (tx alice) (LenderOffer.borrowerRequestId
                                          (LenderOffer.mk bob 0 5000 500 12 true))
            amount apr term
            (run (fhe := mockFHE) [(tx bob, SubmitBorrowerRequest 640 900 6 proof750)]
               with_loan))
         InactiveRequest)
  ∧ (∀ minScore,
       fails_with
         (checkScoreMatch (fhe := mockFHE) (tx alice)
            (LenderOffer.borrowerRequestId (LenderOffer.mk bob 0 5000 500 12 true)) minScore
            (run (fhe := mockFHE) [(tx bob, SubmitBorrowerRequest 640 900 6 proof750)]
               with_loan))
         InactiveRequest).
Proof.
  apply (accepted_offer_is_spent (fhe := mockFHE) (tx alice) with_two_offers with_loan 0
           (LenderOffer.mk bob 0 5000 500 12 true)).
  - vm_compute. reflexivity.
  - reflexivity.
Defined.

Lemma checkScoreMatch_again_witness :
  checkScoreMatch (fhe := mockFHE) (tx bob) 0 700
    (commit (checkScoreMatch (fhe := mockFHE) (tx bob) 0 700) with_request)
  = Ok 2 (commit (checkScoreMatch (fhe := mockFHE) (tx bob) 0 700) with_request).
Proof.
  apply (checkScoreMatch_again (fhe := mockFHE) (tx bob) with_request).
  vm_compute. reflexivity.
Defined.

(** ** The client's list of offers *)

Section ClientOffers.
Context {fhe : FHE.Library}.

Lemma served_count (e : Env) (s : State) :
  msg_value e = 0 →
  served_by e s GetLenderOffersCount = Some (RetWord (N.of_nat (length (lenderOffers s)))).
Proof.
  intros Hvalue. unfold served_by. cbn [call]. unfold nonpayable.
  apply N.eqb_eq in Hvalue. by rewrite Hvalue.
Qed.

Lemma served_offer (e : Env) (s : State) (i : nat) (o : LenderOffer.t) :
  msg_value e = 0 →
  lenderOffers s !! i = Some o →
  served_by e s (GetLenderOffer (N.of_nat i)) =
    Some (RetTuple [LenderOffer.lender o; LenderOffer.borrowerRequestId o;
                    LenderOffer.amount o; LenderOffer.apr o; LenderOffer.term o;
                    word_of_bool (LenderOffer.isActive o)]).
Proof.
  intros Hvalue Ho. unfold served_by. cbn [call]. unfold nonpayable.
  apply N.eqb_eq in Hvalue. rewrite Hvalue.
  unfold mbind at 1 2, M_bind, mret at 1, M_ret.
  rewrite (getLenderOffer_Some _ _ _ o) by (by rewrite Nat2N.id). done.
Qed.

Lemma collect_served (e : Env) (s : State) (requestId : N) (k : nat) :
  msg_value e = 0 →
  (k ≤ length (lenderOffers s))%nat →
  foldl (Client.collect (served_by e s) requestId) [] (N.of_nat <$> seq 0 k) =
    active_offers_on requestId (lenderOffers s) k.
Proof.
  intros Hvalue. induction k as [|k IH]; intros Hk; [done|].
  rewrite seq_S, fmap_app, foldl_app, IH by lia. cbn [fmap list_fmap foldl Nat.add].
  destruct (lookup_lt_is_Some_2 (lenderOffers s) k) as [o Ho]; [lia|].
  unfold Client.collect. rewrite (served_offer e s k o) by done.
  cbn [active_offers_on]. rewrite Ho.
  destruct (LenderOffer.isActive o) eqn:Hactive; cbn [word_of_bool];
    destruct (LenderOffer.borrowerRequestId o =? requestId); cbn;
    rewrite ?app_nil_r; try done.
  unfold offer_view. by rewrite Hactive.
Qed.

Lemma getOffersForRequest_served (e : Env) (s : State) (address : string) (requestId : N) :
  msg_value e = 0 →
  address ≠ EmptyString →
  Client.getOffersForRequest (Some (served_by e s)) (Some address) requestId =
    active_offers_on requestId (lenderOffers s) (length (lenderOffers s)).
Proof.
  intros Hvalue Haddress. unfold Client.getOffersForRequest.
  destruct address as [|a address]; [done|]. cbn [Client.truthy].
  rewrite served_count by done. rewrite Nat2N.id. by apply collect_served.
Qed.

Lemma elem_of_active_offers_on (requestId : N) (offers : list LenderOffer.t) (k : nat)
    (v : Client.Offer) :
  v ∈ active_offers_on requestId offers k ↔
    ∃ i o, (i < k)%nat ∧ offers !! i = Some o
           ∧ LenderOffer.borrowerRequestId o = requestId
           ∧ LenderOffer.isActive o = true
           ∧ v = offer_view (N.of_nat i) o.
Proof.
  induction k as [|k IH]; cbn [active_offers_on].
  { split; [by intros ?%elem_of_nil|]. intros (i & o & Hi & _). lia. }
  rewrite elem_of_app, IH. split.
  - intros [(i & o & Hi & Hrest)|Hlast].
    + exists i, o. split; [lia|done].
    + destruct (offers !! k) as [o|] eqn:Ho; [|by apply elem_of_nil in Hlast].
      destruct (LenderOffer.borrowerRequestId o =? requestId) eqn:Hrid;
        [|by apply elem_of_nil in Hlast].
      destruct (LenderOffer.isActive o) eqn:Hactive; [|by apply elem_of_nil in Hlast].
      cbn in Hlast. apply list_elem_of_singleton in Hlast as ->.
      apply N.eqb_eq in Hrid. exists k, o. split; [lia|done].
  - intros (i & o & Hi & Ho & Hrid & Hactive & ->).
    destruct (decide (i = k)) as [->|Hne].
    + right. rewrite Ho. apply N.eqb_eq in Hrid. rewrite Hrid, Hactive. cbn.
      by apply list_elem_of_singleton.
    + left. exists i, o. split; [lia|done].
Qed.

Lemma active_offers_on_sorted (requestId : N) (offers : list LenderOffer.t) (k : nat) :
  StronglySorted (λ v w, Client.offerId v < Client.offerId w)
    (active_offers_on requestId offers k).
Proof.
  induction k as [|k IH]; [constructor|]. cbn [active_offers_on].
  apply StronglySorted_app_2; [|done|].
  - intros v w Hv Hw. apply elem_of_active_offers_on in Hv as (i & o & Hi & _ & _ & _ & ->).
    destruct (offers !! k) as [o'|]; [|by apply elem_of_nil in Hw].
    destruct (_ && _); [|by apply elem_of_nil in Hw].
    apply list_elem_of_singleton in Hw as ->. cbn. lia.
  - destruct (offers !! k) as [o'|]; [|constructor].
    destruct (_ && _); repeat constructor.
Qed.

(** X17. [getOffersForRequest], reading a ledger that answers every call
    from one state, returns exactly the offers on the given request whose
    [isActive] is true, each with its id and stored fields, ordered by id.
    Without a client, or without a contract address, it returns the empty
    list. *)
Theorem getOffersForRequest_lists_active_offers (e : Env) (s : State) (address : string)
    (requestId : N) :
  msg_value e = 0 →
  address ≠ EmptyString →
  (∀ v, v ∈ Client.getOffersForRequest (Some (served_by e s)) (Some address) requestId ↔
     ∃ o, lenderOffers s !! N.to_nat (Client.offerId v) = Some o
          ∧ LenderOffer.borrowerRequestId o = requestId
          ∧ LenderOffer.isActive o = true
          ∧ v = offer_view (Client.offerId v) o)
  ∧ StronglySorted (λ v w, Client.offerId v < Client.offerId w)
      (Client.getOffersForRequest (Some (served_by e s)) (Some address) requestId)
  ∧ Client.getOffersForRequest None (Some address) requestId = []
  ∧ Client.getOffersForRequest (Some (served_by e s)) None requestId = []
  ∧ Client.getOffersForRequest (Some (served_by e s)) (Some EmptyString) requestId = [].
Proof.
  intros Hvalue Haddress. rewrite getOffersForRequest_served by done.
  split; [|split; [apply active_offers_on_sorted|done]].
  intros v. rewrite elem_of_active_offers_on. split.
  - intros (i & o & Hi & Ho & Hrid & Hactive & ->). exists o. cbn.
    by rewrite Nat2N.id.
  - intros (o & Ho & Hrid & Hactive & Hv).
    exists (N.to_nat (Client.offerId v)), o.
    split; [by eapply lookup_lt_Some|]. by rewrite N2Nat.id.
Qed.

(** X18. The list can show an offer that can no longer be accepted.  When
    an offer on a request has been accepted, another active offer on the
    same request is still returned by [getOffersForRequest], unchanged,
    although [acceptLoanOffer] on it can only fail with InactiveRequest. *)
Theorem getOffersForRequest_keeps_stale_offers (e e1 e2 : Env) (s s1 : State)
    (address : string) (A B : N) (offerA offerB : LenderOffer.t) :
  msg_value e1 = 0 →
  address ≠ EmptyString →
  A ≠ B →
  lenderOffers s !! N.to_nat A = Some offerA →
  lenderOffers s !! N.to_nat B = Some offerB →
  LenderOffer.isActive offerB = true →
  LenderOffer.borrowerRequestId offerA = LenderOffer.borrowerRequestId offerB →
  acceptLoanOffer e A s = Ok tt s1 →
  offer_view B offerB
    ∈ Client.getOffersForRequest (Some (served_by e1 s1)) (Some address)
        (LenderOffer.borrowerRequestId offerB)
  ∧ fails_with (acceptLoanOffer e2 B s1) InactiveRequest.
Proof.
  intros Hvalue Haddress Hne HA HB HBactive Hsame Haccept.
  apply acceptLoanOffer_inv in Haccept as (offer & request & Ho & _ & Hr & _ & _ & _ & ->).
  rewrite HA in Ho. injection Ho as <-.
  assert (lenderOffers (offer_accepted e A request offerA s) !! N.to_nat B = Some offerB)
    as Hsibling by (cbn; by rewrite list_lookup_insert_ne by lia).
  split.
  - rewrite getOffersForRequest_served by done.
    apply elem_of_active_offers_on. exists (N.to_nat B), offerB.
    split; [by eapply lookup_lt_Some|]. by rewrite N2Nat.id.
  - rewrite (acceptLoanOffer_inactive_request _ _ _ offerB (deactivate_request request));
      [done|done|done| |done].
    cbn. rewrite <-Hsame. apply list_lookup_insert_eq. by eapply lookup_lt_Some.
Qed.

End ClientOffers.

Lemma getOffersForRequest_lists_active_offers_witness :
  (∀ v, v ∈ Client.getOffersForRequest (Some (served_by (fhe := mockFHE) (tx alice)
                                                with_two_offers))
              (Some "0x5FbDB2315678afecb367f032d93F642f64180aa3") 0 ↔
     ∃ o, lenderOffers with_two_offers !! N.to_nat (Client.offerId v) = Some o
          ∧ LenderOffer.borrowerRequestId o = 0
          ∧ LenderOffer.isActive o = true
          ∧ v = offer_view (Client.offerId v) o)
  ∧ StronglySorted (λ v w, Client.offerId v < Client.offerId w)
      (Client.getOffersForRequest (Some (served_by (fhe := mockFHE) (tx alice)
                                           with_two_offers))
         (Some "0x5FbDB2315678afecb367f032d93F642f64180aa3") 0)
  ∧ Client.getOffersForRequest None (Some "0x5FbDB2315678afecb367f032d93F642f64180aa3") 0 = []
  ∧ Client.getOffersForRequest (Some (served_by (fhe := mockFHE) (tx alice) with_two_offers))
      None 0 = []
  ∧ Client.getOffersForRequest (Some (served_by (fhe := mockFHE) (tx alice) with_two_offers))
      (Some EmptyString) 0 = [].
Proof.
  apply (getOffersForRequest_lists_active_offers (fhe := mockFHE) (tx alice) with_two_offers
           "0x5FbDB2315678afecb367f032d93F642f64180aa3" 0); [reflexivity|discriminate].
Defined.

Lemma getOffersForRequest_keeps_stale_offers_witness :
  offer_view 1 (LenderOffer.mk carol 0 4000 300 24 true)
    ∈ Client.getOffersForRequest (Some (served_by (fhe := mockFHE) (tx alice) with_loan))
        (Some "0x5FbDB2315678afecb367f032d93F642f64180aa3")
        (LenderOffer.borrowerRequestId (LenderOffer.mk carol 0 4000 300 24 true))
  ∧ fails_with (acceptLoanOffer (tx alice) 1 with_loan) InactiveRequest.
Proof.
  apply (getOffersForRequest_keeps_stale_offers (fhe := mockFHE) (tx alice) (tx alice)
           (tx alice) with_two_offers with_loan
           "0x5FbDB2315678afecb367f032d93F642f64180aa3" 0 1
           (LenderOffer.mk bob 0 5000 500 12 true) (LenderOffer.mk carol 0 4000 300 24 true));
    [reflexivity|discriminate|discriminate|reflexivity|reflexivity|reflexivity|reflexivity|
     vm_compute; reflexivity].
Defined.

Example getOffersForRequest_scenario :
  Client.getOffersForRequest (Some (served_by (fhe := mockFHE) (tx alice) with_loan))
    (Some "0x5FbDB2315678afecb367f032d93F642f64180aa3") 0
  = [Client.mkOffer 1 carol 0 4000 300 24 true].
Proof. vm_compute. reflexivity. Qed.

(** ** Who can close a record, and what a score check discloses *)

Section Closing.
Context {fhe : FHE.Library}.

(** X19. Nothing but a successful [acceptLoanOffer] closes a request or an
    offer, and its caller is the borrower of the request.  If a
    transaction turns a request from active to closed, it is an acceptance,
    sent without value by that request's borrower, of an active offer on
    it; if it turns an offer from active to closed, it is the acceptance of
    that very offer by the borrower of the request the offer refers to.
    Borrowers cannot cancel a request otherwise and lenders cannot
    withdraw an offer. *)
Theorem only_acceptance_closes (e : Env) (c : Call) (s : State) :
  (∀ i r r',
     borrowerRequests s !! i = Some r → BorrowerRequest.isActive r = true →
     borrowerRequests (step e c s) !! i = Some r' → BorrowerRequest.isActive r' = false →
     ∃ offerId o,
       c = AcceptLoanOffer offerId
       ∧ lenderOffers s !! N.to_nat offerId = Some o
       ∧ LenderOffer.isActive o = true
       ∧ N.to_nat (LenderOffer.borrowerRequestId o) = i
       ∧ msg_sender e = BorrowerRequest.borrower r
       ∧ msg_value e = 0)
  ∧ (∀ j o o',
       lenderOffers s !! j = Some o → LenderOffer.isActive o = true →
       lenderOffers (step e c s) !! j = Some o' → LenderOffer.isActive o' = false →
       ∃ r,
         c = AcceptLoanOffer (N.of_nat j)
         ∧ borrowerRequests s !! N.to_nat (LenderOffer.borrowerRequestId o) = Some r
         ∧ BorrowerRequest.isActive r = true
         ∧ msg_sender e = BorrowerRequest.borrower r
         ∧ msg_value e = 0).
Proof.
  unfold step, commit.
  destruct (call e c s) as [ret s'|? ?|? ?|?] eqn:Hcall;
    try (split; intros; congruence).
  pose proof (call_success_inv e c s s' ret Hcall) as Hok.
  destruct c; cbn [call_success] in Hok;
    try (rewrite Hok; split; intros; congruence).
  - destruct Hok as (_ & _ & score & _ & ->). cbn. split; [|intros; congruence].
    intros i r r' Hr Hactive Hr' Hclosed.
    rewrite (lookup_app_l_Some _ _ _ _ Hr) in Hr'. congruence.
  - destruct Hok as (r0 & _ & _ & ->). cbn. split; intros; congruence.
  - destruct Hok as (_ & _ & _ & r0 & _ & _ & ->). cbn. split; [intros; congruence|].
    intros j o o' Ho Hactive Ho' Hclosed.
    rewrite (lookup_app_l_Some _ _ _ _ Ho) in Ho'. congruence.
  - destruct Hok as (offer & request & Hoffer & Hoactive & Hrequest & Hractive & Hsender & ->).
    assert (msg_value e = 0) as Hvalue.
    { cbn [call] in Hcall. apply mbind_inv in Hcall as (? & ? & Haccept & _).
      by apply acceptLoanOffer_inv in Haccept as (? & ? & _ & _ & _ & _ & _ & ? & _). }
    cbn. split.
    + intros i r r' Hr Hactive Hr' Hclosed.
      destruct (decide (i = N.to_nat (LenderOffer.borrowerRequestId offer))) as [->|Hne];
        [|rewrite list_lookup_insert_ne in Hr' by done; congruence].
      rewrite Hrequest in Hr. injection Hr as <-.
      exists offerId, offer. done.
    + intros j o o' Ho Hactive Ho' Hclosed.
      destruct (decide (j = N.to_nat offerId)) as [->|Hne];
        [|rewrite list_lookup_insert_ne in Ho' by done; congruence].
      rewrite Hoffer in Ho. injection Ho as <-.
      exists request. by rewrite N2Nat.id.
Qed.

(** X20. A score check discloses its result and nothing else.  A
    successful [checkScoreMatch] adds permissions on the handle of its
    comparison result only, for its caller and for the contract: the
    accounts allowed to decrypt any other handle, above all the encrypted
    score when the library gives the result a handle of its own, are the
    same before and after. *)
Theorem score_check_discloses_result_only (e : Env) (s s' : State)
    (requestId minScore result : N) :
  checkScoreMatch e requestId minScore s = Ok result s' →
  (∀ handle account, (handle, account) ∈ acl s' →
     (handle, account) ∈ acl s
     ∨ handle = result ∧ (account = msg_sender e ∨ account = this e))
  ∧ (∀ handle account, handle ≠ result →
       ((handle, account) ∈ acl s' ↔ (handle, account) ∈ acl s)).
Proof.
  intros Hcheck.
  apply checkScoreMatch_inv in Hcheck as (r & _ & _ & _ & ->). cbn.
  split.
  - intros handle account
      [[= -> ->]%elem_of_singleton|[[= -> ->]%elem_of_singleton|Hold]%elem_of_union]
      %elem_of_union; auto.
  - intros handle account Hne. rewrite !elem_of_union, !elem_of_singleton.
    split; [|auto]. intros [[= -> _]|[[= -> _]|Hold]]; done.
Qed.

End Closing.

Lemma only_acceptance_closes_witness :
  ∃ offerId o,
    AcceptLoanOffer 0 = AcceptLoanOffer offerId
    ∧ lenderOffers with_two_offers !! N.to_nat offerId = Some o
    ∧ LenderOffer.isActive o = true
    ∧ N.to_nat (LenderOffer.borrowerRequestId o) = 0%nat
    ∧ msg_sender (tx alice) = BorrowerRequest.borrower (BorrowerRequest.mk alice 750 5000 12 true)
    ∧ msg_value (tx alice) = 0.
Proof.
  apply (proj1 (only_acceptance_closes (fhe := mockFHE) (tx alice) (AcceptLoanOffer 0)
                  with_two_offers)
           0%nat (BorrowerRequest.mk alice 750 5000 12 true)
           (BorrowerRequest.mk alice 750 5000 12 false)); reflexivity.
Defined.

Lemma score_check_discloses_result_only_witness :
  (∀ handle account,
     (handle, account)
       ∈ acl (commit (checkScoreMatch (fhe := mockFHE) (tx bob) 0 700) with_request) →
     (handle, account) ∈ acl with_request
     ∨ handle = 2 ∧ (account = msg_sender (tx bob) ∨ account = this (tx bob)))
  ∧ (∀ handle account, handle ≠ 2 →
       ((handle, account)
          ∈ acl (commit (checkScoreMatch (fhe := mockFHE) (tx bob) 0 700) with_request)
        ↔ (handle, account) ∈ acl with_request)).
Proof.
  apply (score_check_discloses_result_only (fhe := mockFHE) (tx bob) with_request _ 0 700 2).
  vm_compute. reflexivity.
Defined.

(** ** Hexadecimal strings *)

Lemma byteHex_two_digits (b : Byte.byte) :
  ∃ c1 c2, Hex.byteHex b = String c1 (String c2 EmptyString).
Proof. destruct b; by eexists _, _. Qed.

Lemma unhex_byteHex (b : Byte.byte) : Hex.unhex (Hex.byteHex b) = Some b.
Proof. destruct b; vm_compute; reflexivity. Qed.

Lemma byteHex_inj (b b' : Byte.byte) : Hex.byteHex b = Hex.byteHex b' → b = b'.
Proof.
  intros Heq. apply (f_equal Hex.unhex) in Heq.
  rewrite !unhex_byteHex in Heq. by injection Heq.
Qed.

Lemma join_cons (part : string) (parts : list string) :
  Hex.join (part :: parts) = String.append part (Hex.join parts).
Proof. reflexivity. Qed.

Lemma two_digits_append (c1 c2 : Ascii.ascii) (rest : string) :
  String.append (String c1 (String c2 EmptyString)) rest = String c1 (String c2 rest).
Proof. reflexivity. Qed.

Lemma join_byteHex_inj (bytes bytes' : list Byte.byte) :
  Hex.join (Hex.byteHex <$> bytes) = Hex.join (Hex.byteHex <$> bytes') → bytes = bytes'.
Proof.
  revert bytes'. induction bytes as [|b bytes IH]; intros [|b' bytes'] Heq;
    rewrite ?fmap_cons, ?join_cons in Heq.
  - done.
  - destruct (byteHex_two_digits b') as (c1 & c2 & Hb').
    by rewrite Hb', two_digits_append in Heq.
  - destruct (byteHex_two_digits b) as (c1 & c2 & Hb).
    by rewrite Hb, two_digits_append in Heq.
  - destruct (byteHex_two_digits b) as (c1 & c2 & Hb).
    destruct (byteHex_two_digits b') as (c1' & c2' & Hb').
    rewrite Hb, Hb', !two_digits_append in Heq. injection Heq as -> -> Hrest.
    f_equal; [|by apply IH].
    apply byteHex_inj. by rewrite Hb, Hb'.
Qed.

Lemma join_byteHex_length (bytes : list Byte.byte) :
  String.length (Hex.join (Hex.byteHex <$> bytes)) = (2 * length bytes)%nat.
Proof.
  induction bytes as [|b bytes IH]; [done|].
  destruct (byteHex_two_digits b) as (c1 & c2 & Hb).
  rewrite fmap_cons, join_cons, Hb, two_digits_append. cbn [String.length].
  rewrite IH. cbn [length]. lia.
Qed.

Lemma withPrefix_starts (s : string) : Hex.startsWith0x (Hex.withPrefix s) = true.
Proof. unfold Hex.withPrefix. by destruct (Hex.startsWith0x s) eqn:Hs. Qed.

(** X21. The hexadecimal string sent to the contract always starts with
    [0x].  For a byte array it has two characters for each byte after the
    prefix, and different arrays give different strings, so the handle and
    the proof are passed on without loss; converting a string that was
    already converted changes nothing. *)
Theorem toHex_is_faithful (raw : Hex.Raw) (bytes bytes' : list Byte.byte) :
  Hex.startsWith0x (Hex.toHex raw) = true
  ∧ String.length (Hex.toHex (Hex.RawBytes bytes)) = (2 + 2 * length bytes)%nat
  ∧ (Hex.toHex (Hex.RawBytes bytes) = Hex.toHex (Hex.RawBytes bytes') → bytes = bytes')
  ∧ Hex.toHex (Hex.RawString (Hex.toHex raw)) = Hex.toHex raw.
Proof.
  split; [|split; [|split]].
  - destruct raw; [apply withPrefix_starts|done|apply withPrefix_starts].
  - cbn. by rewrite join_byteHex_length.
  - cbn. intros [= Heq]. by apply join_byteHex_inj.
  - assert (Hex.startsWith0x (Hex.toHex raw) = true) as Hstarts
      by (destruct raw; [apply withPrefix_starts|done|apply withPrefix_starts]).
    cbn. unfold Hex.withPrefix at 1. by rewrite Hstarts.
Qed.

Lemma toHex_is_faithful_witness :
  Hex.startsWith0x (Hex.toHex (Hex.RawString "a1b2")) = true
  ∧ String.length (Hex.toHex (Hex.RawBytes [Byte.x0a; Byte.xff; Byte.x00])) = (2 + 2 * 3)%nat
  ∧ (Hex.toHex (Hex.RawBytes [Byte.x0a; Byte.xff; Byte.x00])
       = Hex.toHex (Hex.RawBytes [Byte.x0a; Byte.xff; Byte.x00]) →
     [Byte.x0a; Byte.xff; Byte.x00] = [Byte.x0a; Byte.xff; Byte.x00])
  ∧ Hex.toHex (Hex.RawString (Hex.toHex (Hex.RawString "a1b2")))
      = Hex.toHex (Hex.RawString "a1b2").
Proof.
  exact (toHex_is_faithful (Hex.RawString "a1b2") [Byte.x0a; Byte.xff; Byte.x00]
           [Byte.x0a; Byte.xff; Byte.x00]).
Defined.

Example toHex_bytes : Hex.toHex (Hex.RawBytes [Byte.x0a; Byte.xff; Byte.x00]) = "0x0aff00".
Proof. reflexivity. Qed.

(** ** A series of score checks *)

Section Probing.
Context {fhe : FHE.Library}.

Lemma run_snoc (tr : list (Env * Call)) (e : Env) (c : Call) (s : State) :
  run (tr ++ [(e, c)]) s = step e c (run tr s).
Proof. unfold run. by rewrite foldl_app. Qed.

Lemma step_checkScoreMatch (e : Env) (s : State) (requestId minScore : N)
    (r : BorrowerRequest.t) :
  msg_value e = 0 →
  borrowerRequests s !! N.to_nat requestId = Some r →
  BorrowerRequest.isActive r = true →
  step e (CheckScoreMatch requestId minScore) s =
    score_checked e requestId minScore
      (FHE.fheGe (BorrowerRequest.encryptedScore r) (FHE.trivialEncrypt minScore)) s.
Proof.
  intros Hvalue Hr Hactive. unfold step, commit. cbn [call]. unfold nonpayable.
  apply N.eqb_eq in Hvalue. rewrite Hvalue.
  unfold mbind at 1 2, M_bind, mret at 1, M_ret.
  by rewrite (checkScoreMatch_ok _ _ _ _ r).
Qed.

(** X22. A caller may put any series of thresholds to an active request:
    every check succeeds, none overwrites the answer to another
    threshold, and afterwards [getComparisonResult] returns, for each
    threshold of the series, the handle of the comparison of the stored
    score with that threshold.  The request itself is left as it was. *)
Theorem thresholds_can_be_probed (e e' : Env) (s : State) (requestId : N)
    (r : BorrowerRequest.t) (thresholds : list N) :
  msg_value e = 0 →
  borrowerRequests s !! N.to_nat requestId = Some r →
  BorrowerRequest.isActive r = true →
  let s' := run ((λ minScore, (e, CheckScoreMatch requestId minScore)) <$> thresholds) s in
  borrowerRequests s' = borrowerRequests s
  ∧ ∀ minScore, minScore ∈ thresholds →
      getComparisonResult e' requestId minScore (msg_sender e) s' =
        Ok (FHE.fheGe (BorrowerRequest.encryptedScore r) (FHE.trivialEncrypt minScore)) s'.
Proof.
  intros Hvalue Hr Hactive. cbn zeta.
  induction thresholds as [|t thresholds IH] using rev_ind.
  { split; [done|]. intros minScore Hin. by apply elem_of_nil in Hin. }
  destruct IH as (Hsame & Hread).
  rewrite fmap_app. cbn [fmap list_fmap]. rewrite run_snoc.
  rewrite (step_checkScoreMatch _ _ _ _ r) by (done || by rewrite Hsame).
  split; [done|].
  intros minScore Hin. rewrite getComparisonResult_eq. cbn.
  destruct (decide (minScore = t)) as [->|Hne].
  - by rewrite lookup_insert_eq.
  - rewrite lookup_insert_ne by congruence.
    apply elem_of_app in Hin as [Hin|Hin%list_elem_of_singleton]; [|done].
    specialize (Hread _ Hin). rewrite getComparisonResult_eq in Hread.
    injection Hread as ->. done.
Qed.

End Probing.

(** With the simulated library, two checks around 750 pin the score down. *)
Lemma thresholds_can_be_probed_witness :
  borrowerRequests
    (run (fhe := mockFHE)
       ((λ minScore, (tx bob, CheckScoreMatch 0 minScore)) <$> [750; 751]) with_request)
  = borrowerRequests with_request
  ∧ ∀ minScore, minScore ∈ [750; 751] →
      getComparisonResult (tx carol) 0 minScore (msg_sender (tx bob))
        (run (fhe := mockFHE)
           ((λ minScore, (tx bob, CheckScoreMatch 0 minScore)) <$> [750; 751]) with_request)
      = Ok (FHE.fheGe (Library := mockFHE) 750 (FHE.trivialEncrypt (Library := mockFHE) minScore))
          (run (fhe := mockFHE)
             ((λ minScore, (tx bob, CheckScoreMatch 0 minScore)) <$> [750; 751])
             with_request).
Proof.
  apply (thresholds_can_be_probed (fhe := mockFHE) (tx bob) (tx carol) with_request 0
           (BorrowerRequest.mk alice 750 5000 12 true) [750; 751]); reflexivity.
Defined.

(** * The test suite, replayed

    The scenario of the contract's tests, evaluated on the model with the
    simulated FHE library. *)

Example request_is_recorded :
  getBorrowerRequestsCount (tx bob) with_request = Ok 1 with_request
  ∧ getBorrowerRequest (tx bob) 0 with_request = Ok (alice, 5000, 12, true) with_request.
Proof. split; reflexivity. Qed.

Example offer_is_recorded :
  getLenderOffersCount (tx alice) with_offer = Ok 1 with_offer
  ∧ getLenderOffer (tx alice) 0 with_offer = Ok (bob, 0, 5000, 500, 12, true) with_offer.
Proof. split; reflexivity. Qed.

Example loan_is_created :
  ∃ s, acceptLoanOffer (tx alice) 0 with_offer = Ok tt s
    ∧ getLoansCount (tx bob) s = Ok 1 s
    ∧ getLoan (tx bob) 0 s = Ok (alice, bob, 5000, 500, 12, 1700000000, true, false) s
    ∧ getBorrowerRequest (tx bob) 0 s = Ok (alice, 5000, 12, false) s
    ∧ getLenderOffer (tx bob) 0 s = Ok (bob, 0, 5000, 500, 12, false) s
    ∧ logs s = [NewBorrowerRequest 0 alice 5000; NewLenderOffer 0 0 bob 5000;
                LoanCreated 0 alice bob 5000].
Proof. eexists. split; [vm_compute; reflexivity|]. repeat split. Qed.

Example matches_are_the_active_requests :
  findMatches (tx bob) 700 with_request = Ok [0] with_request
  ∧ findMatches (tx bob) 800 with_request = Ok [0] with_request
  ∧ findMatches (tx bob) 700 with_loan = Ok [] with_loan
  ∧ findMatches (tx alice) 0 three_requests = Ok [0; 2] three_requests.
Proof. repeat split; vm_compute; reflexivity. Qed.

Example score_750_against_thresholds :
  (∃ s, checkScoreMatch (fhe := mockFHE) (tx bob) 0 700 with_request = Ok 2 s)
  ∧ (∃ s, checkScoreMatch (fhe := mockFHE) (tx bob) 0 800 with_request = Ok 1 s)
  ∧ getEncryptedScore (tx bob) 0 with_request = Ok 750 with_request.
Proof.
  split; [eexists; vm_compute; reflexivity|].
  split; [eexists; vm_compute; reflexivity|].
  reflexivity.
Qed.

Example value_is_refused_elsewhere_without_reason :
  call (fhe := mockFHE) (mkEnv ledger bob 1 1700000000) (SubmitLenderOffer 0 5000 500 12)
    with_request = Revert EmptyString with_request.
Proof. reflexivity. Qed.
